(** * Infinite Runner: the simulation loop of [script.js], embedded in Rocq

    The game keeps every quantity in a JavaScript [number], an IEEE-754
    binary64 value.  The embedding uses Rocq's primitive [float] for them, so
    [+], [-], [*], [/], [<] and [<=] below are the very operations the
    browser performs, roundings included, and concrete scenarios are run by
    evaluation.  General facts about the order of rounded results are derived
    from the standard library's specification of these operations
    ([SpecFloat], [FloatAxioms]).

    Layout: definitions first (binary64 helpers, the JavaScript built-ins in
    use, then one module per class of the script), then the theory of rounding,
    then the properties of each class. *)

From Stdlib Require Import ZArith List Bool Lia Floats String.
Import ListNotations.

Set Warnings "-inexact-float".

(* ================================================================== *)
(** * Part I: definitions                                              *)
(* ================================================================== *)

(** ** Binary64 values as integers

    A finite double is an integer multiple of [2^-1074]; [key] is that integer
    (infinities sit beyond every finite value).  [RndS] rounds a rational to
    the nearest double, ties to even, the way [SpecFloat] assembles a result:
    it is the yardstick the library's operations are compared with. *)
Module Binary64.
Local Open Scope Z_scope.

Definition b2z (b : bool) : Z := if b then 1 else 0.

(** [rep a B mrs]: the shift record [mrs] locates the rational [a/B]: its
    integer part, whether it is at or past the half, and whether anything is
    left below. *)
Definition rep (a B : Z) (mrs : shr_record) : Prop :=
  0 <= shr_m mrs /\
  exists sg, 0 <= sg < B /\
    2 * a = (2 * shr_m mrs + b2z (shr_r mrs)) * B + sg /\
    (shr_s mrs = negb (sg =? 0)).

(** [a/B] rounded to the nearest integer, ties to even. *)
Definition rne (a B : Z) : Z :=
  let q := a / B in
  let t := 2 * (a mod B) in
  if t <? B then q
  else if B <? t then q + 1
  else if Z.even q then q else q + 1.

Definition fexp64 (e : Z) : Z := Z.max (e - 53) (-1074).

(** The float made of mantissa [M] at exponent [E], renormalised after a
    carry, overflowing to infinity. *)
Definition enc (s : bool) (M E : Z) : spec_float :=
  let '(M', E') := if 2 ^ 53 <=? M then (M / 2, E + 1) else (M, E) in
  match M' with
  | Z0 => S754_zero s
  | Zpos m => if E' <=? 971 then S754_finite s m E' else S754_infinity s
  | Zneg _ => S754_nan
  end.

(** Rationals to be rounded are given in units of [2^wexp], small enough for
    every product and quotient of two doubles. *)
Definition wexp : Z := -2200.

Definition rexp (A b : Z) : Z := fexp64 (Zdigits2 (A / b) + wexp).

Definition RndS (s : bool) (A b : Z) : spec_float :=
  enc s (rne A (b * 2 ^ (rexp A b - wexp))) (rexp A b).

Definition rval (A b : Z) : Z :=
  rne A (b * 2 ^ (rexp A b - wexp)) * 2 ^ (rexp A b + 1074).

Definition kinf : Z := 2 ^ 3000.
Definition kmax : Z := 2 ^ 2098.

Definition key (x : spec_float) : Z :=
  match x with
  | S754_zero _ => 0
  | S754_nan => 0
  | S754_infinity s => cond_Zopp s kinf
  | S754_finite s m e => cond_Zopp s (Zpos m * 2 ^ (e + 1074))
  end.

Definition clamp (v : Z) : Z := if v <? kmax then v else kinf.

Definition is_nan_sf (x : spec_float) : bool :=
  match x with S754_nan => true | _ => false end.

Definition is_fin_sf (x : spec_float) : bool :=
  match x with S754_zero _ | S754_finite _ _ _ => true | _ => false end.

(** Rounded sum, product and quotient, on keys. *)
Definition RZ (N : Z) : spec_float :=
  match N with
  | Z0 => S754_zero false
  | Zpos p => RndS false (Zpos p * 2 ^ 1126) 1
  | Zneg p => RndS true (Zpos p * 2 ^ 1126) 1
  end.

Definition rkey (N : Z) : Z :=
  match N with
  | Z0 => 0
  | Zpos p => clamp (rval (Zpos p * 2 ^ 1126) 1)
  | Zneg p => - clamp (rval (Zpos p * 2 ^ 1126) 1)
  end.

Definition mkey (N : Z) : Z :=
  match N with
  | Z0 => 0
  | Zpos p => clamp (rval (Zpos p * 2 ^ 52) 1)
  | Zneg p => - clamp (rval (Zpos p * 2 ^ 52) 1)
  end.

Definition dkey (N c : Z) : Z :=
  match N with
  | Z0 => 0
  | Zpos p => clamp (rval (Zpos p * 2 ^ 2200) c)
  | Zneg p => - clamp (rval (Zpos p * 2 ^ 2200) c)
  end.

(** The same readings on primitive floats. *)
Definition fkey (x : float) : Z := key (Prim2SF x).
Definition fnan (x : float) : bool := is_nan_sf (Prim2SF x).
Definition ffin (x : float) : bool := is_fin_sf (Prim2SF x).

(** [x <= y] and [x < y] as the script's comparisons compute them. *)
Definition fle (x y : float) : Prop := (x <=? y)%float = true.
Definition flt (x y : float) : Prop := (x <? y)%float = true.

End Binary64.

(** ** JavaScript built-ins used by the script *)
Module JS.
Local Open Scope float_scope.

Definition is_neg_zero (x : float) : bool := (x =? 0) && get_sign x.

(** [Math.min(a, b)] and [Math.max(a, b)]: NaN if either is NaN, and [-0]
    below [+0]. *)
Definition Math_min (a b : float) : float :=
  if is_nan a || is_nan b then nan
  else if a <? b then a
  else if b <? a then b
  else if is_neg_zero a then a else b.

Definition Math_max (a b : float) : float :=
  if is_nan a || is_nan b then nan
  else if a <? b then b
  else if b <? a then a
  else if is_neg_zero a then b else a.

Definition float_of_Z (z : Z) : float :=
  SF2Prim (binary_normalize prec emax z 0 false).

(** The integer floor of [(-1)^s m 2^e] for [e < 0]. *)
Definition floorZ (s : bool) (m : positive) (e : Z) : Z :=
  let q := (Zpos m / 2 ^ (- e))%Z in
  if s then (if (Zpos m mod 2 ^ (- e) =? 0)%Z then - q else - (q + 1))%Z else q.

(** [Math.floor(x)]: integers, zeros, infinities and NaN are left alone. *)
Definition Math_floor (x : float) : float :=
  match Prim2SF x with
  | S754_finite s m e => if (0 <=? e)%Z then x else float_of_Z (floorZ s m e)
  | _ => x
  end.

(** The array index a number denotes, if any: [a[v]] is an element only when
    [v] is a non-negative integer. *)
Definition array_index (v : float) : option Z :=
  match Prim2SF v with
  | S754_zero _ => Some 0%Z
  | S754_finite false m e =>
      if (0 <=? e)%Z then Some (Zpos m * 2 ^ e)%Z
      else if (Zpos m mod 2 ^ (- e) =? 0)%Z then Some (Zpos m / 2 ^ (- e))%Z
      else None
  | _ => None
  end.

(** [a[v]]; [None] stands for [undefined]. *)
Definition array_get {A : Type} (a : list A) (v : float) : option A :=
  match array_index v with
  | Some i => if (i <? Z.of_nat (List.length a))%Z then nth_error a (Z.to_nat i) else None
  | None => None
  end.

(** [a.length] as a number. *)
Definition array_length {A : Type} (a : list A) : float :=
  float_of_Z (Z.of_nat (List.length a)).

(** [a[a.length - 1]], the last element of a non-empty array. *)
Fixpoint array_last {A : Type} (a : list A) : option A :=
  match a with
  | [] => None
  | [v] => Some v
  | _ :: rest => array_last rest
  end.

(** [Math.random()]: the script's only source of randomness, modelled as the
    sequence of values it will return and a cursor into it. *)
Record Random := { draws : nat -> float; cursor : nat }.

Definition Math_random (r : Random) : float * Random :=
  (draws r (cursor r), {| draws := draws r; cursor := S (cursor r) |}).

(** [Math.random()] returns values in [0, 1). *)
Definition unit_interval (v : float) : Prop :=
  (0 <=? v) = true /\ (v <? 1) = true.

Definition well_formed (r : Random) : Prop :=
  forall i, unit_interval (draws r i).

End JS.

(** ** Game configuration ([CONFIG]) and game states ([GAME_STATES]) *)

Record Config := {
  GRAVITY : float;
  JUMP_FORCE : float;
  CANVAS_WIDTH : float;
  CANVAS_HEIGHT : float;
  GROUND_HEIGHT : float;
  PLAYER_SIZE : float;
  MIN_OBSTACLE_DISTANCE : float;
  MAX_OBSTACLE_DISTANCE : float
}.

(** [CONFIG] as the script initialises it; the canvas takes the window's
    inner size. *)
Definition CONFIG (innerWidth innerHeight : float) : Config :=
  {| GRAVITY := 0.8;
     JUMP_FORCE := -15;
     CANVAS_WIDTH := innerWidth;
     CANVAS_HEIGHT := innerHeight;
     GROUND_HEIGHT := 100;
     PLAYER_SIZE := 40;
     MIN_OBSTACLE_DISTANCE := 200;
     MAX_OBSTACLE_DISTANCE := 400 |}%float.

Inductive GameState := MENU | PLAYING | PAUSED | GAME_OVER.

Definition GameState_eqb (a b : GameState) : bool :=
  match a, b with
  | MENU, MENU | PLAYING, PLAYING | PAUSED, PAUSED | GAME_OVER, GAME_OVER => true
  | _, _ => false
  end.

Module Vector2.
Record t := { x : float; y : float }.
End Vector2.

(** ** Particle *)
Module Particle.
Local Open Scope float_scope.

Record t := {
  x : float;
  y : float;
  color : string;
  velocity : Vector2.t;
  life : float;
  decay : float;
  size : float
}.

(** [new Particle(x, y, color, velocity)]; a missing velocity is drawn at
    random, and the size always is. *)
Definition new (x0 y0 : float) (color0 : string) (velocity0 : option Vector2.t)
    (rnd : JS.Random) : t * JS.Random :=
  let '(v, rnd) :=
    match velocity0 with
    | Some v => (v, rnd)
    | None =>
        let '(r1, rnd) := JS.Math_random rnd in
        let '(r2, rnd) := JS.Math_random rnd in
        ({| Vector2.x := (r1 - 0.5) * 10; Vector2.y := (r2 - 0.5) * 10 |}, rnd)
    end in
  let '(r3, rnd) := JS.Math_random rnd in
  ({| x := x0; y := y0; color := color0; velocity := v;
      life := 1.0; decay := 0.02; size := r3 * 4 + 2 |}, rnd).

Definition update (p : t) : t :=
  {| x := x p + Vector2.x (velocity p);
     y := y p + Vector2.y (velocity p);
     color := color p;
     velocity := {| Vector2.x := Vector2.x (velocity p);
                    Vector2.y := Vector2.y (velocity p) + 0.2 |};
     life := life p - decay p;
     decay := decay p;
     size := size p * 0.98 |}.

Definition isDead (p : t) : bool := life p <=? 0.

End Particle.

(** ** Trail *)
Module Trail.
Local Open Scope float_scope.

Record Point := { x : float; y : float; life : float }.

Record t := { points : list Point; maxPoints : nat }.

Definition new : t := {| points := []; maxPoints := 20 |}.

(** [push] then, when over capacity, [shift]. *)
Definition addPoint (tr : t) (x0 y0 : float) : t :=
  let pushed := points tr ++ [{| x := x0; y := y0; life := 1.0 |}] in
  {| points := if (maxPoints tr <? List.length pushed)%nat then tl pushed else pushed;
     maxPoints := maxPoints tr |}.

Definition update (tr : t) : t :=
  let aged := map (fun p => {| x := x p; y := y p; life := life p - 0.05 |}) (points tr) in
  {| points := filter (fun p => 0 <? life p) aged;
     maxPoints := maxPoints tr |}.

End Trail.

(** Axis-aligned boxes, as [getBounds] returns them. *)
Module AABB.
Record t := { x : float; y : float; width : float; height : float }.
End AABB.

(** ** Player *)
Module Player.
Local Open Scope float_scope.

Record t := {
  x : float;
  y : float;
  width : float;
  height : float;
  velocityY : float;
  onGround : bool;
  rotation : float;
  color : string;
  trail : Trail.t
}.

(** [reset()] assigns every field but the trail. *)
Definition reset (cfg : Config) (p : t) : t :=
  {| x := 100;
     y := CANVAS_HEIGHT cfg - GROUND_HEIGHT cfg - PLAYER_SIZE cfg;
     width := PLAYER_SIZE cfg;
     height := PLAYER_SIZE cfg;
     velocityY := 0;
     onGround := false;
     rotation := 0;
     color := "#00ffff";
     trail := trail p |}.

(** The constructor: [reset()], then a fresh trail. *)
Definition new (cfg : Config) : t :=
  {| x := 100;
     y := CANVAS_HEIGHT cfg - GROUND_HEIGHT cfg - PLAYER_SIZE cfg;
     width := PLAYER_SIZE cfg;
     height := PLAYER_SIZE cfg;
     velocityY := 0;
     onGround := false;
     rotation := 0;
     color := "#00ffff";
     trail := Trail.new |}.

Definition jump (cfg : Config) (p : t) : t :=
  if onGround p then
    {| x := x p; y := y p; width := width p; height := height p;
       velocityY := JUMP_FORCE cfg;
       onGround := false;
       rotation := rotation p; color := color p; trail := trail p |}
  else p.

(** Whether this tick's ground test, resp. ceiling test, fires. *)
Definition hitsGround (cfg : Config) (p : t) : bool :=
  let velocityY' := velocityY p + GRAVITY cfg in
  let y' := y p + velocityY' in
  CANVAS_HEIGHT cfg - GROUND_HEIGHT cfg <=? y' + height p.

Definition hitsCeiling (cfg : Config) (p : t) : bool :=
  let velocityY' := velocityY p + GRAVITY cfg in
  let y' := y p + velocityY' in
  let groundY := CANVAS_HEIGHT cfg - GROUND_HEIGHT cfg in
  (if groundY <=? y' + height p then groundY - height p else y') <=? 0.

(** [update()], with the string it returns. *)
Definition update (cfg : Config) (p : t) : t * string :=
  let velocityY1 := velocityY p + GRAVITY cfg in
  let y1 := y p + velocityY1 in
  let groundY := CANVAS_HEIGHT cfg - GROUND_HEIGHT cfg in
  let '(y2, velocityY2, onGround2, rotation2) :=
    if groundY <=? y1 + height p
    then (groundY - height p, 0, true, 0)
    else (y1, velocityY1, false, rotation p + 0.15) in
  let '(y3, velocityY3) :=
    if y2 <=? 0 then (0, 0) else (y2, velocityY2) in
  let trail1 := Trail.addPoint (trail p) (x p + width p / 2) (y3 + height p / 2) in
  ({| x := x p; y := y3; width := width p; height := height p;
      velocityY := velocityY3;
      onGround := onGround2;
      rotation := rotation2;
      color := color p;
      trail := Trail.update trail1 |},
   "alive"%string).

Definition getBounds (p : t) : AABB.t :=
  {| AABB.x := x p + 2;
     AABB.y := y p + 2;
     AABB.width := width p - 4;
     AABB.height := height p - 4 |}.

End Player.

(** ** Camera *)
Module Camera.
Local Open Scope float_scope.

Record t := { x : float; shake : float; shakeDecay : float }.

Definition new : t := {| x := 0; shake := 0; shakeDecay := 0.9 |}.

Definition update (c : t) : t :=
  if 0 <? shake c
  then {| x := x c; shake := shake c * shakeDecay c; shakeDecay := shakeDecay c |}
  else c.

Definition addShake (c : t) (intensity : float) : t :=
  {| x := x c; shake := JS.Math_max (shake c) intensity; shakeDecay := shakeDecay c |}.

Definition getShakeOffset (c : t) (rnd : JS.Random) : Vector2.t * JS.Random :=
  if 0 <? shake c then
    let '(r1, rnd) := JS.Math_random rnd in
    let '(r2, rnd) := JS.Math_random rnd in
    ({| Vector2.x := (r1 - 0.5) * shake c; Vector2.y := (r2 - 0.5) * shake c |}, rnd)
  else ({| Vector2.x := 0; Vector2.y := 0 |}, rnd).

End Camera.

(** ** Obstacles *)
Module Template.
(** An entry of [obstacleTypes]; an absent [glow] or [filled] reads as
    [false]. *)
Record t := {
  type : string;
  width : float;
  height : float;
  color : string;
  ground : bool;
  glow : bool;
  filled : bool
}.
End Template.

Module Obstacle.
Record t := {
  x : float;
  y : float;
  width : float;
  height : float;
  type : string;
  color : string;
  isAir : bool
}.
End Obstacle.

Module ObstacleGenerator.
Local Open Scope float_scope.

Record t := {
  obstacles : list Obstacle.t;
  nextObstacleX : float;
  obstacleTypes : list Template.t
}.

Definition template (ty : string) (w h : float) (c : string) (g gl f : bool) : Template.t :=
  {| Template.type := ty; Template.width := w; Template.height := h;
     Template.color := c; Template.ground := g; Template.glow := gl;
     Template.filled := f |}.

Definition catalog : list Template.t :=
  [ template "spike" 40 60 "#02ff70ff" true true false;
    template "cube" 50 50 "#8844ff" true false true;
    template "cube" 50 50 "#4488ff" true false false;
    template "orb" 35 35 "#ffff00" true true false;
    template "robot" 45 55 "#00ff88" true false false;
    template "ship" 60 35 "#ff8800" true false false;
    template "ball" 40 40 "#ff44ff" true false false;
    template "wave" 55 30 "#44ffff" true false false;
    template "spider" 50 40 "#ff4444" true false false;
    template "swing" 45 50 "#88ff44" true false false;
    template "ufo" 60 25 "#aaaaaa" false false false;
    template "star" 30 30 "#ffff00" false true false;
    template "star" 20 20 "#ffff88" false true false ].

Definition new (cfg : Config) : t :=
  {| obstacles := []; nextObstacleX := CANVAS_WIDTH cfg; obstacleTypes := catalog |}.

(** The position a spawn takes: [spacing] past the last obstacle, or
    [CANVAS_WIDTH + 200] when there is none. *)
Definition spawnX (cfg : Config) (obs : list Obstacle.t) (distanceFromLast : float) : float :=
  match JS.array_last obs with
  | Some l => Obstacle.x l + distanceFromLast
  | None => CANVAS_WIDTH cfg + 200
  end.

(** [generateObstacle(gameSpeed, distance)].  [None] is the [TypeError] of
    reading [.ground] off an [undefined] template. *)
Definition generateObstacle (cfg : Config) (g : t) (gameSpeed distance : float)
    (rnd : JS.Random) : option (t * JS.Random) :=
  let minDistance := 300 in
  let maxDistance := 500 in
  let '(r1, rnd) := JS.Math_random rnd in
  let distanceFromLast := minDistance + r1 * (maxDistance - minDistance) in
  let nextX := spawnX cfg (obstacles g) distanceFromLast in
  let '(r2, rnd) := JS.Math_random rnd in
  match JS.array_get (obstacleTypes g)
          (JS.Math_floor (r2 * JS.array_length (obstacleTypes g))) with
  | None => None
  | Some obstacleTemplate =>
      let '(obstacleY, rnd) :=
        if Template.ground obstacleTemplate
        then (CANVAS_HEIGHT cfg - GROUND_HEIGHT cfg - Template.height obstacleTemplate, rnd)
        else let '(r3, rnd) := JS.Math_random rnd in (50 + r3 * 150, rnd) in
      let obstacle :=
        {| Obstacle.x := nextX;
           Obstacle.y := obstacleY;
           Obstacle.width := Template.width obstacleTemplate;
           Obstacle.height := Template.height obstacleTemplate;
           Obstacle.type := Template.type obstacleTemplate;
           Obstacle.color := Template.color obstacleTemplate;
           Obstacle.isAir := negb (Template.ground obstacleTemplate) |} in
      Some ({| obstacles := obstacles g ++ [obstacle];
               nextObstacleX := nextX;
               obstacleTypes := obstacleTypes g |}, rnd)
  end.

(** The obstacles after the scroll and the cull of an [update]. *)
Definition scrolled (obs : list Obstacle.t) (gameSpeed : float) : list Obstacle.t :=
  filter (fun o => -100 <? Obstacle.x o + Obstacle.width o)
    (map (fun o =>
            {| Obstacle.x := Obstacle.x o - gameSpeed;
               Obstacle.y := Obstacle.y o;
               Obstacle.width := Obstacle.width o;
               Obstacle.height := Obstacle.height o;
               Obstacle.type := Obstacle.type o;
               Obstacle.color := Obstacle.color o;
               Obstacle.isAir := Obstacle.isAir o |}) obs).

(** Whether an [update] spawns: the set is empty or its last obstacle is
    left of the canvas's right edge. *)
Definition spawns (cfg : Config) (obs : list Obstacle.t) : bool :=
  match JS.array_last obs with
  | None => true
  | Some l => Obstacle.x l <? CANVAS_WIDTH cfg
  end.

Definition update (cfg : Config) (g : t) (gameSpeed distance : float)
    (rnd : JS.Random) : option (t * JS.Random) :=
  let g1 := {| obstacles := scrolled (obstacles g) gameSpeed;
               nextObstacleX := nextObstacleX g;
               obstacleTypes := obstacleTypes g |} in
  if spawns cfg (obstacles g1)
  then generateObstacle cfg g1 gameSpeed distance rnd
  else Some (g1, rnd).

(** The overlap test of [checkCollision], one obstacle against the player's
    bounds. *)
Definition hits (playerBounds : AABB.t) (obstacle : Obstacle.t) : bool :=
  (Obstacle.x obstacle <? AABB.x playerBounds + AABB.width playerBounds) &&
  (AABB.x playerBounds <? Obstacle.x obstacle + Obstacle.width obstacle) &&
  (Obstacle.y obstacle <? AABB.y playerBounds + AABB.height playerBounds) &&
  (AABB.y playerBounds <? Obstacle.y obstacle + Obstacle.height obstacle).

(** The loop returns [true] at the first obstacle that overlaps. *)
Fixpoint anyHits (playerBounds : AABB.t) (obs : list Obstacle.t) : bool :=
  match obs with
  | [] => false
  | obstacle :: rest =>
      if hits playerBounds obstacle then true else anyHits playerBounds rest
  end.

Definition checkCollision (g : t) (player : Player.t) : bool :=
  anyHits (Player.getBounds player) (obstacles g).

Definition reset (cfg : Config) (g : t) : t :=
  {| obstacles := []; nextObstacleX := CANVAS_WIDTH cfg; obstacleTypes := obstacleTypes g |}.

End ObstacleGenerator.

(** ** Persistent records ([localStorage]) *)
Module LocalStorage.
Record t := { highScore : option float; highDistance : option float }.
End LocalStorage.

(** ** Game: the orchestrator

    [World] gathers what the script's handlers can reach: the [Game] object,
    the global [CONFIG], the random source, the stored records and the two
    flags [setupInput] closes over.  The DOM (screens, score labels, CSS
    classes) is written and never read back, and is left out. *)
Module Game.
Local Open Scope float_scope.

Record t := {
  state : GameState;
  score : float;
  highScore : float;
  highDistance : float;
  gameSpeed : float;
  distance : float;
  player : Player.t;
  camera : Camera.t;
  obstacleGenerator : ObstacleGenerator.t;
  particles : list Particle.t;
  backgroundOffset : float
}.

Record World := {
  game : t;
  config : Config;
  random : JS.Random;
  localStorage : LocalStorage.t;
  isJumping : bool;
  isMouseDown : bool
}.

Definition with_game (w : World) (g : t) : World :=
  {| game := g; config := config w; random := random w;
     localStorage := localStorage w;
     isJumping := isJumping w; isMouseDown := isMouseDown w |}.

Definition with_state (g : t) (s : GameState) : t :=
  {| state := s; score := score g; highScore := highScore g;
     highDistance := highDistance g; gameSpeed := gameSpeed g;
     distance := distance g; player := player g; camera := camera g;
     obstacleGenerator := obstacleGenerator g; particles := particles g;
     backgroundOffset := backgroundOffset g |}.

Definition with_player (g : t) (p : Player.t) : t :=
  {| state := state g; score := score g; highScore := highScore g;
     highDistance := highDistance g; gameSpeed := gameSpeed g;
     distance := distance g; player := p; camera := camera g;
     obstacleGenerator := obstacleGenerator g; particles := particles g;
     backgroundOffset := backgroundOffset g |}.

(** [x || 0] on a stored record: an absent one reads as [0]. *)
Definition orZero (v : option float) : float :=
  match v with Some x => x | None => 0 end.

(** The constructor, for a window of the given inner size.  Its first
    [gameLoop] pass changes nothing in the MENU state. *)
Definition new (innerWidth innerHeight : float) (stored : LocalStorage.t)
    (rnd : JS.Random) : World :=
  let cfg := CONFIG innerWidth innerHeight in
  {| game :=
       {| state := MENU;
          score := 0;
          highScore := orZero (LocalStorage.highScore stored);
          highDistance := orZero (LocalStorage.highDistance stored);
          gameSpeed := 5;
          distance := 0;
          player := Player.new cfg;
          camera := Camera.new;
          obstacleGenerator := ObstacleGenerator.new cfg;
          particles := [];
          backgroundOffset := 0 |};
     config := cfg;
     random := rnd;
     localStorage := stored;
     isJumping := false;
     isMouseDown := false |}.

Definition startGame (w : World) : World :=
  let g := game w in
  with_game w
    {| state := PLAYING;
       score := 0;
       highScore := highScore g;
       highDistance := highDistance g;
       gameSpeed := 5;
       distance := 0;
       player := Player.reset (config w) (player g);
       camera := Camera.new;
       obstacleGenerator := ObstacleGenerator.reset (config w) (obstacleGenerator g);
       particles := [];
       backgroundOffset := backgroundOffset g |}.

Definition pauseGame (w : World) : World :=
  match state (game w) with
  | PLAYING => with_game w (with_state (game w) PAUSED)
  | _ => w
  end.

Definition resumeGame (w : World) : World :=
  match state (game w) with
  | PAUSED => with_game w (with_state (game w) PLAYING)
  | _ => w
  end.

Definition showMenu (w : World) : World :=
  with_game w (with_state (game w) MENU).

(** The explosion of [gameOver]: [n] particles at [(px, py)], each with a
    random velocity drawn before its construction. *)
Fixpoint explosion (n : nat) (px py : float) (ps : list Particle.t)
    (rnd : JS.Random) : list Particle.t * JS.Random :=
  match n with
  | O => (ps, rnd)
  | S n' =>
      let '(r1, rnd) := JS.Math_random rnd in
      let '(r2, rnd) := JS.Math_random rnd in
      let '(p, rnd) :=
        Particle.new px py "#ff3333"
          (Some {| Vector2.x := (r1 - 0.5) * 20; Vector2.y := (r2 - 0.5) * 20 |}) rnd in
      explosion n' px py (ps ++ [p]) rnd
  end.

Definition gameOver (w : World) : World :=
  let g := game w in
  let camera1 := Camera.addShake (camera g) 20 in
  let newHighScore := highScore g <? score g in
  let newHighDistance := highDistance g <? distance g in
  let highScore1 := if newHighScore then score g else highScore g in
  let highDistance1 :=
    if newHighDistance then JS.Math_floor (distance g) else highDistance g in
  let stored :=
    {| LocalStorage.highScore :=
         if newHighScore then Some highScore1
         else LocalStorage.highScore (localStorage w);
       LocalStorage.highDistance :=
         if newHighDistance then Some highDistance1
         else LocalStorage.highDistance (localStorage w) |} in
  let '(particles1, rnd) :=
    explosion 50
      (Player.x (player g) + Player.width (player g) / 2)
      (Player.y (player g) + Player.height (player g) / 2)
      (particles g) (random w) in
  {| game :=
       {| state := GAME_OVER;
          score := score g;
          highScore := highScore1;
          highDistance := highDistance1;
          gameSpeed := gameSpeed g;
          distance := distance g;
          player := player g;
          camera := camera1;
          obstacleGenerator := obstacleGenerator g;
          particles := particles1;
          backgroundOffset := backgroundOffset g |};
     config := config w;
     random := rnd;
     localStorage := stored;
     isJumping := isJumping w;
     isMouseDown := isMouseDown w |}.

(** The speed the script derives from a distance. *)
Definition speedFor (distance : float) : float :=
  JS.Math_min (5 + distance / 500) 10.

(** [update()].  [None] is an exception escaping the frame. *)
Definition update (w : World) : option World :=
  let g := game w in
  match state g with
  | PLAYING =>
      let '(player1, playerState) := Player.update (config w) (player g) in
      if String.eqb playerState "death" then
        Some (gameOver (with_game w (with_player g player1)))
      else
        let distance1 := distance g + gameSpeed g * 0.1 in
        let gameSpeed1 := speedFor distance1 in
        let backgroundOffset1 := backgroundOffset g + gameSpeed1 * 0.3 in
        let score1 := JS.Math_floor (distance1 / 10) in
        let camera1 := Camera.update (camera g) in
        match ObstacleGenerator.update (config w) (obstacleGenerator g)
                gameSpeed1 distance1 (random w) with
        | None => None
        | Some (generator1, rnd) =>
            let g1 :=
              {| state := state g;
                 score := score1;
                 highScore := highScore g;
                 highDistance := highDistance g;
                 gameSpeed := gameSpeed1;
                 distance := distance1;
                 player := player1;
                 camera := camera1;
                 obstacleGenerator := generator1;
                 particles := particles g;
                 backgroundOffset := backgroundOffset1 |} in
            let w1 :=
              {| game := g1; config := config w; random := rnd;
                 localStorage := localStorage w;
                 isJumping := isJumping w; isMouseDown := isMouseDown w |} in
            if ObstacleGenerator.checkCollision generator1 player1 then
              Some (gameOver w1)
            else
              Some (with_game w1
                {| state := state g1;
                   score := score g1;
                   highScore := highScore g1;
                   highDistance := highDistance g1;
                   gameSpeed := gameSpeed g1;
                   distance := distance g1;
                   player := player g1;
                   camera := camera g1;
                   obstacleGenerator := obstacleGenerator g1;
                   particles :=
                     filter (fun p => negb (Particle.isDead p))
                       (map Particle.update (particles g1));
                   backgroundOffset := backgroundOffset g1 |})
        end
  | _ => Some w
  end.

(** [draw()] paints and leaves the game alone; past the MENU state it asks
    the camera for a shake offset, which may draw two random numbers. *)
Definition draw (w : World) : World :=
  match state (game w) with
  | MENU => w
  | _ =>
      let '(_, rnd) := Camera.getShakeOffset (camera (game w)) (random w) in
      {| game := game w; config := config w; random := rnd;
         localStorage := localStorage w;
         isJumping := isJumping w; isMouseDown := isMouseDown w |}
  end.

Definition gameLoop (w : World) : option World :=
  match update w with
  | Some w1 => Some (draw w1)
  | None => None
  end.

Definition playerJump (w : World) : World :=
  with_game w (with_player (game w) (Player.jump (config w) (player (game w)))).

Definition setJumping (w : World) (b : bool) : World :=
  {| game := game w; config := config w; random := random w;
     localStorage := localStorage w; isJumping := b; isMouseDown := isMouseDown w |}.

Definition setMouseDown (w : World) (b : bool) : World :=
  {| game := game w; config := config w; random := random w;
     localStorage := localStorage w; isJumping := isJumping w; isMouseDown := b |}.

(** The [keydown] listener: one [if] per key code, in the script's order. *)
Definition keydown (code : string) (w : World) : World :=
  let w :=
    if String.eqb code "Space" then
      match state (game w) with
      | MENU => startGame w
      | GAME_OVER => startGame w
      | PLAYING => if isJumping w then w else setJumping (playerJump w) true
      | PAUSED => w
      end
    else w in
  let w :=
    if String.eqb code "KeyP" then
      match state (game w) with MENU => startGame w | _ => w end
    else w in
  let w :=
    if String.eqb code "Escape" then
      match state (game w) with
      | PLAYING => pauseGame w
      | PAUSED => resumeGame w
      | _ => w
      end
    else w in
  let w :=
    if String.eqb code "KeyR" then
      match state (game w) with
      | GAME_OVER => startGame w
      | PAUSED => resumeGame w
      | _ => w
      end
    else w in
  let w :=
    if String.eqb code "KeyS" && GameState_eqb (state (game w)) PAUSED
    then startGame w else w in
  if String.eqb code "KeyM" then showMenu w else w.

Definition keyup (code : string) (w : World) : World :=
  if String.eqb code "Space" then setJumping w false else w.

(** [handleJump], bound to [mousedown] and [touchstart]. *)
Definition handleJump (w : World) : World :=
  match state (game w) with
  | PLAYING => setMouseDown (playerJump w) true
  | MENU => startGame w
  | GAME_OVER => startGame w
  | PAUSED => w
  end.

Definition handleRelease (w : World) : World := setMouseDown w false.

(** The [resize] listener. *)
Definition resize (innerWidth innerHeight : float) (w : World) : World :=
  let cfg := config w in
  {| game := game w;
     config :=
       {| GRAVITY := GRAVITY cfg; JUMP_FORCE := JUMP_FORCE cfg;
          CANVAS_WIDTH := innerWidth; CANVAS_HEIGHT := innerHeight;
          GROUND_HEIGHT := GROUND_HEIGHT cfg; PLAYER_SIZE := PLAYER_SIZE cfg;
          MIN_OBSTACLE_DISTANCE := MIN_OBSTACLE_DISTANCE cfg;
          MAX_OBSTACLE_DISTANCE := MAX_OBSTACLE_DISTANCE cfg |};
     random := random w;
     localStorage := localStorage w;
     isJumping := isJumping w;
     isMouseDown := isMouseDown w |}.

(** What the browser can deliver to the script.  The 50 ms interval for a
    "ship" mode tests [player.mode], a field no code assigns: it never acts. *)
Inductive Event :=
  | KeyDown (code : string)
  | KeyUp (code : string)
  | PointerDown
  | PointerUp
  | ClickStart
  | ClickPause
  | ClickResume
  | ClickMenu
  | AnimationFrame
  | Resize (innerWidth innerHeight : float)
  | ShipInterval.

Definition dispatch (w : World) (ev : Event) : option World :=
  match ev with
  | KeyDown code => Some (keydown code w)
  | KeyUp code => Some (keyup code w)
  | PointerDown => Some (handleJump w)
  | PointerUp => Some (handleRelease w)
  | ClickStart => Some (startGame w)
  | ClickPause => Some (pauseGame w)
  | ClickResume => Some (resumeGame w)
  | ClickMenu => Some (showMenu w)
  | AnimationFrame => gameLoop w
  | Resize iw ih => Some (resize iw ih w)
  | ShipInterval => Some w
  end.

(** The worlds a run of the script can be in. *)
Inductive reachable : World -> Prop :=
  | reachable_new : forall iw ih stored rnd, reachable (new iw ih stored rnd)
  | reachable_dispatch : forall w ev w',
      reachable w -> dispatch w ev = Some w' -> reachable w'.

End Game.

(** ** Vocabulary of the properties

    Helper definitions the statements of Parts IV and V are written with: they
    describe runs of the classes above and the geometric words of the
    specification, and add no behaviour of their own. *)
Module Props.
Local Open Scope float_scope.

(** The same float, bit for bit. *)
Definition same (a b : float) : bool := PrimFloat.Leibniz.eqb a b.

(** *** Collision geometry, in the specification's words *)

(** An interval starting at [start] begins strictly before [stop]. *)
Definition before (start stop : float) : Prop := (start <? stop) = true.

(** Two boxes overlap iff each box's start is strictly before the other's
    end, on both axes. *)
Definition overlap (a b : AABB.t) : Prop :=
  before (AABB.x a) (AABB.x b + AABB.width b) /\
  before (AABB.x b) (AABB.x a + AABB.width a) /\
  before (AABB.y a) (AABB.y b + AABB.height b) /\
  before (AABB.y b) (AABB.y a + AABB.height a).

(** An obstacle's full bounds: no inset. *)
Definition fullBounds (o : Obstacle.t) : AABB.t :=
  {| AABB.x := Obstacle.x o; AABB.y := Obstacle.y o;
     AABB.width := Obstacle.width o; AABB.height := Obstacle.height o |}.

(** The player's square, inset by [margin] on each side. *)
Definition insetSquare (margin : float) (p : Player.t) : AABB.t :=
  {| AABB.x := Player.x p + margin;
     AABB.y := Player.y p + margin;
     AABB.width := Player.width p - (margin + margin);
     AABB.height := Player.height p - (margin + margin) |}.

(** *** Runs of the player *)

(** One [update()] of the player, its return value dropped. *)
Definition tick (cfg : Config) (p : Player.t) : Player.t :=
  fst (Player.update cfg p).

Definition ticks (cfg : Config) (n : nat) (p : Player.t) : Player.t :=
  Nat.iter n (tick cfg) p.

(** Neither clamp of [update()] fires on [p]'s next tick. *)
Definition unclamped (cfg : Config) (p : Player.t) : bool :=
  negb (Player.hitsGround cfg p) && negb (Player.hitsCeiling cfg p).

(** [g] added [n] times, one rounded addition per tick. *)
Definition addTimes (n : nat) (g v0 : float) : float :=
  Nat.iter n (fun v => v + g) v0.

(** The closed form [v0 + n g], computed as the script would. *)
Definition closedForm (n : nat) (g v0 : float) : float :=
  v0 + JS.float_of_Z (Z.of_nat n) * g.

(** The part of a player that [update()] computes with: position, speed,
    the two flags' worth of state, and the height. *)
Record Body := {
  bodyY : float;
  bodyVelocityY : float;
  bodyOnGround : bool;
  bodyRotation : float;
  bodyHeight : float
}.

Definition body (p : Player.t) : Body :=
  {| bodyY := Player.y p; bodyVelocityY := Player.velocityY p;
     bodyOnGround := Player.onGround p; bodyRotation := Player.rotation p;
     bodyHeight := Player.height p |}.

(** [Player.update] on a body. *)
Definition bodyTick (cfg : Config) (b : Body) : Body :=
  let velocityY1 := bodyVelocityY b + GRAVITY cfg in
  let y1 := bodyY b + velocityY1 in
  let groundY := CANVAS_HEIGHT cfg - GROUND_HEIGHT cfg in
  let '(y2, velocityY2, onGround2, rotation2) :=
    if groundY <=? y1 + bodyHeight b
    then (groundY - bodyHeight b, 0, true, 0)
    else (y1, velocityY1, false, bodyRotation b + 0.15) in
  let '(y3, velocityY3) :=
    if y2 <=? 0 then (0, 0) else (y2, velocityY2) in
  {| bodyY := y3; bodyVelocityY := velocityY3; bodyOnGround := onGround2;
     bodyRotation := rotation2; bodyHeight := bodyHeight b |}.

(** [Player.jump] on a body. *)
Definition bodyJump (cfg : Config) (b : Body) : Body :=
  if bodyOnGround b then
    {| bodyY := bodyY b; bodyVelocityY := JUMP_FORCE cfg; bodyOnGround := false;
       bodyRotation := bodyRotation b; bodyHeight := bodyHeight b |}
  else b.

(** A player at rest on the ground: after [reset()] and the one [update()]
    that lands it. *)
Definition restingBody (cfg : Config) : Body :=
  bodyTick cfg
    {| bodyY := CANVAS_HEIGHT cfg - GROUND_HEIGHT cfg - PLAYER_SIZE cfg;
       bodyVelocityY := 0; bodyOnGround := false; bodyRotation := 0;
       bodyHeight := PLAYER_SIZE cfg |}.

(** The airborne ticks of a jump from rest: [n] ticks in a row leave the
    ground test silent and add [GRAVITY] to the speed. *)
Fixpoint airborneFor (cfg : Config) (n : nat) (b : Body) : bool :=
  match n with
  | O => true
  | S n' =>
      let b' := bodyTick cfg b in
      negb (bodyOnGround b') &&
      same (bodyVelocityY b') (bodyVelocityY b + GRAVITY cfg) &&
      airborneFor cfg n' b'
  end.

(** The body just after the jump from rest, and [n] ticks later. *)
Definition launchedBody (cfg : Config) : Body := bodyJump cfg (restingBody cfg).

Definition flightBody (cfg : Config) (n : nat) : Body :=
  Nat.iter n (bodyTick cfg) (launchedBody cfg).

(** Scenario A on a canvas of height [h]: rest, jump, [flight] airborne
    ticks, then a landing tick. *)
Definition jumpScenario (flight : nat) (h : Z) : bool :=
  let cfg := CONFIG 0 (JS.float_of_Z h) in
  bodyOnGround (restingBody cfg) &&
  same (bodyVelocityY (launchedBody cfg)) (JUMP_FORCE cfg) &&
  negb (bodyOnGround (launchedBody cfg)) &&
  airborneFor cfg flight (launchedBody cfg) &&
  bodyOnGround (flightBody cfg (S flight)) &&
  same (bodyRotation (flightBody cfg (S flight))) 0 &&
  same (bodyVelocityY (flightBody cfg (S flight))) 0 &&
  same (bodyY (flightBody cfg (S flight)) + bodyHeight (flightBody cfg (S flight)))
       (CANVAS_HEIGHT cfg - GROUND_HEIGHT cfg).

(** The player at rest after [reset()] and one [update()], then launched. *)
Definition restingPlayer (cfg : Config) (p : Player.t) : Player.t :=
  tick cfg (Player.reset cfg p).

Definition launchedPlayer (cfg : Config) (p : Player.t) : Player.t :=
  Player.jump cfg (restingPlayer cfg p).

(** The window heights Scenario A is checked on: every whole number of
    pixels from the least that keeps a jump under the ceiling, to 10000. *)
Definition leastHeight : Z := 274.
Definition heightCount : nat := Z.to_nat 9727.

(** The airborne player the velocity examples start from: just launched, on
    a 1280 x 720 canvas. *)
Definition exampleConfig : Config := CONFIG 1280 720.
Definition examplePlayer : Player.t :=
  launchedPlayer exampleConfig (Player.new exampleConfig).

(** The integers [lo], [lo + 1], ..., [lo + n - 1]. *)
Definition zrange (lo : Z) (n : nat) : list Z :=
  map (fun i => (lo + Z.of_nat i)%Z) (seq 0 n).

(** *** Spawning *)

(** The gap a spawn adds for the random draw [r]. *)
Definition spacing (r : float) : float := 300 + r * (500 - 300).

(** *** Runs of the trail *)
Inductive TrailOp := AddPoint (x y : float) | UpdateTrail.

Definition applyTrailOp (tr : Trail.t) (op : TrailOp) : Trail.t :=
  match op with
  | AddPoint x y => Trail.addPoint tr x y
  | UpdateTrail => Trail.update tr
  end.

Definition runTrail (ops : list TrailOp) : Trail.t :=
  fold_left applyTrailOp ops Trail.new.

(** *** Distance and speed along a run *)

(** What one Playing-state [update()] does to (distance, gameSpeed). *)
Definition advance (ds : float * float) : float * float :=
  let '(d, s) := ds in
  let d1 := d + s * 0.1 in
  (d1, Game.speedFor d1).

(** Distance and speed [k] Playing-state updates after a start. *)
Definition trajectory (k : nat) : float * float := Nat.iter k advance (0, 5).

(** The number of updates after which the distance first reaches 2500. *)
Definition capTick : nat := 3467.

(** Checks [n] steps from [ds]: distance in [0, 2500), speed under 10, and the
    next distance no smaller. *)
Fixpoint belowCap (n : nat) (ds : float * float) : bool :=
  match n with
  | O => true
  | S n' =>
      let ds' := advance ds in
      (0 <=? fst ds) && (fst ds <? 2500) && (snd ds <? 10) &&
      (fst ds <=? fst ds') &&
      belowCap n' ds'
  end.

(** The world's distance and speed lie on the trajectory, and its score is
    the floor of a tenth of its distance. *)
Definition onTrajectory (w : Game.World) : Prop :=
  exists k, (Game.distance (Game.game w), Game.gameSpeed (Game.game w)) = trajectory k.

Definition scoreFollows (w : Game.World) : Prop :=
  Game.score (Game.game w) = JS.Math_floor (Game.distance (Game.game w) / 10).

(** What a handler may do to distance, speed and score: leave them alone,
    or restart the run. *)
Definition carriesOn (w w' : Game.World) : Prop :=
  Game.distance (Game.game w') = Game.distance (Game.game w) /\
  Game.gameSpeed (Game.game w') = Game.gameSpeed (Game.game w) /\
  Game.score (Game.game w') = Game.score (Game.game w).

Definition restarts (w' : Game.World) : Prop :=
  Game.distance (Game.game w') = 0 /\
  Game.gameSpeed (Game.game w') = 5 /\
  Game.score (Game.game w') = 0.

(** What every reachable world satisfies. *)
Definition invariant (w : Game.World) : Prop := onTrajectory w /\ scoreFollows w.

(** The world every example run starts from: a 1280 x 720 window, nothing
    stored, every random draw 0.5, the game just started. *)
Definition exampleWorld : Game.World :=
  Game.startGame
    (Game.new 1280 720
       {| LocalStorage.highScore := None; LocalStorage.highDistance := None |}
       {| JS.draws := fun _ => 0.5; JS.cursor := 0 |}).

(** The world after one frame's [update()], if it did not throw. *)
Definition afterUpdate (w : Game.World) : Game.World :=
  match Game.update w with
  | Some w' => w'
  | None => w
  end.

(** *** The camera *)

(** The camera a finished run leaves behind: [addShake(20)] on a fresh one. *)
Definition shakenCamera : Camera.t := Camera.addShake Camera.new 20.

(** *** The player's own trail *)

(** What a caller can do to a player. *)
Inductive PlayerOp := DoReset | DoJump | DoUpdate.

Definition applyPlayerOp (cfg : Config) (p : Player.t) (op : PlayerOp) : Player.t :=
  match op with
  | DoReset => Player.reset cfg p
  | DoJump => Player.jump cfg p
  | DoUpdate => tick cfg p
  end.

Definition runPlayer (cfg : Config) (ops : list PlayerOp) : Player.t :=
  fold_left (applyPlayerOp cfg) ops (Player.new cfg).

Definition isUpdate (op : PlayerOp) : bool :=
  match op with DoUpdate => true | _ => false end.

Definition updatesIn (ops : list PlayerOp) : nat := List.length (filter isUpdate ops).

(** The life of a trail sample [k] trail updates after it was added. *)
Definition sampleLife (k : nat) : float := Nat.iter k (fun l => l - 0.05) 1.0.

(** The lives, oldest first, of [m] samples added one per update. *)
Definition agedLives (m : nat) : list float := map sampleLife (rev (seq 1 m)).

Definition lives (tr : Trail.t) : list float := map Trail.life (Trail.points tr).

(** The shape of a player's trail: capacity 20, and at most 19 samples, one
    per past update. *)
Definition agedTrail (tr : Trail.t) : Prop :=
  Trail.maxPoints tr = 20%nat /\ exists m, (m <= 19)%nat /\ lives tr = agedLives m.

(** A lone sample, as [addPoint] makes it. *)
Definition loneSample (x y : float) (capacity : nat) : Trail.t :=
  {| Trail.points := [{| Trail.x := x; Trail.y := y; Trail.life := 1.0 |}];
     Trail.maxPoints := capacity |}.

(** The window heights a resting player is checked on. *)
Definition restHeights : list Z := zrange 141 (Z.to_nat 9860).

Definition staysAtRest (h : Z) : bool :=
  let cfg := CONFIG 0 (JS.float_of_Z h) in
  let b := restingBody cfg in
  let b' := bodyTick cfg b in
  bodyOnGround b && bodyOnGround b' &&
  same (bodyY b') (bodyY b) && same (bodyVelocityY b') 0 &&
  same (bodyVelocityY b) 0 && same (bodyRotation b') 0 &&
  same (bodyY b) (CANVAS_HEIGHT cfg - GROUND_HEIGHT cfg - PLAYER_SIZE cfg).

(** *** The explosion of a game over *)

(** A particle of the explosion at [(px, py)], not yet updated. *)
Definition freshParticle (px py : float) (p : Particle.t) : Prop :=
  Particle.x p = px /\ Particle.y p = py /\ Particle.color p = "#ff3333"%string /\
  Particle.life p = 1.0 /\ Particle.decay p = 0.02.

(** The centre of the player's square, where the explosion starts. *)
Definition centreX (p : Player.t) : float := Player.x p + Player.width p / 2.
Definition centreY (p : Player.t) : float := Player.y p + Player.height p / 2.

(** *** The keyboard *)

(** The [keydown] listener read as one switch on the key code. *)
Definition keydownSwitch (code : string) (w : Game.World) : Game.World :=
  if String.eqb code "Space" then
    match Game.state (Game.game w) with
    | MENU | GAME_OVER => Game.startGame w
    | PLAYING =>
        if Game.isJumping w then w else Game.setJumping (Game.playerJump w) true
    | PAUSED => w
    end
  else if String.eqb code "KeyP" then
    match Game.state (Game.game w) with MENU => Game.startGame w | _ => w end
  else if String.eqb code "Escape" then
    match Game.state (Game.game w) with
    | PLAYING => Game.pauseGame w
    | PAUSED => Game.resumeGame w
    | _ => w
    end
  else if String.eqb code "KeyR" then
    match Game.state (Game.game w) with
    | GAME_OVER => Game.startGame w
    | PAUSED => Game.resumeGame w
    | _ => w
    end
  else if String.eqb code "KeyS" then
    match Game.state (Game.game w) with PAUSED => Game.startGame w | _ => w end
  else if String.eqb code "KeyM" then Game.showMenu w
  else w.

(** *** The screens as a state machine *)

(** The state a key press leads to. *)
Definition keyState (code : string) (s : GameState) : GameState :=
  if String.eqb code "Space" then
    match s with MENU | GAME_OVER => PLAYING | _ => s end
  else if String.eqb code "KeyP" then
    match s with MENU => PLAYING | _ => s end
  else if String.eqb code "Escape" then
    match s with PLAYING => PAUSED | PAUSED => PLAYING | _ => s end
  else if String.eqb code "KeyR" then
    match s with GAME_OVER | PAUSED => PLAYING | _ => s end
  else if String.eqb code "KeyS" then
    match s with PAUSED => PLAYING | _ => s end
  else if String.eqb code "KeyM" then MENU
  else s.

(** The state any event but an animation frame leads to. *)
Definition transition (s : GameState) (ev : Game.Event) : GameState :=
  match ev with
  | Game.KeyDown code => keyState code s
  | Game.PointerDown => match s with MENU | GAME_OVER => PLAYING | _ => s end
  | Game.ClickStart => PLAYING
  | Game.ClickPause => match s with PLAYING => PAUSED | _ => s end
  | Game.ClickResume => match s with PAUSED => PLAYING | _ => s end
  | Game.ClickMenu => MENU
  | _ => s
  end.

Definition isFrame (ev : Game.Event) : bool :=
  match ev with Game.AnimationFrame => true | _ => false end.

(** A run is under way: the game is being played or is paused. *)
Definition underWay (w : Game.World) : Prop :=
  Game.state (Game.game w) = PLAYING \/ Game.state (Game.game w) = PAUSED.

(** *** What holds of every reachable world, besides distance and score *)

(** The configuration keeps the script's constants; only the canvas size
    varies. *)
Definition scriptConfig (cfg : Config) : Prop :=
  cfg = CONFIG (CANVAS_WIDTH cfg) (CANVAS_HEIGHT cfg).

Definition steady (w : Game.World) : Prop :=
  let g := Game.game w in
  scriptConfig (Game.config w) /\
  ObstacleGenerator.obstacleTypes (Game.obstacleGenerator g) = ObstacleGenerator.catalog /\
  (Player.x (Game.player g) = 100 /\ Player.width (Game.player g) = 40 /\
   Player.height (Game.player g) = 40) /\
  agedTrail (Player.trail (Game.player g)) /\
  (underWay w -> Game.particles g = [] /\ Game.camera g = Camera.new) /\
  (Game.particles g = [] \/
   (List.length (Game.particles g) = 50%nat /\
    Forall (freshParticle (centreX (Game.player g)) (centreY (Game.player g)))
      (Game.particles g))) /\
  (Game.camera g = Camera.new \/ Game.camera g = shakenCamera).


(** The high score is [h] or has risen strictly above it. *)
Definition raisedFrom (h : float) (w : Game.World) : Prop :=
  Game.highScore (Game.game w) = h \/ Binary64.flt h (Game.highScore (Game.game w)).

(** *** Runs of whole frames *)

(** The world one animation frame later; a frame that throws leaves it as it
    is. *)
Definition afterFrame (w : Game.World) : Game.World :=
  match Game.gameLoop w with
  | Some w' => w'
  | None => w
  end.

Definition afterFrames (n : nat) (w : Game.World) : Game.World :=
  Nat.iter n afterFrame w.

(** A game just started in a window of the given size, nothing stored, every
    [Math.random()] returning [r]. *)
Definition startedWorld (innerWidth innerHeight r : float) : Game.World :=
  Game.startGame
    (Game.new innerWidth innerHeight
       {| LocalStorage.highScore := None; LocalStorage.highDistance := None |}
       {| JS.draws := fun _ => r; JS.cursor := 0 |}).

(** A run that reaches the speed cap: every draw 0.9 puts the obstacles in
    the sky, and after 3466 frames the next update takes the distance past
    2500. *)
Definition farWorld : Game.World := afterFrames 3466 (startedWorld 1280 720 0.9).

(** The second double below 2500, [2500 - 2^-40]. *)
Definition nearCap : float := 0x1.387fffffffffep+11.

(** The world is being played, its update returns, and the distance it
    leaves is at least 2500. *)
Definition pastCap (w : Game.World) : bool :=
  match Game.update w with
  | Some w' =>
      GameState_eqb (Game.state (Game.game w)) PLAYING &&
      (2500 <=? Game.distance (Game.game w'))
  | None => false
  end.

(** A run in which two obstacles end up less than 300 apart: an 855 x 600
    window, every draw 0, 40 frames played. *)
Definition gapWorld : Game.World := afterFrames 40 (startedWorld 855 600 0).

(** A generator whose last obstacle an update of speed 300 brings left of
    the right edge of a 1280-wide canvas. *)
Definition exampleGenerator : ObstacleGenerator.t :=
  {| ObstacleGenerator.obstacles :=
       [{| Obstacle.x := 1480; Obstacle.y := 580; Obstacle.width := 40;
           Obstacle.height := 40; Obstacle.type := "ball"; Obstacle.color := "#ff44ff";
           Obstacle.isAir := false |}];
     ObstacleGenerator.nextObstacleX := 1480;
     ObstacleGenerator.obstacleTypes := ObstacleGenerator.catalog |}.

(** The largest finite double. *)
Definition maxFloat : float := 0x1.fffffffffffffp+1023.

(** The double just below [1]. *)
Definition belowOne : float := 0x1.fffffffffffffp-1.

(** *** Particles *)
Definition particleTicks (n : nat) (p : Particle.t) : Particle.t :=
  Nat.iter n Particle.update p.

End Props.

(* ================================================================== *)
(** * Part II: rounding to nearest even, from the library's specification *)
(* ================================================================== *)

Module Binary64Facts.
Import Binary64.
Local Open Scope Z_scope.



Lemma iter_pos_inv {A : Type} (f : A -> A) (Q : Z -> A -> Prop) :
  (forall k x, 0 <= k -> Q k x -> Q (k + 1) (f x)) ->
  forall p k x, 0 <= k -> Q k x -> Q (k + Zpos p) (iter_pos f p x).
Proof.
  intros Hf. induction p as [p IH|p IH|]; intros k x Hk Hx; simpl.
  - replace (k + Zpos p~1) with (((k + 1) + Zpos p) + Zpos p) by lia.
    apply IH; [lia|]. apply IH; [lia|]. now apply Hf.
  - replace (k + Zpos p~0) with ((k + Zpos p) + Zpos p) by lia.
    apply IH; [lia|]. now apply IH.
  - now apply Hf.
Qed.

Lemma rep_shr_1 a B mrs : 0 < B -> rep a B mrs -> rep a (2 * B) (shr_1 mrs).
Proof.
  intros HB [Hm [sg [Hsg [Heq Hs]]]].
  destruct mrs as [m r s]; cbn [shr_m shr_r shr_s] in *.
  assert (Hor : forall sg', sg' = b2z r * B + sg -> orb r s = negb (sg' =? 0)).
  { intros sg' ->. subst s. destruct r; unfold b2z.
    - symmetry. apply negb_true_iff, Z.eqb_neq. lia.
    - rewrite Z.mul_0_l, Z.add_0_l. reflexivity. }
  destruct m as [|[p|p|]|p]; try lia; unfold rep; cbn [shr_1 shr_m shr_r shr_s]; (split; [lia|]);
    exists (b2z r * B + sg); (split; [destruct r; unfold b2z; lia|]);
    (split; [|now apply Hor]); unfold b2z in *; destruct r.
  all: try rewrite Pos2Z.inj_xI in Heq; try rewrite Pos2Z.inj_xO in Heq; lia.
Qed.

Lemma rep_shr a B mrs e n :
  0 < B -> 0 <= n -> rep a B mrs ->
  rep a (B * 2 ^ n) (fst (shr mrs e n)) /\ snd (shr mrs e n) = e + n.
Proof.
  intros HB Hn Hrep. destruct n as [|p|p]; simpl; try lia.
  - rewrite Z.mul_1_r. split; [assumption|lia].
  - split; [|reflexivity].
    assert (Hstep : forall k x, 0 <= k -> rep a (B * 2 ^ k) x -> rep a (B * 2 ^ (k + 1)) (shr_1 x)).
    { intros k x Hk Hx. rewrite Z.pow_add_r, Z.pow_1_r by lia.
      replace (B * (2 ^ k * 2)) with (2 * (B * 2 ^ k)) by lia.
      apply rep_shr_1; [|exact Hx]. pose proof (Z.pow_pos_nonneg 2 k). nia. }
    pose proof (iter_pos_inv shr_1 (fun k x => rep a (B * 2 ^ k) x) Hstep p 0 mrs (Z.le_refl 0)) as H.
    cbn beta in H. rewrite Z.pow_0_r, Z.mul_1_r, Z.add_0_l in H. apply H, Hrep.
Qed.

Lemma rep_div_mod a B mrs :
  0 < B -> rep a B mrs ->
  a / B = shr_m mrs /\
  exists sg, 0 <= sg < B /\ 2 * (a mod B) = b2z (shr_r mrs) * B + sg /\ shr_s mrs = negb (sg =? 0).
Proof.
  intros HB [Hm [sg [Hsg [Heq Hs]]]].
  assert (Hr : 0 <= b2z (shr_r mrs) <= 1) by (destruct (shr_r mrs); simpl; lia).
  assert (Hq : a / B = shr_m mrs).
  { symmetry. apply Z.div_unique with (r := a - B * shr_m mrs); [|lia]. left. nia. }
  split; [exact Hq|]. exists sg. split; [exact Hsg|]. split; [|exact Hs].
  rewrite Z.mod_eq by lia. rewrite Hq. lia.
Qed.

Lemma rne_of_rep a B mrs :
  0 < B -> rep a B mrs ->
  round_nearest_even (shr_m mrs) (loc_of_shr_record mrs) = rne a B.
Proof.
  intros HB Hrep. destruct (rep_div_mod a B mrs HB Hrep) as [Hq [sg [Hsg [Hm Hs]]]].
  unfold rne. rewrite Hq, Hm. destruct mrs as [m r s]; cbn [shr_m shr_r shr_s] in *.
  assert (Hsg0 : s = true -> sg <> 0).
  { intros ->. symmetry in Hs. now apply negb_true_iff, Z.eqb_neq in Hs. }
  assert (Hsg1 : s = false -> sg = 0).
  { intros ->. symmetry in Hs. now apply negb_false_iff, Z.eqb_eq in Hs. }
  clear Hs Hm Hq Hrep.
  destruct r, s; cbn [loc_of_shr_record round_nearest_even b2z];
    try specialize (Hsg0 eq_refl); try specialize (Hsg1 eq_refl);
    destruct (Z.ltb_spec (1 * B + sg) B); destruct (Z.ltb_spec B (1 * B + sg));
    destruct (Z.ltb_spec (0 * B + sg) B); destruct (Z.ltb_spec B (0 * B + sg));
    try lia; reflexivity.
Qed.

(* ---------- digits ---------- *)

Lemma fexp_fexp64 e : fexp prec emax e = fexp64 e.
Proof. reflexivity. Qed.

Lemma pow2_pos k : 0 <= k -> 0 < 2 ^ k.
Proof. intros. now apply Z.pow_pos_nonneg. Qed.

Lemma pow2_le j k : 0 <= j <= k -> 2 ^ j <= 2 ^ k.
Proof. intros. apply Z.pow_le_mono_r; lia. Qed.

Lemma pow2_lt j k : 0 <= j < k -> 2 ^ j < 2 ^ k.
Proof. intros. apply Z.pow_lt_mono_r; lia. Qed.

Lemma pow2_S k : 0 <= k -> 2 ^ (k + 1) = 2 * 2 ^ k.
Proof. intros. rewrite Z.pow_add_r, Z.pow_1_r by lia. lia. Qed.

Lemma digits2_pos_bounds p :
  2 ^ (Zpos (digits2_pos p) - 1) <= Zpos p < 2 ^ Zpos (digits2_pos p).
Proof.
  induction p as [p IH|p IH|]; cbn [digits2_pos].
  - rewrite Pos2Z.inj_succ, Pos2Z.inj_xI.
    replace (Z.succ (Zpos (digits2_pos p)) - 1) with ((Zpos (digits2_pos p) - 1) + 1) by lia.
    unfold Z.succ. rewrite !pow2_S by lia. lia.
  - rewrite Pos2Z.inj_succ, Pos2Z.inj_xO.
    replace (Z.succ (Zpos (digits2_pos p)) - 1) with ((Zpos (digits2_pos p) - 1) + 1) by lia.
    unfold Z.succ. rewrite !pow2_S by lia. lia.
  - cbn. lia.
Qed.

Lemma Zdigits2_bounds m :
  0 < m -> 0 < Zdigits2 m /\ 2 ^ (Zdigits2 m - 1) <= m < 2 ^ Zdigits2 m.
Proof.
  destruct m as [|p|p]; try lia. intros _. cbn [Zdigits2].
  split; [lia|apply digits2_pos_bounds].
Qed.

Lemma Zdigits2_nonneg m : 0 <= m -> 0 <= Zdigits2 m.
Proof. destruct m; cbn [Zdigits2]; lia. Qed.

Lemma Zdigits2_unique m d :
  0 < d -> 2 ^ (d - 1) <= m < 2 ^ d -> Zdigits2 m = d.
Proof.
  intros Hd Hm.
  assert (0 < m) by (pose proof (pow2_pos (d - 1)); lia).
  destruct (Zdigits2_bounds m H) as [Hd' Hb].
  destruct (Z.lt_trichotomy (Zdigits2 m) d) as [Hlt|[Heq|Hgt]]; [|assumption|].
  - pose proof (pow2_le (Zdigits2 m) (d - 1)). lia.
  - pose proof (pow2_le d (Zdigits2 m - 1)). lia.
Qed.

Lemma Zdigits2_lt_pow m k : 0 <= m < 2 ^ k -> 0 <= k -> Zdigits2 m <= k.
Proof.
  intros Hm Hk. destruct (Z.eq_dec m 0) as [->|Hz]; [cbn; lia|].
  destruct (Zdigits2_bounds m ltac:(lia)) as [Hd Hb].
  destruct (Z.le_gt_cases (Zdigits2 m) k); [assumption|].
  pose proof (pow2_le k (Zdigits2 m - 1)). lia.
Qed.

Lemma Zdigits2_mono m1 m2 : 0 <= m1 <= m2 -> Zdigits2 m1 <= Zdigits2 m2.
Proof.
  intros H. destruct (Z.eq_dec m2 0) as [->|Hz].
  - assert (m1 = 0) by lia. subst. lia.
  - destruct (Zdigits2_bounds m2 ltac:(lia)) as [Hd Hb].
    apply Zdigits2_lt_pow; lia.
Qed.

(* ---------- the result of rounding, as the code assembles it ---------- *)

Lemma rne_bounds a B : 0 < B -> 0 <= a -> a / B <= rne a B <= a / B + 1.
Proof.
  intros HB Ha. unfold rne.
  destruct (_ <? _); [lia|]. destruct (_ <? _); [lia|]. destruct (Z.even _); lia.
Qed.

Lemma shr_nonpos mrs e n : n <= 0 -> shr mrs e n = (mrs, e).
Proof. destruct n; try reflexivity. lia. Qed.

Lemma enc_carry s E :
  enc s (2 ^ 53) E =
  if E + 1 <=? 971 then S754_finite s 4503599627370496 (E + 1) else S754_infinity s.
Proof. reflexivity. Qed.

Lemma enc_no_carry s M E :
  M < 2 ^ 53 ->
  enc s M E =
  match M with
  | Z0 => S754_zero s
  | Zpos m => if E <=? 971 then S754_finite s m E else S754_infinity s
  | Zneg _ => S754_nan
  end.
Proof. intros H. unfold enc. destruct (Z.leb_spec (2 ^ 53) M); [lia|reflexivity]. Qed.

Theorem binary_round_aux_enc s m e l a b :
  0 < b -> rep a b (shr_record_of_loc m l) ->
  e <= fexp64 (Zdigits2 m + e) ->
  binary_round_aux prec emax s m e l =
  enc s (rne a (b * 2 ^ (fexp64 (Zdigits2 m + e) - e))) (fexp64 (Zdigits2 m + e)).
Proof.
  intros Hb Hrep HE. set (E := fexp64 (Zdigits2 m + e)) in *.
  assert (Hm0 : 0 <= m).
  { destruct Hrep as [H _]. destruct l as [|[]]; exact H. }
  assert (Hmq : a / b = m).
  { destruct (rep_div_mod _ _ _ Hb Hrep) as [H _]. rewrite H. destruct l as [|[]]; reflexivity. }
  unfold binary_round_aux, shr_fexp. change (fexp prec emax) with fexp64. fold E.
  destruct (rep_shr a b (shr_record_of_loc m l) e (E - e) Hb ltac:(lia) Hrep) as [Hrep' He'].
  destruct (shr (shr_record_of_loc m l) e (E - e)) as [mrs' e'] eqn:Hshr.
  cbn [fst snd] in Hrep', He'. subst e'. replace (e + (E - e)) with E by lia.
  assert (HB : 0 < b * 2 ^ (E - e)) by (pose proof (pow2_pos (E - e)); nia).
  rewrite (rne_of_rep _ _ _ HB Hrep').
  set (M := rne a (b * 2 ^ (E - e))).
  assert (Hq : a / (b * 2 ^ (E - e)) < 2 ^ 53).
  { rewrite <- Z.div_div by (pose proof (pow2_pos (E - e)); lia). rewrite Hmq.
    apply Z.div_lt_upper_bound; [apply pow2_pos; lia|].
    destruct (Z.eq_dec m 0) as [->|Hz].
    - pose proof (pow2_pos (E - e)). lia.
    - destruct (Zdigits2_bounds m ltac:(lia)) as [Hd Hbd].
      assert (Zdigits2 m <= (E - e) + 53) by (unfold E, fexp64; lia).
      rewrite <- Z.pow_add_r by lia. pose proof (pow2_le (Zdigits2 m) (E - e + 53)). lia. }
  assert (Ha : 0 <= a).
  { destruct (Z.le_gt_cases 0 a); [assumption|].
    assert (a / b < 0) by (apply Z.div_lt_upper_bound; lia). lia. }
  pose proof (rne_bounds a _ HB Ha) as HM. fold M in HM.
  assert (HM0 : 0 <= M).
  { assert (0 <= a / (b * 2 ^ (E - e))) by (apply Z.div_pos; lia). lia. }
  assert (HEmin : -1074 <= E) by (unfold E, fexp64; lia).
  destruct (Z.le_gt_cases (2 ^ 53) M) as [Hc|Hc].
  - assert (HMeq : M = 2 ^ 53) by lia. rewrite HMeq, enc_carry.
    replace (fexp64 (Zdigits2 (2 ^ 53) + E) - E) with 1
      by (change (Zdigits2 (2 ^ 53)) with 54; unfold fexp64; lia).
    reflexivity.
  - assert (Hd : Zdigits2 M <= 53) by (apply Zdigits2_lt_pow; lia).
    rewrite shr_nonpos by (unfold fexp64; lia).
    rewrite enc_no_carry by assumption.
    cbn [shr_m shr_record_of_loc]. reflexivity.
Qed.

(* ---------- rounding a rational given in units of 2^wexp ---------- *)

Lemma rne_scale a B k : 0 < B -> 0 < k -> rne (a * k) (B * k) = rne a B.
Proof.
  intros HB Hk. unfold rne.
  rewrite Z.div_mul_cancel_r by lia. rewrite Z.mul_mod_distr_r by lia.
  assert (H1 : (2 * (a mod B * k) <? B * k) = (2 * (a mod B) <? B)).
  { destruct (Z.ltb_spec (2 * (a mod B)) B), (Z.ltb_spec (2 * (a mod B * k)) (B * k)); try nia; reflexivity. }
  assert (H2 : (B * k <? 2 * (a mod B * k)) = (B <? 2 * (a mod B))).
  { destruct (Z.ltb_spec B (2 * (a mod B))), (Z.ltb_spec (B * k) (2 * (a mod B * k))); try nia; reflexivity. }
  rewrite H1, H2. reflexivity.
Qed.

Lemma div_scale_bounds a b m k :
  0 < b -> 0 < k -> a / b = m -> m * k <= a * k / b < (m + 1) * k.
Proof.
  intros Hb Hk Hm.
  assert (b * m <= a < b * (m + 1)).
  { subst m. pose proof (Z.mul_div_le a b Hb). pose proof (Z.mul_succ_div_gt a b Hb). lia. }
  split.
  - apply Z.div_le_lower_bound; [lia|]. nia.
  - apply Z.div_lt_upper_bound; [lia|]. nia.
Qed.

Lemma rexp_scale a b m e :
  0 < b -> 0 <= m -> a / b = m -> wexp <= e -> e <= fexp64 (Zdigits2 m + e) ->
  rexp (a * 2 ^ (e - wexp)) b = fexp64 (Zdigits2 m + e).
Proof.
  intros Hb Hm Hq Hw HE. unfold rexp.
  pose proof (pow2_pos (e - wexp) ltac:(lia)) as Hk.
  pose proof (div_scale_bounds a b m _ Hb Hk Hq) as Hbd.
  destruct (Z.eq_dec m 0) as [Hz|Hz].
  - subst m. rewrite Hz in *. cbn [Zdigits2] in *.
    assert (Zdigits2 (a * 2 ^ (e - wexp) / b) <= e - wexp) by (apply Zdigits2_lt_pow; lia).
    pose proof (Zdigits2_nonneg (a * 2 ^ (e - wexp) / b) ltac:(lia)).
    unfold fexp64 in *. lia.
  - destruct (Zdigits2_bounds m ltac:(lia)) as [Hd Hb2].
    rewrite (Zdigits2_unique _ (Zdigits2 m + (e - wexp))).
    + f_equal. lia.
    + lia.
    + replace (Zdigits2 m + (e - wexp) - 1) with ((Zdigits2 m - 1) + (e - wexp)) by lia.
      rewrite !Z.pow_add_r by lia. nia.
Qed.

Theorem binary_round_aux_RndS s m e l a b :
  0 < b -> rep a b (shr_record_of_loc m l) ->
  e <= fexp64 (Zdigits2 m + e) -> wexp <= e ->
  binary_round_aux prec emax s m e l = RndS s (a * 2 ^ (e - wexp)) b.
Proof.
  intros Hb Hrep HE Hw.
  rewrite (binary_round_aux_enc s m e l a b Hb Hrep HE).
  assert (Hm0 : 0 <= m).
  { destruct Hrep as [H _]. destruct l as [|[]]; exact H. }
  assert (Hmq : a / b = m).
  { destruct (rep_div_mod _ _ _ Hb Hrep) as [H _]. rewrite H. destruct l as [|[]]; reflexivity. }
  unfold RndS. rewrite (rexp_scale a b m e Hb Hm0 Hmq Hw HE).
  set (E := fexp64 (Zdigits2 m + e)) in *.
  replace (E - wexp) with ((E - e) + (e - wexp)) by lia.
  rewrite Z.pow_add_r by lia.
  replace (b * (2 ^ (E - e) * 2 ^ (e - wexp))) with ((b * 2 ^ (E - e)) * 2 ^ (e - wexp)) by lia.
  rewrite rne_scale; [reflexivity| |apply pow2_pos; lia].
  pose proof (pow2_pos (E - e)). nia.
Qed.

(** What [rne] yields inside [RndS]: at most 53 bits (54 only on a carry to
    [2^53]), and a full 53 bits above the subnormal range. *)
Lemma RndS_mantissa A b :
  0 < b -> 0 <= A ->
  let E := rexp A b in
  let M := rne A (b * 2 ^ (E - wexp)) in
  -1074 <= E /\ 0 <= M <= 2 ^ 53 /\ (-1074 < E -> 2 ^ 52 <= M).
Proof.
  intros Hb HA E M.
  assert (Hw : wexp = -2200) by reflexivity.
  assert (HE : -1074 <= E) by (unfold E, rexp, fexp64; lia).
  pose proof (pow2_pos (E - wexp) ltac:(lia)) as Hk.
  assert (HB : 0 < b * 2 ^ (E - wexp)) by nia.
  pose proof (rne_bounds A _ HB HA) as HM. fold M in HM.
  assert (HP : 0 <= A / b) by (apply Z.div_pos; lia).
  assert (Hq : A / (b * 2 ^ (E - wexp)) = (A / b) / 2 ^ (E - wexp)) by (rewrite Z.div_div; lia).
  rewrite Hq in HM.
  split; [exact HE|].
  assert (Hup : A / b / 2 ^ (E - wexp) < 2 ^ 53).
  { apply Z.div_lt_upper_bound; [lia|].
    destruct (Z.eq_dec (A / b) 0) as [Hz|Hz]; [rewrite Hz; nia|].
    destruct (Zdigits2_bounds (A / b) ltac:(lia)) as [Hd Hbd].
    assert (Zdigits2 (A / b) <= (E - wexp) + 53) by (unfold E, rexp, fexp64; lia).
    rewrite <- Z.pow_add_r by lia. pose proof (pow2_le (Zdigits2 (A / b)) (E - wexp + 53)). lia. }
  assert (Hlo : 0 <= A / b / 2 ^ (E - wexp)) by (apply Z.div_pos; lia).
  split; [lia|]. intros HEgt.
  assert (Hd53 : Zdigits2 (A / b) = E - wexp + 53).
  { unfold E, rexp, fexp64 in HEgt |- *. lia. }
  assert (Hnz : 0 < A / b).
  { destruct (Z.eq_dec (A / b) 0) as [Hz|Hz]; [|lia]. rewrite Hz in Hd53. cbn [Zdigits2] in Hd53. lia. }
  destruct (Zdigits2_bounds (A / b) Hnz) as [Hd Hbd].
  assert (2 ^ 52 <= A / b / 2 ^ (E - wexp)); [|lia].
  apply Z.div_le_lower_bound; [lia|].
  rewrite Hd53 in Hbd. replace (E - wexp + 53 - 1) with ((E - wexp) + 52) in Hbd by lia.
  rewrite Z.pow_add_r in Hbd by lia. lia.
Qed.

(* ---------- order: floats as integers (units of 2^-1074) ---------- *)

Lemma kmax_lt_kinf : kmax < kinf.
Proof. apply pow2_lt. lia. Qed.

Lemma kmax_pos : 0 < kmax.
Proof. apply pow2_pos. lia. Qed.

Lemma clamp_mono u v : u <= v -> clamp u <= clamp v.
Proof.
  intros H. pose proof kmax_lt_kinf. unfold clamp.
  destruct (Z.ltb_spec u kmax), (Z.ltb_spec v kmax); lia.
Qed.

Lemma clamp_nonneg v : 0 <= v -> 0 <= clamp v.
Proof. intros H. pose proof kmax_lt_kinf. pose proof kmax_pos. unfold clamp. destruct (Z.ltb_spec v kmax); lia. Qed.

Lemma mul_pow2_lt M j E : 0 <= M < 2 ^ j -> 0 <= j -> 0 <= E -> M * 2 ^ E < 2 ^ (j + E).
Proof. intros HM Hj HE. rewrite Z.pow_add_r by lia. pose proof (pow2_pos E HE). nia. Qed.

Lemma mul_pow2_le M j E : 2 ^ j <= M -> 0 <= j -> 0 <= E -> 2 ^ (j + E) <= M * 2 ^ E.
Proof. intros HM Hj HE. rewrite Z.pow_add_r by lia. pose proof (pow2_pos E HE). nia. Qed.

Lemma key_enc s M E :
  -1074 <= E -> 0 <= M <= 2 ^ 53 -> (-1074 < E -> 2 ^ 52 <= M) ->
  is_nan_sf (enc s M E) = false /\
  key (enc s M E) = cond_Zopp s (clamp (M * 2 ^ (E + 1074))).
Proof.
  intros HE HM Hn. unfold clamp, kmax.
  destruct (Z.eq_dec M (2 ^ 53)) as [->|Hne].
  - rewrite enc_carry. destruct (Z.leb_spec (E + 1) 971).
    + split; [reflexivity|]. cbn [key]. f_equal.
      pose proof (mul_pow2_lt (2 ^ 53) 54 (E + 1074) ltac:(lia) ltac:(lia) ltac:(lia)).
      pose proof (pow2_le (54 + (E + 1074)) 2098 ltac:(lia)).
      destruct (Z.ltb_spec (2 ^ 53 * 2 ^ (E + 1074)) (2 ^ 2098)).
      * change 4503599627370496 with (2 ^ 52). rewrite <- !Z.pow_add_r by lia. f_equal. lia.
      * rewrite <- Z.pow_add_r in * by lia.
        pose proof (pow2_lt (53 + (E + 1074)) 2098 ltac:(lia)). lia.
    + split; [reflexivity|]. cbn [key]. f_equal.
      pose proof (mul_pow2_le (2 ^ 53) 53 (E + 1074) ltac:(lia) ltac:(lia) ltac:(lia)).
      pose proof (pow2_le 2098 (53 + (E + 1074)) ltac:(lia)).
      destruct (Z.ltb_spec (2 ^ 53 * 2 ^ (E + 1074)) (2 ^ 2098)); [lia|reflexivity].
  - rewrite enc_no_carry by lia. destruct M as [|m|m]; [| |lia].
    + split; [reflexivity|]. destruct s; reflexivity.
    + destruct (Z.leb_spec E 971).
      * split; [reflexivity|]. cbn [key]. f_equal.
        pose proof (mul_pow2_lt (Zpos m) 53 (E + 1074) ltac:(lia) ltac:(lia) ltac:(lia)).
        pose proof (pow2_le (53 + (E + 1074)) 2098 ltac:(lia)).
        destruct (Z.ltb_spec (Zpos m * 2 ^ (E + 1074)) (2 ^ 2098)); [reflexivity|lia].
      * split; [reflexivity|]. cbn [key]. f_equal.
        pose proof (mul_pow2_le (Zpos m) 52 (E + 1074) ltac:(lia) ltac:(lia) ltac:(lia)).
        pose proof (pow2_le 2098 (52 + (E + 1074)) ltac:(lia)).
        destruct (Z.ltb_spec (Zpos m * 2 ^ (E + 1074)) (2 ^ 2098)); [lia|reflexivity].
Qed.

Lemma key_RndS s A b :
  0 < b -> 0 <= A ->
  is_nan_sf (RndS s A b) = false /\ key (RndS s A b) = cond_Zopp s (clamp (rval A b)).
Proof.
  intros Hb HA. destruct (RndS_mantissa A b Hb HA) as [HE [HM Hn]].
  unfold RndS, rval. now apply key_enc.
Qed.

Lemma rne_mono a1 a2 B : 0 < B -> 0 <= a1 <= a2 -> rne a1 B <= rne a2 B.
Proof.
  intros HB Ha.
  assert (Hq : a1 / B <= a2 / B) by (apply Z.div_le_mono; lia).
  destruct (Z.eq_dec (a1 / B) (a2 / B)) as [Heq|Hne].
  - unfold rne. rewrite !Z.mod_eq by lia. rewrite <- Heq.
    destruct (Z.ltb_spec (2 * (a1 - B * (a1 / B))) B), (Z.ltb_spec (2 * (a2 - B * (a1 / B))) B),
      (Z.ltb_spec B (2 * (a1 - B * (a1 / B)))), (Z.ltb_spec B (2 * (a2 - B * (a1 / B))));
      destruct (Z.even (a1 / B)); lia.
  - pose proof (rne_bounds a1 B HB ltac:(lia)). pose proof (rne_bounds a2 B HB ltac:(lia)). lia.
Qed.

Lemma rexp_mono A1 A2 b : 0 < b -> 0 <= A1 <= A2 -> rexp A1 b <= rexp A2 b.
Proof.
  intros Hb HA. unfold rexp, fexp64.
  assert (Zdigits2 (A1 / b) <= Zdigits2 (A2 / b)); [|lia].
  apply Zdigits2_mono. split; [apply Z.div_pos; lia|apply Z.div_le_mono; lia].
Qed.

Theorem rval_mono A1 A2 b : 0 < b -> 0 <= A1 <= A2 -> rval A1 b <= rval A2 b.
Proof.
  intros Hb HA. pose proof (rexp_mono A1 A2 b Hb HA) as HE.
  destruct (RndS_mantissa A1 b Hb ltac:(lia)) as [HE1 [HM1 _]].
  destruct (RndS_mantissa A2 b Hb ltac:(lia)) as [HE2 [HM2 Hn2]].
  assert (Hw : wexp = -2200) by reflexivity.
  unfold rval. destruct (Z.eq_dec (rexp A1 b) (rexp A2 b)) as [Heq|Hne].
  - rewrite Heq. apply Z.mul_le_mono_nonneg_r; [pose proof (pow2_pos (rexp A2 b + 1074)); lia|].
    apply rne_mono; [|lia]. pose proof (pow2_pos (rexp A2 b - wexp)). nia.
  - specialize (Hn2 ltac:(lia)).
    pose proof (mul_pow2_le _ 52 (rexp A2 b + 1074) Hn2 ltac:(lia) ltac:(lia)).
    pose proof (pow2_le (53 + (rexp A1 b + 1074)) (52 + (rexp A2 b + 1074)) ltac:(lia)).
    assert (rne A1 (b * 2 ^ (rexp A1 b - wexp)) * 2 ^ (rexp A1 b + 1074) <= 2 ^ (53 + (rexp A1 b + 1074))); [|lia].
    rewrite (Z.pow_add_r 2 53 (rexp A1 b + 1074)) by lia. apply Z.mul_le_mono_nonneg_r; [|lia].
    pose proof (pow2_pos (rexp A1 b + 1074)). lia.
Qed.

Lemma rval_nonneg A b : 0 < b -> 0 <= A -> 0 <= rval A b.
Proof.
  intros Hb HA. destruct (RndS_mantissa A b Hb HA) as [HE [HM _]].
  unfold rval. pose proof (pow2_pos (rexp A b + 1074)). nia.
Qed.

(* ---------- valid floats ---------- *)
Lemma valid_finite s m e :
  valid_binary (S754_finite s m e) = true ->
  fexp64 (Zpos (digits2_pos m) + e) = e /\ e <= 971.
Proof.
  cbn [SpecFloat.valid_binary]. unfold bounded, canonical_mantissa.
  change (fexp prec emax) with fexp64. change (emax - prec) with 971.
  intros H. apply andb_true_iff in H. destruct H as [H1 H2].
  apply Z.eqb_eq in H1. apply Z.leb_le in H2. now split.
Qed.

Lemma valid_finite_bounds s m e :
  valid_binary (S754_finite s m e) = true ->
  -1074 <= e <= 971 /\ Zpos m < 2 ^ 53 /\ (-1074 < e -> 2 ^ 52 <= Zpos m).
Proof.
  intros H. destruct (valid_finite s m e H) as [Hc He].
  pose proof (digits2_pos_bounds m) as Hd.
  assert (Hdm : Zpos (digits2_pos m) <= 53) by (unfold fexp64 in Hc; lia).
  split; [unfold fexp64 in Hc; lia|]. split.
  - pose proof (pow2_le (Zpos (digits2_pos m)) 53 ltac:(lia)). lia.
  - intros Hn. assert (Zpos (digits2_pos m) = 53) by (unfold fexp64 in Hc; lia).
    rewrite H0 in Hd. exact (proj1 Hd).
Qed.

Lemma finite_key_bounds s m e :
  valid_binary (S754_finite s m e) = true ->
  0 < Zpos m * 2 ^ (e + 1074) < kmax.
Proof.
  intros H. destruct (valid_finite_bounds s m e H) as [He [Hm _]].
  pose proof (pow2_pos (e + 1074) ltac:(lia)).
  pose proof (mul_pow2_lt (Zpos m) 53 (e + 1074) ltac:(lia) ltac:(lia) ltac:(lia)).
  pose proof (pow2_le (53 + (e + 1074)) 2098 ltac:(lia)).
  unfold kmax. split; [nia|lia].
Qed.

Lemma finite_lex_lt s1 m1 e1 s2 m2 e2 :
  valid_binary (S754_finite s1 m1 e1) = true ->
  valid_binary (S754_finite s2 m2 e2) = true ->
  e1 < e2 -> Zpos m1 * 2 ^ (e1 + 1074) < Zpos m2 * 2 ^ (e2 + 1074).
Proof.
  intros H1 H2 He.
  destruct (valid_finite_bounds _ _ _ H1) as [He1 [Hm1 _]].
  destruct (valid_finite_bounds _ _ _ H2) as [He2 [_ Hn2]].
  specialize (Hn2 ltac:(lia)).
  pose proof (mul_pow2_lt (Zpos m1) 53 (e1 + 1074) ltac:(lia) ltac:(lia) ltac:(lia)).
  pose proof (mul_pow2_le (Zpos m2) 52 (e2 + 1074) Hn2 ltac:(lia) ltac:(lia)).
  pose proof (pow2_le (53 + (e1 + 1074)) (52 + (e2 + 1074)) ltac:(lia)). lia.
Qed.

Lemma finite_compare s1 m1 e1 s2 m2 e2 :
  valid_binary (S754_finite s1 m1 e1) = true ->
  valid_binary (S754_finite s2 m2 e2) = true ->
  match e1 ?= e2 with
  | Lt => Lt
  | Gt => Gt
  | Eq => Pos.compare_cont Eq m1 m2
  end = (Zpos m1 * 2 ^ (e1 + 1074) ?= Zpos m2 * 2 ^ (e2 + 1074)).
Proof.
  intros H1 H2. destruct (Z.compare_spec e1 e2) as [Heq|Hlt|Hgt].
  - subst e2. destruct (valid_finite_bounds _ _ _ H1) as [He1 _].
    pose proof (pow2_pos (e1 + 1074) ltac:(lia)).
    change (Pos.compare_cont Eq m1 m2) with (Zpos m1 ?= Zpos m2).
    symmetry. destruct (Z.compare_spec (Zpos m1) (Zpos m2)).
    + rewrite H0. apply Z.compare_refl.
    + apply Z.compare_lt_iff. nia.
    + apply Z.compare_gt_iff. nia.
  - symmetry. apply Z.compare_lt_iff. eapply finite_lex_lt; eassumption.
  - symmetry. apply Z.compare_gt_iff. eapply finite_lex_lt; eassumption.
Qed.

Ltac compare_by_sign :=
  repeat match goal with
         | s : bool |- _ => destruct s
         end;
  cbn [cond_Zopp]; symmetry;
  first [ apply Z.compare_eq_iff; lia
        | apply Z.compare_lt_iff; lia
        | apply Z.compare_gt_iff; lia ].

Theorem SFcompare_key x y :
  valid_binary x = true -> valid_binary y = true ->
  is_nan_sf x = false -> is_nan_sf y = false ->
  SFcompare x y = Some (key x ?= key y).
Proof.
  intros Hx Hy Nx Ny. pose proof kmax_lt_kinf as Hk. pose proof kmax_pos as Hk0.
  destruct x as [sx|sx| |sx mx ex], y as [sy|sy| |sy my ey]; try discriminate;
    try pose proof (finite_key_bounds _ _ _ Hx) as Bx;
    try pose proof (finite_key_bounds _ _ _ Hy) as By;
    cbn [SFcompare key]; f_equal.
  all: try (clear Hx Hy Nx Ny; compare_by_sign; fail).
  pose proof (finite_compare _ _ _ _ _ _ Hx Hy) as Hc.
  destruct sx, sy; cbn [cond_Zopp].
  - rewrite Z.compare_opp.
    rewrite (Z.compare_antisym (Z.pos mx * 2 ^ (ex + 1074))), <- Hc.
    destruct (ex ?= ey); [|reflexivity|reflexivity].
    now destruct (Pos.compare_cont Eq mx my).
  - symmetry. apply Z.compare_lt_iff. lia.
  - symmetry. apply Z.compare_gt_iff. lia.
  - exact Hc.
Qed.

Lemma SFleb_key x y :
  valid_binary x = true -> valid_binary y = true ->
  is_nan_sf x = false -> is_nan_sf y = false ->
  SFleb x y = (key x <=? key y).
Proof.
  intros Hx Hy Nx Ny. unfold SFleb. rewrite (SFcompare_key x y Hx Hy Nx Ny).
  unfold Z.leb. now destruct (key x ?= key y).
Qed.

Lemma SFltb_key x y :
  valid_binary x = true -> valid_binary y = true ->
  is_nan_sf x = false -> is_nan_sf y = false ->
  SFltb x y = (key x <? key y).
Proof.
  intros Hx Hy Nx Ny. unfold SFltb. rewrite (SFcompare_key x y Hx Hy Nx Ny).
  unfold Z.ltb. now destruct (key x ?= key y).
Qed.

Lemma SFcompare_nan_l x y : is_nan_sf x = true -> SFcompare x y = None.
Proof. destruct x; try discriminate. reflexivity. Qed.

Lemma SFcompare_nan_r x y : is_nan_sf y = true -> SFcompare x y = None.
Proof. destruct y; try discriminate. now destruct x. Qed.

(** Rounding a representable value gives it back. *)
Lemma RndS_exact s m e :
  valid_binary (S754_finite s m e) = true ->
  RndS s (Zpos m * 2 ^ (e - wexp)) 1 = S754_finite s m e.
Proof.
  intros H. destruct (valid_finite s m e H) as [Hc He].
  destruct (valid_finite_bounds s m e H) as [Heb [Hm _]].
  assert (Hw : wexp = -2200) by reflexivity.
  pose proof (pow2_pos (e - wexp) ltac:(lia)) as Hk.
  pose proof (digits2_pos_bounds m) as Hd.
  assert (HE : rexp (Zpos m * 2 ^ (e - wexp)) 1 = e).
  { unfold rexp. rewrite Z.div_1_r.
    rewrite (Zdigits2_unique _ (Zpos (digits2_pos m) + (e - wexp))).
    - rewrite <- Hc at 2. f_equal. lia.
    - lia.
    - replace (Zpos (digits2_pos m) + (e - wexp) - 1) with ((Zpos (digits2_pos m) - 1) + (e - wexp)) by lia.
      rewrite !Z.pow_add_r by lia. nia. }
  unfold RndS. rewrite HE, Z.mul_1_l.
  assert (Hr : rne (Zpos m * 2 ^ (e - wexp)) (2 ^ (e - wexp)) = Zpos m).
  { unfold rne. rewrite Z.div_mul, Z.mod_mul by lia.
    destruct (Z.ltb_spec (2 * 0) (2 ^ (e - wexp))); [reflexivity|lia]. }
  rewrite Hr, enc_no_carry by assumption.
  destruct (Z.leb_spec e 971); [reflexivity|lia].
Qed.

(* ---------- addition ---------- *)

Lemma key_RZ N : is_nan_sf (RZ N) = false /\ key (RZ N) = rkey N.
Proof.
  destruct N as [|p|p]; cbn [RZ rkey].
  - now split.
  - apply (key_RndS false); lia.
  - apply (key_RndS true); lia.
Qed.

Lemma rkey_mono N1 N2 : N1 <= N2 -> rkey N1 <= rkey N2.
Proof.
  intros H.
  assert (Hp : forall p, 0 <= clamp (rval (Zpos p * 2 ^ 1126) 1)).
  { intros p. apply clamp_nonneg, rval_nonneg; lia. }
  assert (Hm : forall p q, (p <= q)%positive ->
             clamp (rval (Zpos p * 2 ^ 1126) 1) <= clamp (rval (Zpos q * 2 ^ 1126) 1)).
  { intros p q Hpq. apply clamp_mono, rval_mono; [lia|]. split; [lia|].
    apply Z.mul_le_mono_nonneg_r; lia. }
  destruct N1 as [|p|p], N2 as [|q|q]; cbn [rkey]; try lia.
  - apply Hp.
  - apply Hm. lia.
  - pose proof (Hp p). lia.
  - pose proof (Hp p). pose proof (Hp q). lia.
  - pose proof (Hm q p ltac:(lia)). lia.
Qed.

Lemma pos_iter_xO m d : Zpos (Pos.iter xO m d) = Zpos m * 2 ^ Zpos d.
Proof.
  induction d as [|d IH] using Pos.peano_ind.
  - cbn [Pos.iter]. rewrite Pos2Z.inj_xO. change (2 ^ 1) with 2. lia.
  - rewrite Pos.iter_succ, Pos2Z.inj_xO, IH, Pos2Z.inj_succ.
    unfold Z.succ. rewrite pow2_S by lia. lia.
Qed.

Lemma shl_align_eq mx ex ex' :
  (ex' < ex -> shl_align mx ex ex' = (Z.to_pos (Zpos mx * 2 ^ (ex - ex')), ex')) /\
  (ex <= ex' -> shl_align mx ex ex' = (mx, ex)).
Proof.
  unfold shl_align. split; intros H.
  - destruct (ex' - ex) as [|d|d] eqn:Hd; try lia.
    f_equal. replace (ex - ex') with (Zpos d) by lia.
    rewrite <- pos_iter_xO. now rewrite Pos2Z.id.
  - destruct (ex' - ex) as [|d|d] eqn:Hd; try lia; reflexivity.
Qed.

Lemma rep_exact m : 0 <= m -> rep m 1 (shr_record_of_loc m loc_Exact).
Proof.
  intros H. split; [exact H|]. exists 0. cbn [shr_record_of_loc shr_m shr_r shr_s b2z].
  split; [lia|]. split; [lia|reflexivity].
Qed.

Lemma binary_round_RndS s m e :
  wexp <= e ->
  binary_round prec emax s m e = RndS s (Zpos m * 2 ^ (e - wexp)) 1.
Proof.
  intros Hw. assert (Hwv : wexp = -2200) by reflexivity.
  unfold binary_round. change (fexp prec emax) with fexp64.
  set (f := fexp64 (Zpos (digits2_pos m) + e)).
  assert (Hf : -1074 <= f) by (unfold f, fexp64; lia).
  pose proof (digits2_pos_bounds m) as Hd.
  destruct (shl_align_eq m e f) as [H1 H2].
  destruct (Z.lt_ge_cases f e) as [Hlt|Hge].
  - rewrite (H1 Hlt). pose proof (pow2_pos (e - f) ltac:(lia)) as Hk.
    assert (Hpos : 0 < Zpos m * 2 ^ (e - f)) by nia.
    rewrite Z2Pos.id by exact Hpos.
    assert (Hdig : Zdigits2 (Zpos m * 2 ^ (e - f)) = Zpos (digits2_pos m) + (e - f)).
    { apply Zdigits2_unique; [lia|].
      replace (Zpos (digits2_pos m) + (e - f) - 1) with ((Zpos (digits2_pos m) - 1) + (e - f)) by lia.
      rewrite !Z.pow_add_r by lia. nia. }
    rewrite (binary_round_aux_RndS s _ f loc_Exact (Zpos m * 2 ^ (e - f)) 1);
      [|lia|apply rep_exact; lia| |lia].
    + f_equal. rewrite <- Z.mul_assoc, <- Z.pow_add_r by lia. f_equal. f_equal. lia.
    + rewrite Hdig. replace (Zpos (digits2_pos m) + (e - f) + f) with (Zpos (digits2_pos m) + e) by lia.
      fold f. lia.
  - rewrite (H2 Hge).
    apply (binary_round_aux_RndS s (Zpos m) e loc_Exact (Zpos m) 1); [lia|apply rep_exact; lia| |exact Hw].
    cbn [Zdigits2]. fold f. exact Hge.
Qed.

Lemma RZ_pos N : 0 < N -> RZ N = RndS false (N * 2 ^ 1126) 1.
Proof. destruct N; try lia. reflexivity. Qed.

Lemma RZ_neg N : N < 0 -> RZ N = RndS true (- N * 2 ^ 1126) 1.
Proof. destruct N; try lia. reflexivity. Qed.

Lemma binary_normalize_RZ N e :
  -1074 <= e ->
  binary_normalize prec emax N e false = RZ (N * 2 ^ (e + 1074)).
Proof.
  intros He. assert (Hwv : wexp = -2200) by reflexivity.
  pose proof (pow2_pos (e + 1074) ltac:(lia)) as Hk.
  destruct N as [|p|p]; cbn [binary_normalize].
  - reflexivity.
  - rewrite binary_round_RndS by lia. rewrite RZ_pos by nia.
    f_equal. rewrite <- Z.mul_assoc, <- Z.pow_add_r by lia. f_equal. f_equal. lia.
  - rewrite binary_round_RndS by lia. rewrite RZ_neg by nia.
    f_equal. replace (- (Zneg p * 2 ^ (e + 1074))) with (Zpos p * 2 ^ (e + 1074)) by lia.
    rewrite <- Z.mul_assoc, <- Z.pow_add_r by lia. f_equal. f_equal. lia.
Qed.

Lemma shl_align_fst_min mx ex ez :
  -1074 <= ez <= ex ->
  Zpos (fst (shl_align mx ex ez)) * 2 ^ (ez + 1074) = Zpos mx * 2 ^ (ex + 1074).
Proof.
  intros H. destruct (shl_align_eq mx ex ez) as [H1 H2].
  destruct (Z.lt_ge_cases ez ex) as [Hlt|Hge].
  - rewrite (H1 Hlt). cbn [fst]. pose proof (pow2_pos (ex - ez) ltac:(lia)).
    rewrite Z2Pos.id by nia. rewrite <- Z.mul_assoc, <- Z.pow_add_r by lia. f_equal. f_equal. lia.
  - rewrite (H2 Hge). cbn [fst]. f_equal. f_equal. lia.
Qed.

Lemma RZ_key_exact x :
  valid_binary x = true -> is_fin_sf x = true -> key (RZ (key x)) = key x.
Proof.
  intros Hx Fx. destruct x as [sx|sx| |sx mx ex]; try discriminate; [reflexivity|].
  destruct (valid_finite_bounds _ _ _ Hx) as [He _].
  pose proof (RndS_exact sx mx ex Hx) as Hex.
  pose proof (pow2_pos (ex + 1074) ltac:(lia)) as Hk.
  assert (Hrz : RZ (key (S754_finite sx mx ex)) = S754_finite sx mx ex); [|now rewrite Hrz].
  rewrite <- Hex at 2. cbn [key].
  destruct sx; cbn [cond_Zopp].
  - rewrite RZ_neg by nia. f_equal.
    replace (- - (Zpos mx * 2 ^ (ex + 1074))) with (Zpos mx * 2 ^ (ex + 1074)) by lia.
    rewrite <- Z.mul_assoc, <- Z.pow_add_r by lia. f_equal. f_equal. change wexp with (-2200). lia.
  - rewrite RZ_pos by nia. f_equal.
    rewrite <- Z.mul_assoc, <- Z.pow_add_r by lia. f_equal. f_equal. change wexp with (-2200). lia.
Qed.

Theorem SFadd_key x y :
  valid_binary x = true -> valid_binary y = true ->
  is_fin_sf x = true -> is_fin_sf y = true ->
  is_nan_sf (SFadd prec emax x y) = false /\
  key (SFadd prec emax x y) = rkey (key x + key y).
Proof.
  intros Hx Hy Fx Fy.
  destruct x as [sx|sx| |sx mx ex], y as [sy|sy| |sy my ey]; try discriminate.
  - split; now destruct sx, sy.
  - split; [reflexivity|]. rewrite <- (proj2 (key_RZ _)).
    change (key (S754_zero sx)) with 0. rewrite Z.add_0_l.
    rewrite RZ_key_exact by assumption. reflexivity.
  - split; [reflexivity|]. rewrite <- (proj2 (key_RZ _)).
    change (key (S754_zero sy)) with 0. rewrite Z.add_0_r.
    rewrite RZ_key_exact by assumption. reflexivity.
  - destruct (valid_finite_bounds _ _ _ Hx) as [Hex _].
    destruct (valid_finite_bounds _ _ _ Hy) as [Hey _].
    cbn [SFadd]. rewrite binary_normalize_RZ by lia.
    assert (Hsum : (cond_Zopp sx (Zpos (fst (shl_align mx ex (Z.min ex ey)))) +
                    cond_Zopp sy (Zpos (fst (shl_align my ey (Z.min ex ey))))) * 2 ^ (Z.min ex ey + 1074)
                   = key (S754_finite sx mx ex) + key (S754_finite sy my ey)).
    { cbn [key]. rewrite Z.mul_add_distr_r.
      pose proof (shl_align_fst_min mx ex (Z.min ex ey) ltac:(lia)) as Ha.
      pose proof (shl_align_fst_min my ey (Z.min ex ey) ltac:(lia)) as Hb.
      destruct sx, sy; cbn [cond_Zopp]; lia. }
    rewrite Hsum. apply key_RZ.
Qed.

(* ---------- multiplication ---------- *)

Lemma signed_clamp_mono (f : Z -> Z) :
  (forall u v, 0 <= u <= v -> f u <= f v) -> (forall u, 0 <= u -> 0 <= f u) ->
  forall N1 N2, N1 <= N2 ->
  match N1 with Z0 => 0 | Zpos p => clamp (f (Zpos p)) | Zneg p => - clamp (f (Zpos p)) end <=
  match N2 with Z0 => 0 | Zpos p => clamp (f (Zpos p)) | Zneg p => - clamp (f (Zpos p)) end.
Proof.
  intros Hm Hp N1 N2 H.
  assert (Hc : forall p, 0 <= clamp (f (Zpos p))) by (intros p; apply clamp_nonneg, Hp; lia).
  assert (Hcm : forall p q, (p <= q)%positive -> clamp (f (Zpos p)) <= clamp (f (Zpos q))).
  { intros p q Hpq. apply clamp_mono, Hm. lia. }
  destruct N1 as [|p|p], N2 as [|q|q]; try lia.
  - apply Hc.
  - apply Hcm. lia.
  - pose proof (Hc p). lia.
  - pose proof (Hc p). pose proof (Hc q). lia.
  - pose proof (Hcm q p ltac:(lia)). lia.
Qed.

Lemma mkey_mono N1 N2 : N1 <= N2 -> mkey N1 <= mkey N2.
Proof.
  apply (signed_clamp_mono (fun u => rval (u * 2 ^ 52) 1)).
  - intros u v H. apply rval_mono; [lia|]. split; [lia|]. apply Z.mul_le_mono_nonneg_r; lia.
  - intros u H. apply rval_nonneg; lia.
Qed.

Lemma Zdigits2_mul_ge m1 m2 :
  0 < m1 -> 0 < m2 -> Zdigits2 m1 + Zdigits2 m2 - 1 <= Zdigits2 (m1 * m2).
Proof.
  intros H1 H2.
  destruct (Zdigits2_bounds m1 H1) as [Hd1 Hb1].
  destruct (Zdigits2_bounds m2 H2) as [Hd2 Hb2].
  destruct (Zdigits2_bounds (m1 * m2) ltac:(nia)) as [Hd Hb].
  destruct (Z.le_gt_cases (Zdigits2 m1 + Zdigits2 m2 - 1) (Zdigits2 (m1 * m2))); [assumption|].
  pose proof (pow2_le (Zdigits2 (m1 * m2)) ((Zdigits2 m1 - 1) + (Zdigits2 m2 - 1)) ltac:(lia)) as Hle.
  rewrite Z.pow_add_r in Hle by lia.
  pose proof (pow2_pos (Zdigits2 m1 - 1) ltac:(lia)). pose proof (pow2_pos (Zdigits2 m2 - 1) ltac:(lia)).
  nia.
Qed.

Theorem SFmul_key x y :
  valid_binary x = true -> valid_binary y = true ->
  is_fin_sf x = true -> is_fin_sf y = true ->
  is_nan_sf (SFmul prec emax x y) = false /\
  key (SFmul prec emax x y) = mkey (key x * key y).
Proof.
  intros Hx Hy Fx Fy. assert (Hwv : wexp = -2200) by reflexivity.
  destruct x as [sx|sx| |sx mx ex], y as [sy|sy| |sy my ey]; try discriminate.
  - now split.
  - now split.
  - split; [reflexivity|]. cbn [SFmul key]. now rewrite Z.mul_0_r.
  - destruct (valid_finite _ _ _ Hx) as [Hcx _]. destruct (valid_finite _ _ _ Hy) as [Hcy _].
    destruct (valid_finite_bounds _ _ _ Hx) as [Hex _].
    destruct (valid_finite_bounds _ _ _ Hy) as [Hey _].
    pose proof (Zdigits2_mul_ge (Zpos mx) (Zpos my) ltac:(lia) ltac:(lia)) as Hd.
    cbn [Zdigits2] in Hd.
    cbn [SFmul].
    rewrite (binary_round_aux_RndS _ (Zpos (mx * my)) (ex + ey) loc_Exact (Zpos (mx * my)) 1);
      [|lia|apply rep_exact; lia| |lia].
    2:{ rewrite Pos2Z.inj_mul. unfold fexp64 in *. lia. }
    pose proof (pow2_pos (ex + 1074) ltac:(lia)). pose proof (pow2_pos (ey + 1074) ltac:(lia)).
    assert (HA : Zpos (mx * my) * 2 ^ (ex + ey - wexp) =
                 (Zpos mx * 2 ^ (ex + 1074)) * (Zpos my * 2 ^ (ey + 1074)) * 2 ^ 52).
    { rewrite Pos2Z.inj_mul. replace (ex + ey - wexp) with ((ex + 1074) + (ey + 1074) + 52) by lia.
      rewrite !Z.pow_add_r by lia. ring. }
    rewrite HA.
    destruct (key_RndS (xorb sx sy) ((Zpos mx * 2 ^ (ex + 1074)) * (Zpos my * 2 ^ (ey + 1074)) * 2 ^ 52) 1
                ltac:(lia) ltac:(nia)) as [Hn Hk].
    split; [exact Hn|]. rewrite Hk. cbn [key].
    assert (Hp : 0 < (Zpos mx * 2 ^ (ex + 1074)) * (Zpos my * 2 ^ (ey + 1074))) by nia.
    destruct ((Zpos mx * 2 ^ (ex + 1074)) * (Zpos my * 2 ^ (ey + 1074))) as [|q|q] eqn:Hq; try lia.
    destruct sx, sy; cbn [cond_Zopp xorb];
      rewrite ?Z.mul_opp_opp, ?Z.mul_opp_l, ?Z.mul_opp_r, Hq; reflexivity.
Qed.

(* ---------- division by a positive float ---------- *)

Lemma dkey_mono c N1 N2 : 0 < c -> N1 <= N2 -> dkey N1 c <= dkey N2 c.
Proof.
  intros Hc. apply (signed_clamp_mono (fun u => rval (u * 2 ^ 2200) c)).
  - intros u v H. apply rval_mono; [lia|]. split; [lia|]. apply Z.mul_le_mono_nonneg_r; lia.
  - intros u H. apply rval_nonneg; lia.
Qed.

Lemma RndS_scale s A b k : 0 < b -> 0 < k -> RndS s (A * k) (b * k) = RndS s A b.
Proof.
  intros Hb Hk. unfold RndS, rexp. rewrite Z.div_mul_cancel_r by lia.
  set (E := fexp64 (Zdigits2 (A / b) + wexp)).
  assert (Hw : wexp = -2200) by reflexivity.
  assert (-1074 <= E) by (unfold E, fexp64; lia).
  replace (b * k * 2 ^ (E - wexp)) with (b * 2 ^ (E - wexp) * k) by lia.
  rewrite rne_scale; [reflexivity| |lia].
  pose proof (pow2_pos (E - wexp) ltac:(lia)). nia.
Qed.

Lemma new_location_rep nb q k :
  0 < nb -> 0 <= q -> 0 <= k < nb ->
  rep (q * nb + k) nb (shr_record_of_loc q (new_location nb k)).
Proof.
  intros Hnb Hq Hk. unfold new_location, new_location_even, new_location_odd.
  assert (Hloc : forall c, (c = Lt -> 2 * k < nb) -> (c = Eq -> 2 * k = nb) -> (c = Gt -> nb < 2 * k) ->
                 k <> 0 -> rep (q * nb + k) nb (shr_record_of_loc q (loc_Inexact c))).
  { intros c HLt HEq HGt Hk0. split; [destruct c; exact Hq|].
    destruct c; cbn [shr_record_of_loc shr_m shr_r shr_s b2z].
    - exists 0. specialize (HEq eq_refl). split; [lia|]. split; [lia|reflexivity].
    - exists (2 * k). specialize (HLt eq_refl). split; [lia|]. split; [lia|].
      symmetry. apply negb_true_iff, Z.eqb_neq. lia.
    - exists (2 * k - nb). specialize (HGt eq_refl). split; [lia|]. split; [lia|].
      symmetry. apply negb_true_iff, Z.eqb_neq. lia. }
  assert (He : k = 0 -> rep (q * nb + k) nb (shr_record_of_loc q loc_Exact)).
  { intros ->. split; [exact Hq|]. exists 0. cbn [shr_record_of_loc shr_m shr_r shr_s b2z].
    split; [lia|]. split; [lia|reflexivity]. }
  destruct (Z.even nb) eqn:Hev; cbn beta; destruct (Z.eqb_spec k 0) as [Hk0|Hk0]; auto.
  - apply Hloc; [| | |exact Hk0]; intros Hc.
    + now apply Z.compare_lt_iff.
    + now apply Z.compare_eq_iff.
    + apply Z.compare_gt_iff in Hc. lia.
  - assert (Hodd : exists j, nb = 2 * j + 1).
    { apply Z.odd_spec. rewrite <- Z.negb_even, Hev. reflexivity. }
    destruct Hodd as [j Hj].
    apply Hloc; [| | |exact Hk0]; intros Hc;
      destruct (Z.compare_spec (2 * k + 1) nb); try discriminate; lia.
Qed.

Theorem SFdiv_key x sy my ey :
  valid_binary x = true -> valid_binary (S754_finite sy my ey) = true ->
  is_fin_sf x = true -> sy = false ->
  is_nan_sf (SFdiv prec emax x (S754_finite sy my ey)) = false /\
  key (SFdiv prec emax x (S754_finite sy my ey)) = dkey (key x) (key (S754_finite sy my ey)).
Proof.
  intros Hx Hy Fx ->. assert (Hwv : wexp = -2200) by reflexivity.
  destruct x as [sx|sx| |sx mx ex]; try discriminate.
  - now split.
  - destruct (valid_finite_bounds _ _ _ Hx) as [Hex _].
    destruct (valid_finite_bounds _ _ _ Hy) as [Hey _].
    cbn [SFdiv]. unfold SFdiv_core_binary. change (fexp prec emax) with fexp64.
    set (d1 := Zdigits2 (Zpos mx)). set (d2 := Zdigits2 (Zpos my)).
    set (e' := Z.min (fexp64 (d1 + ex - (d2 + ey))) (ex - ey)).
    set (sh := ex - ey - e').
    assert (Hsh : 0 <= sh) by (unfold sh, e'; lia).
    assert (Hgen : forall v, 0 <= v ->
              match v with Zpos _ => Z.shiftl (Zpos mx) v | Z0 => Zpos mx | Zneg _ => 0 end
              = Zpos mx * 2 ^ v).
    { intros [|p|p] Hv; [change (2 ^ 0) with 1; lia|now rewrite Z.shiftl_mul_pow2 by lia|lia]. }
    rewrite (Hgen sh Hsh). clear Hgen.
    set (m' := Zpos mx * 2 ^ sh). assert (Hm' : m' = Zpos mx * 2 ^ sh) by reflexivity.
    clearbody m'.
    pose proof (Z_div_mod m' (Zpos my) ltac:(lia)) as Hdm.
    destruct (Z.div_eucl m' (Zpos my)) as [q r]. destruct Hdm as [Hdm Hr].
    pose proof (pow2_pos sh Hsh) as Hpsh.
    assert (Hq0 : 0 <= q) by nia.
    assert (He'w : wexp <= e') by (unfold e', fexp64; lia).
    pose proof (Zdigits2_bounds (Zpos mx) ltac:(lia)) as [Hd1 Hb1]. fold d1 in Hd1, Hb1.
    pose proof (Zdigits2_bounds (Zpos my) ltac:(lia)) as [Hd2 Hb2]. fold d2 in Hd2, Hb2.
    assert (Hpre : e' <= fexp64 (Zdigits2 q + e')).
    { destruct (Z.le_gt_cases e' (-1074)) as [Hle|Hgt]; [unfold fexp64; lia|].
      assert (Hs53 : 53 - d1 + d2 <= sh) by (unfold sh, e', fexp64 in *; lia).
      assert (H52 : 2 ^ 52 <= q).
      { destruct (Z.le_gt_cases (2 ^ 52) q); [assumption|exfalso].
        assert (Hlow : 2 ^ (d1 - 1) * 2 ^ sh <= m') by nia.
        rewrite <- Z.pow_add_r in Hlow by lia.
        pose proof (pow2_le (52 + d2) (d1 - 1 + sh) ltac:(lia)) as Hle.
        rewrite Z.pow_add_r in Hle by lia.
        assert (q + 1 <= 2 ^ 52) by lia.
        assert (m' < Zpos my * (q + 1)) by nia.
        assert (Zpos my * (q + 1) <= 2 ^ d2 * 2 ^ 52) by nia.
        lia. }
      assert (53 <= Zdigits2 q); [|unfold fexp64; lia].
      destruct (Zdigits2_bounds q ltac:(lia)) as [Hdq Hbq].
      destruct (Z.le_gt_cases 53 (Zdigits2 q)); [assumption|].
      pose proof (pow2_le (Zdigits2 q) 52 ltac:(lia)). lia. }
    assert (Hrep : rep m' (Zpos my) (shr_record_of_loc q (new_location (Zpos my) r))).
    { replace m' with (q * Zpos my + r) by lia. apply new_location_rep; lia. }
    rewrite (binary_round_aux_RndS _ q e' _ m' (Zpos my) ltac:(lia) Hrep Hpre He'w).
    pose proof (pow2_pos (ey + 1074) ltac:(lia)) as Hpy.
    pose proof (pow2_pos (ex + 1074) ltac:(lia)) as Hpx.
    rewrite <- (RndS_scale (xorb sx false) (m' * 2 ^ (e' - wexp)) (Zpos my) (2 ^ (ey + 1074)) ltac:(lia) Hpy).
    assert (HA : m' * 2 ^ (e' - wexp) * 2 ^ (ey + 1074) = Zpos mx * 2 ^ (ex + 1074) * 2 ^ 2200).
    { rewrite Hm'. rewrite <- !Z.mul_assoc, <- !Z.pow_add_r by lia. f_equal. f_equal. unfold sh. lia. }
    rewrite HA.
    destruct (key_RndS (xorb sx false) (Zpos mx * 2 ^ (ex + 1074) * 2 ^ 2200) (Zpos my * 2 ^ (ey + 1074))
                ltac:(nia) ltac:(nia)) as [Hn Hk].
    split; [exact Hn|]. rewrite Hk. cbn [key cond_Zopp].
    assert (Hp : 0 < Zpos mx * 2 ^ (ex + 1074)) by nia.
    destruct (Zpos mx * 2 ^ (ex + 1074)) as [|p|p] eqn:Hq; try lia.
    destruct sx; reflexivity.
Qed.

Lemma SFeqb_key x y :
  valid_binary x = true -> valid_binary y = true ->
  is_nan_sf x = false -> is_nan_sf y = false ->
  SFeqb x y = (key x =? key y).
Proof.
  intros Hx Hy Nx Ny. unfold SFeqb. rewrite (SFcompare_key x y Hx Hy Nx Ny).
  rewrite Z.eqb_compare. reflexivity.
Qed.

Lemma rkey_exact x :
  valid_binary x = true -> is_fin_sf x = true -> rkey (key x) = key x.
Proof.
  intros Hx Fx. rewrite <- (proj2 (key_RZ (key x))). now apply RZ_key_exact.
Qed.

Lemma is_fin_sf_key x :
  valid_binary x = true ->
  is_fin_sf x = true <-> (is_nan_sf x = false /\ - kinf < key x < kinf).
Proof.
  intros Hx. pose proof kmax_lt_kinf. pose proof kmax_pos.
  destruct x as [s|s| |s m e]; cbn [is_fin_sf is_nan_sf key].
  - split; [intros _; split; [reflexivity|lia]|reflexivity].
  - split; [discriminate|]. intros [_ Hk]. destruct s; cbn [cond_Zopp] in Hk; lia.
  - split; [discriminate|]. intros [Hn _]. discriminate.
  - pose proof (finite_key_bounds s m e Hx).
    split; [intros _; split; [reflexivity|destruct s; cbn [cond_Zopp]; lia]|reflexivity].
Qed.

End Binary64Facts.

(* ================================================================== *)
(** * Part III: order and rounding on primitive floats                 *)
(* ================================================================== *)

Module FloatFacts.
Import Binary64 Binary64Facts.
Local Open Scope Z_scope.

Lemma ffin_fnan x : ffin x = true -> fnan x = false.
Proof. unfold ffin, fnan. now destruct (Prim2SF x). Qed.

Lemma leb_fkey x y :
  fnan x = false -> fnan y = false -> (x <=? y)%float = (fkey x <=? fkey y).
Proof.
  intros Nx Ny. rewrite FloatAxioms.leb_spec. apply SFleb_key; auto using Prim2SF_valid.
Qed.

Lemma ltb_fkey x y :
  fnan x = false -> fnan y = false -> (x <? y)%float = (fkey x <? fkey y).
Proof.
  intros Nx Ny. rewrite FloatAxioms.ltb_spec. apply SFltb_key; auto using Prim2SF_valid.
Qed.

Lemma eqb_fkey x y :
  fnan x = false -> fnan y = false -> (x =? y)%float = (fkey x =? fkey y).
Proof.
  intros Nx Ny. rewrite FloatAxioms.eqb_spec. apply SFeqb_key; auto using Prim2SF_valid.
Qed.

Lemma SFcompare_nonnan x y c :
  SFcompare x y = Some c -> is_nan_sf x = false /\ is_nan_sf y = false.
Proof. destruct x, y; cbn; intros H; try discriminate; now split. Qed.

Lemma leb_nonnan x y : (x <=? y)%float = true -> fnan x = false /\ fnan y = false.
Proof.
  rewrite FloatAxioms.leb_spec. unfold SFleb, fnan.
  destruct (SFcompare (Prim2SF x) (Prim2SF y)) eqn:Hc; [|discriminate].
  intros _. eapply SFcompare_nonnan; eassumption.
Qed.

Lemma ltb_nonnan x y : (x <? y)%float = true -> fnan x = false /\ fnan y = false.
Proof.
  rewrite FloatAxioms.ltb_spec. unfold SFltb, fnan.
  destruct (SFcompare (Prim2SF x) (Prim2SF y)) eqn:Hc; [|discriminate].
  intros _. eapply SFcompare_nonnan; eassumption.
Qed.

Lemma fle_iff x y : fle x y <-> fnan x = false /\ fnan y = false /\ fkey x <= fkey y.
Proof.
  unfold fle. split.
  - intros H. destruct (leb_nonnan x y H) as [Nx Ny].
    rewrite (leb_fkey x y Nx Ny) in H. apply Z.leb_le in H. auto.
  - intros [Nx [Ny H]]. rewrite (leb_fkey x y Nx Ny). now apply Z.leb_le.
Qed.

Lemma flt_iff x y : flt x y <-> fnan x = false /\ fnan y = false /\ fkey x < fkey y.
Proof.
  unfold flt. split.
  - intros H. destruct (ltb_nonnan x y H) as [Nx Ny].
    rewrite (ltb_fkey x y Nx Ny) in H. apply Z.ltb_lt in H. auto.
  - intros [Nx [Ny H]]. rewrite (ltb_fkey x y Nx Ny). now apply Z.ltb_lt.
Qed.

Lemma fle_refl x : fnan x = false -> fle x x.
Proof. intros H. apply fle_iff. repeat split; auto. lia. Qed.

Lemma fle_trans x y z : fle x y -> fle y z -> fle x z.
Proof.
  rewrite !fle_iff. intros [Nx [Ny H1]] [_ [Nz H2]]. repeat split; auto. lia.
Qed.

Lemma flt_fle x y : flt x y -> fle x y.
Proof. rewrite fle_iff, flt_iff. intros [Nx [Ny H]]. repeat split; auto. lia. Qed.

Lemma fle_flt_trans x y z : fle x y -> flt y z -> flt x z.
Proof.
  rewrite fle_iff, !flt_iff. intros [Nx [Ny H1]] [_ [Nz H2]]. repeat split; auto. lia.
Qed.

Lemma flt_fle_trans x y z : flt x y -> fle y z -> flt x z.
Proof.
  rewrite fle_iff, !flt_iff. intros [Nx [Ny H1]] [_ [Nz H2]]. repeat split; auto. lia.
Qed.

Lemma ltb_false_fle x y :
  fnan x = false -> fnan y = false -> (x <? y)%float = false -> fle y x.
Proof.
  intros Nx Ny H. rewrite (ltb_fkey x y Nx Ny) in H. apply Z.ltb_ge in H.
  apply fle_iff. auto.
Qed.

Lemma leb_false_flt x y :
  fnan x = false -> fnan y = false -> (x <=? y)%float = false -> flt y x.
Proof.
  intros Nx Ny H. rewrite (leb_fkey x y Nx Ny) in H. apply Z.leb_gt in H.
  apply flt_iff. auto.
Qed.

Lemma ffin_iff x : ffin x = true <-> (fnan x = false /\ - kinf < fkey x < kinf).
Proof. apply is_fin_sf_key, Prim2SF_valid. Qed.

(** A value between two finite ones is finite. *)
Lemma ffin_between lo hi x :
  ffin lo = true -> ffin hi = true -> fle lo x -> fle x hi -> ffin x = true.
Proof.
  rewrite !ffin_iff, !fle_iff. intros [_ Hlo] [_ Hhi] [_ [Nx H1]] [_ [_ H2]].
  split; [exact Nx|lia].
Qed.

Lemma is_nan_fnan x : is_nan x = fnan x.
Proof.
  unfold is_nan. destruct (fnan x) eqn:Hn.
  - rewrite FloatAxioms.eqb_spec. unfold fnan in Hn. destruct (Prim2SF x); try discriminate. reflexivity.
  - rewrite (eqb_fkey x x Hn Hn), Z.eqb_refl. reflexivity.
Qed.

(** *** The three operations, on keys *)

Theorem fadd_key x y :
  ffin x = true -> ffin y = true ->
  fnan (x + y) = false /\ fkey (x + y) = rkey (fkey x + fkey y).
Proof.
  intros Fx Fy. unfold fnan, fkey. rewrite FloatAxioms.add_spec.
  apply SFadd_key; auto using Prim2SF_valid.
Qed.

Theorem fmul_key x y :
  ffin x = true -> ffin y = true ->
  fnan (x * y) = false /\ fkey (x * y) = mkey (fkey x * fkey y).
Proof.
  intros Fx Fy. unfold fnan, fkey. rewrite FloatAxioms.mul_spec.
  apply SFmul_key; auto using Prim2SF_valid.
Qed.

Theorem fdiv_key x c :
  ffin x = true -> ffin c = true -> 0 < fkey c ->
  fnan (x / c) = false /\ fkey (x / c) = dkey (fkey x) (fkey c).
Proof.
  intros Fx Fc Hc. unfold fnan, fkey in *. rewrite FloatAxioms.div_spec.
  pose proof (Prim2SF_valid c) as Vc. unfold ffin in Fc.
  revert Hc Vc Fc. destruct (Prim2SF c) as [s|s| |s m e]; intros Hc Vc Fc; try discriminate.
  assert (s = false).
  { destruct s; [|reflexivity]. pose proof (finite_key_bounds _ _ _ Vc).
    cbn [key cond_Zopp] in Hc. lia. }
  apply SFdiv_key; auto using Prim2SF_valid.
Qed.

(** *** Monotonicity, as the script's comparisons see it *)

Lemma fadd_mono_r x a b :
  ffin x = true -> ffin a = true -> ffin b = true ->
  fle a b -> fle (x + a) (x + b).
Proof.
  intros Fx Fa Fb. rewrite !fle_iff. intros [_ [_ H]].
  destruct (fadd_key x a Fx Fa) as [N1 K1]. destruct (fadd_key x b Fx Fb) as [N2 K2].
  repeat split; auto. rewrite K1, K2. apply rkey_mono. lia.
Qed.

Lemma fadd_mono_l x a b :
  ffin x = true -> ffin a = true -> ffin b = true ->
  fle a b -> fle (a + x) (b + x).
Proof.
  intros Fx Fa Fb. rewrite !fle_iff. intros [_ [_ H]].
  destruct (fadd_key a x Fa Fx) as [N1 K1]. destruct (fadd_key b x Fb Fx) as [N2 K2].
  repeat split; auto. rewrite K1, K2. apply rkey_mono. lia.
Qed.

(** Adding a non-negative amount never lowers a value. *)
Lemma fadd_nonneg_le x p :
  ffin x = true -> ffin p = true -> fle 0 p -> fle x (x + p).
Proof.
  intros Fx Fp. rewrite !fle_iff. intros [_ [_ H]]. change (fkey 0) with 0 in H.
  destruct (fadd_key x p Fx Fp) as [N1 K1].
  repeat split; auto using ffin_fnan. rewrite K1.
  rewrite <- (rkey_exact (Prim2SF x) (Prim2SF_valid x) Fx) at 1.
  apply rkey_mono. fold (fkey x). lia.
Qed.

Lemma fmul_mono_l c a b :
  ffin c = true -> fle 0 c -> ffin a = true -> ffin b = true ->
  fle a b -> fle (a * c) (b * c).
Proof.
  intros Fc Hc Fa Fb. rewrite !fle_iff in *. intros [_ [_ H]].
  destruct Hc as [_ [_ Hc]]. change (fkey 0) with 0 in Hc.
  destruct (fmul_key a c Fa Fc) as [N1 K1]. destruct (fmul_key b c Fb Fc) as [N2 K2].
  repeat split; auto. rewrite K1, K2. apply mkey_mono. nia.
Qed.

Lemma fdiv_mono_l c a b :
  ffin c = true -> flt 0 c -> ffin a = true -> ffin b = true ->
  fle a b -> fle (a / c) (b / c).
Proof.
  intros Fc Hc Fa Fb. rewrite !fle_iff. intros [_ [_ H]].
  apply flt_iff in Hc. destruct Hc as [_ [_ Hc]]. change (fkey 0) with 0 in Hc.
  destruct (fdiv_key a c Fa Fc Hc) as [N1 K1]. destruct (fdiv_key b c Fb Fc Hc) as [N2 K2].
  repeat split; auto. rewrite K1, K2. now apply dkey_mono.
Qed.

(** NaN is contagious in a sum. *)
Lemma fadd_nan_l x y : fnan x = true -> fnan (x + y) = true.
Proof.
  unfold fnan. rewrite FloatAxioms.add_spec. destruct (Prim2SF x); try discriminate. reflexivity.
Qed.

(** An infinite term decides a sum with a finite one. *)
Lemma fadd_inf_l x a :
  fnan x = false -> ffin x = false -> ffin a = true -> Prim2SF (x + a) = Prim2SF x.
Proof.
  unfold fnan, ffin. rewrite FloatAxioms.add_spec.
  destruct (Prim2SF x) as [s|s| |s m e]; try discriminate.
  intros _ _. now destruct (Prim2SF a).
Qed.

(** On the right of a sum, a larger finite term gives a larger sum, whatever
    non-NaN value stands on the left. *)
Lemma fadd_mono_r_any x a b :
  fnan x = false -> ffin a = true -> ffin b = true ->
  fle a b -> fle (x + a) (x + b).
Proof.
  intros Nx Fa Fb Hab. destruct (ffin x) eqn:Fx.
  - now apply fadd_mono_r.
  - pose proof (fadd_inf_l x a Nx Fx Fa) as Ha. pose proof (fadd_inf_l x b Nx Fx Fb) as Hb.
    apply fle_iff. unfold fnan, fkey. rewrite Ha, Hb. fold (fnan x). repeat split; auto. lia.
Qed.

(** Below [1] there is no double past [belowOne]. *)
Lemma key_below_one x :
  valid_binary x = true -> is_nan_sf x = false ->
  key x < 2 ^ 1074 -> key x <= 2 ^ 1074 - 2 ^ 1021.
Proof.
  intros Hx Nx Hk. pose proof kmax_lt_kinf as Hkk. pose proof kmax_pos.
  pose proof (pow2_lt 1021 1074 ltac:(lia)) as H21.
  pose proof (pow2_pos 1021 ltac:(lia)) as H21p.
  pose proof (pow2_lt 1074 2098 ltac:(lia)) as H74. unfold kmax in *.
  destruct x as [s|s| |s m e]; cbn [key] in *; [lia| |discriminate|].
  - destruct s; cbn [cond_Zopp] in *; lia.
  - destruct (valid_finite_bounds _ _ _ Hx) as [He [Hm Hn]].
    pose proof (pow2_pos (e + 1074) ltac:(lia)) as Hp.
    destruct s; cbn [cond_Zopp] in *; [nia|].
    destruct (Z.le_gt_cases (-52) e) as [Hge|Hlt].
    + specialize (Hn ltac:(lia)).
      pose proof (mul_pow2_le (Zpos m) 52 (e + 1074) Hn ltac:(lia) ltac:(lia)).
      pose proof (pow2_le 1074 (52 + (e + 1074)) ltac:(lia)). lia.
    + pose proof (pow2_le (e + 1074) 1021 ltac:(lia)) as Hle.
      replace (2 ^ 1074) with (2 ^ 53 * 2 ^ 1021) by (rewrite <- Z.pow_add_r by lia; reflexivity).
      assert (Zpos m * 2 ^ (e + 1074) <= (2 ^ 53 - 1) * 2 ^ 1021); [|lia].
      apply Z.mul_le_mono_nonneg; lia.
Qed.

Lemma flt_one_belowOne r : flt r 1 -> fle r Props.belowOne.
Proof.
  rewrite flt_iff, fle_iff. intros [Nr [_ H]].
  assert (H1 : fkey 1 = 2 ^ 1074) by (vm_compute; reflexivity).
  assert (Hb : fkey Props.belowOne = 2 ^ 1074 - 2 ^ 1021) by (vm_compute; reflexivity).
  split; [exact Nr|]. split; [reflexivity|]. rewrite Hb. rewrite H1 in H.
  apply key_below_one; auto using Prim2SF_valid.
Qed.

End FloatFacts.

(* ================================================================== *)
(** * Part IV: properties of the classes                               *)
(* ================================================================== *)

(** Checking a decidable property on every number below a bound, by
    evaluation. *)
Module Ranges.

Lemma forallb_below (P : nat -> bool) (n : nat) :
  forallb P (seq 0 n) = true -> forall k, (k < n)%nat -> P k = true.
Proof.
  intros H k Hk. rewrite forallb_forall in H. apply H, in_seq. lia.
Qed.

Lemma forallb_zrange (P : Z -> bool) (lo : Z) (n : nat) :
  forallb P (Props.zrange lo n) = true ->
  forall z, (lo <= z < lo + Z.of_nat n)%Z -> P z = true.
Proof.
  intros H z Hz. rewrite forallb_forall in H. apply H.
  unfold Props.zrange. apply in_map_iff. exists (Z.to_nat (z - lo)).
  split; [lia|]. apply in_seq. lia.
Qed.

Lemma same_eq (a b : float) : Props.same a b = true -> a = b.
Proof. apply FloatAxioms.Leibniz.eqb_spec. Qed.

Lemma same_neq (a b : float) : Props.same a b = false -> a <> b.
Proof.
  intros H E. apply FloatAxioms.Leibniz.eqb_spec in E. unfold Props.same in H. congruence.
Qed.

End Ranges.

(** ** Particle *)
Module ParticleFacts.
Import Props.
Local Open Scope float_scope.

Lemma new_life x y color velocity rnd :
  Particle.life (fst (Particle.new x y color velocity rnd)) = 1.0 /\
  Particle.decay (fst (Particle.new x y color velocity rnd)) = 0.02.
Proof. unfold Particle.new. destruct velocity; cbn; split; reflexivity. Qed.

(** [update()] only ever subtracts [decay] from [life]. *)
Lemma life_after n p :
  Particle.life (particleTicks n p) = Nat.iter n (fun l => l - Particle.decay p) (Particle.life p) /\
  Particle.decay (particleTicks n p) = Particle.decay p.
Proof.
  induction n as [|n [IHl IHd]]; [split; reflexivity|].
  unfold particleTicks in *.
  change (Nat.iter (S n) Particle.update p) with (Particle.update (Nat.iter n Particle.update p)).
  change (Nat.iter (S n) (fun l => l - Particle.decay p) (Particle.life p))
    with (Nat.iter n (fun l => l - Particle.decay p) (Particle.life p) - Particle.decay p).
  split.
  - change (Particle.life (Particle.update (Nat.iter n Particle.update p)))
      with (Particle.life (Nat.iter n Particle.update p) - Particle.decay (Nat.iter n Particle.update p)).
    now rewrite IHl, IHd.
  - exact IHd.
Qed.

Lemma isDead_after p k :
  Particle.life p = 1.0 -> Particle.decay p = 0.02 ->
  Particle.isDead (particleTicks k p) = (Nat.iter k (fun l => l - 0.02) 1.0 <=? 0).
Proof.
  intros Hl Hd. unfold Particle.isDead. rewrite (proj1 (life_after k p)), Hl, Hd. reflexivity.
Qed.

Lemma life_positive_before_50 k :
  (1 <= k <= 49)%nat -> (Nat.iter k (fun l => l - 0.02) 1.0 <=? 0) = false.
Proof.
  intros Hk.
  assert (H : forallb (fun k => (k =? 0)%nat || negb (Nat.iter k (fun l => l - 0.02) 1.0 <=? 0))
                (seq 0 50) = true) by (vm_compute; reflexivity).
  pose proof (Ranges.forallb_below _ _ H k ltac:(lia)) as Hk'. clear H.
  cbv beta in Hk'. apply orb_true_iff in Hk'. destruct Hk' as [H|H].
  - apply Nat.eqb_eq in H. lia.
  - apply negb_true_iff in H. exact H.
Qed.

Lemma life_crossed_at_50 : (Nat.iter 50 (fun l => l - 0.02) 1.0 <=? 0) = true.
Proof. vm_compute. reflexivity. Qed.

(** C9. A particle built by the constructor (life 1.0, decay 0.02) is alive
    after each of its first 49 updates and dead after the 50th, its life
    having then reached 0 (it stands a rounding error below it). *)
Theorem particle_dead_after_exactly_50 x y color velocity rnd :
  let p := fst (Particle.new x y color velocity rnd) in
  Particle.life p = 1.0 /\ Particle.decay p = 0.02 /\
  (forall k, (1 <= k <= 49)%nat -> Particle.isDead (particleTicks k p) = false) /\
  Particle.isDead (particleTicks 50 p) = true.
Proof.
  intros p. destruct (new_life x y color velocity rnd) as [Hl Hd]. fold p in Hl, Hd.
  split; [exact Hl|]. split; [exact Hd|]. split.
  - intros k Hk. rewrite (isDead_after p k Hl Hd). now apply life_positive_before_50.
  - rewrite (isDead_after p 50 Hl Hd). exact life_crossed_at_50.
Qed.

End ParticleFacts.

(** ** Trail *)
Module TrailFacts.
Import Props.
Local Open Scope nat_scope.

Lemma addPoint_points tr x y :
  Trail.points (Trail.addPoint tr x y) =
  let pushed := Trail.points tr ++ [{| Trail.x := x; Trail.y := y; Trail.life := 1.0%float |}] in
  if Trail.maxPoints tr <? List.length pushed then tl pushed else pushed.
Proof. reflexivity. Qed.

Lemma addPoint_length tr x y :
  List.length (Trail.points tr) <= Trail.maxPoints tr ->
  List.length (Trail.points (Trail.addPoint tr x y)) <= Trail.maxPoints tr.
Proof.
  intros H. rewrite addPoint_points. cbv zeta.
  destruct (Nat.ltb_spec (Trail.maxPoints tr)
              (List.length (Trail.points tr ++ [{| Trail.x := x; Trail.y := y; Trail.life := 1.0%float |}])))
    as [Hlt|Hge]; [|exact Hge].
  destruct (Trail.points tr) as [|p ps]; cbn [app tl List.length] in *.
  - lia.
  - rewrite length_app in *. cbn [List.length] in *. lia.
Qed.

Lemma update_length tr :
  List.length (Trail.points (Trail.update tr)) <= List.length (Trail.points tr).
Proof.
  unfold Trail.update. cbn [Trail.points].
  etransitivity; [apply filter_length_le|]. now rewrite length_map.
Qed.

(** Every run from the constructor keeps the capacity at 20 and the trail
    within it. *)
Lemma runTrail_bounded ops :
  Trail.maxPoints (runTrail ops) = 20 /\ List.length (Trail.points (runTrail ops)) <= 20.
Proof.
  unfold runTrail.
  assert (H : forall tr, Trail.maxPoints tr = 20 /\ List.length (Trail.points tr) <= 20 ->
                         Trail.maxPoints (fold_left applyTrailOp ops tr) = 20 /\
                         List.length (Trail.points (fold_left applyTrailOp ops tr)) <= 20).
  { induction ops as [|op ops IH]; intros tr [Hm Hl]; [now split|].
    cbn [fold_left]. apply IH. destruct op as [x y|]; cbn [applyTrailOp].
    - split; [exact Hm|]. pose proof (addPoint_length tr x y) as H. rewrite Hm in H. exact (H Hl).
    - split; [exact Hm|]. pose proof (update_length tr). lia. }
  apply H. cbn. split; [reflexivity|lia].
Qed.

(** C7. Whatever [addPoint] and [update] calls were made since the
    constructor, the trail holds at most 20 samples, before and after one more
    [addPoint]; that [addPoint] either appends to a trail with room, or finds
    it full and evicts its first, oldest sample, keeping the others in
    order with the new one last. *)
Theorem trail_capacity_and_fifo (ops : list TrailOp) (x y : float) :
  let tr := runTrail ops in
  let sample := {| Trail.x := x; Trail.y := y; Trail.life := 1.0%float |} in
  List.length (Trail.points tr) <= 20 /\
  List.length (Trail.points (Trail.addPoint tr x y)) <= 20 /\
  ((List.length (Trail.points tr) < 20 /\
    Trail.points (Trail.addPoint tr x y) = Trail.points tr ++ [sample]) \/
   (exists oldest rest,
      Trail.points tr = oldest :: rest /\ List.length (Trail.points tr) = 20 /\
      Trail.points (Trail.addPoint tr x y) = rest ++ [sample])).
Proof.
  intros tr sample. destruct (runTrail_bounded ops) as [Hm Hl]. fold tr in Hm, Hl.
  split; [exact Hl|]. split.
  - pose proof (addPoint_length tr x y) as H. rewrite Hm in H. exact (H Hl).
  - rewrite addPoint_points. cbv zeta. fold sample. rewrite Hm, length_app. cbn [List.length].
    destruct (Nat.ltb_spec 20 (List.length (Trail.points tr) + 1)) as [Hlt|Hge].
    + right. destruct (Trail.points tr) as [|oldest rest] eqn:E; [cbn in Hlt; lia|].
      exists oldest, rest. split; [reflexivity|]. split; [lia|reflexivity].
    + left. split; [lia|reflexivity].
Qed.

End TrailFacts.

(** ** Player *)
Module PlayerFacts.
Import Props.
Local Open Scope float_scope.

(** C6. In the air [jump()] changes nothing: the player is returned as it
    was, every field included.  On the ground it sets the vertical velocity
    to [JUMP_FORCE], clears [onGround], and touches nothing else.  So
    [jump()] alters the player exactly when [onGround] is true. *)
Theorem jump_acts_iff_onGround (cfg : Config) (p : Player.t) :
  (Player.onGround p = false -> Player.jump cfg p = p) /\
  (Player.onGround p = true ->
   Player.jump cfg p =
   {| Player.x := Player.x p; Player.y := Player.y p;
      Player.width := Player.width p; Player.height := Player.height p;
      Player.velocityY := JUMP_FORCE cfg;
      Player.onGround := false;
      Player.rotation := Player.rotation p; Player.color := Player.color p;
      Player.trail := Player.trail p |}) /\
  (Player.jump cfg p <> p <-> Player.onGround p = true).
Proof.
  unfold Player.jump. destruct (Player.onGround p) eqn:H.
  - split; [discriminate|]. split; [reflexivity|]. split; [reflexivity|].
    intros _ E. apply (f_equal Player.onGround) in E. cbn in E. congruence.
  - split; [reflexivity|]. split; [discriminate|]. split; [|discriminate].
    intros N. now elim N.
Qed.

Lemma update_returns_alive (cfg : Config) (p : Player.t) :
  snd (Player.update cfg p) = "alive"%string.
Proof.
  unfold Player.update.
  destruct (_ <=? _); destruct (_ <=? _); reflexivity.
Qed.

(** What [update()] computes is a function of the body alone. *)
Lemma body_tick cfg p : body (tick cfg p) = bodyTick cfg (body p).
Proof.
  unfold tick, Player.update, bodyTick, body. cbn [bodyY bodyVelocityY bodyHeight bodyRotation].
  destruct (_ <=? _); destruct (_ <=? _); reflexivity.
Qed.

Lemma body_ticks cfg n p : body (ticks cfg n p) = Nat.iter n (bodyTick cfg) (body p).
Proof.
  induction n as [|n IH]; [reflexivity|].
  unfold ticks in *. rewrite !Nat.iter_succ. now rewrite body_tick, IH.
Qed.

Lemma body_jump cfg p : body (Player.jump cfg p) = bodyJump cfg (body p).
Proof.
  unfold Player.jump, bodyJump, body. cbn [bodyOnGround].
  destruct (Player.onGround p) eqn:E; [reflexivity|]. cbn. now rewrite E.
Qed.

Lemma tick_unclamped cfg p :
  unclamped cfg p = true ->
  Player.velocityY (tick cfg p) = Player.velocityY p + GRAVITY cfg /\
  Player.onGround (tick cfg p) = false.
Proof.
  unfold unclamped, Player.hitsGround, Player.hitsCeiling, tick, Player.update.
  intros H. apply andb_true_iff in H. destruct H as [Hg Hc].
  apply negb_true_iff in Hg. apply negb_true_iff in Hc. cbv zeta in Hg, Hc.
  rewrite Hg in Hc |- *. rewrite Hc. split; reflexivity.
Qed.

(** C5, as the code has it.  Through [n] updates in which neither clamp
    fires, the vertical velocity is the initial one with [GRAVITY] added [n]
    times, one rounded binary64 addition per tick, and the player stays off
    the ground. *)
Theorem velocity_after_unclamped_ticks (cfg : Config) (p : Player.t) (n : nat) :
  (forall k, (k < n)%nat -> unclamped cfg (ticks cfg k p) = true) ->
  Player.velocityY (ticks cfg n p) = addTimes n (GRAVITY cfg) (Player.velocityY p) /\
  ((0 < n)%nat -> Player.onGround (ticks cfg n p) = false).
Proof.
  induction n as [|n IH]; intros H.
  - split; [reflexivity|lia].
  - destruct IH as [IHv _]; [intros k Hk; apply H; lia|].
    destruct (tick_unclamped cfg (ticks cfg n p) (H n ltac:(lia))) as [Hv Hg].
    unfold ticks, addTimes in *. rewrite !Nat.iter_succ. split.
    + now rewrite Hv, IHv.
    + intros _. exact Hg.
Qed.

End PlayerFacts.

(** ** Collision *)
Module CollisionFacts.
Import Props.
Local Open Scope float_scope.

Lemma getBounds_inset p : Player.getBounds p = insetSquare 2 p.
Proof. reflexivity. Qed.

Lemma hits_overlap b o : ObstacleGenerator.hits b o = true <-> overlap (fullBounds o) b.
Proof.
  unfold ObstacleGenerator.hits, overlap, before, fullBounds. cbn [AABB.x AABB.y AABB.width AABB.height].
  rewrite !andb_true_iff. tauto.
Qed.

Lemma anyHits_exists b obs :
  ObstacleGenerator.anyHits b obs = true <->
  exists o, In o obs /\ ObstacleGenerator.hits b o = true.
Proof.
  induction obs as [|o obs IH]; cbn [ObstacleGenerator.anyHits In].
  - split; [discriminate|]. intros [o [[] _]].
  - destruct (ObstacleGenerator.hits b o) eqn:Ho.
    + split; [|reflexivity]. intros _. exists o. auto.
    + rewrite IH. split.
      * intros [o' [Hin Hh]]. exists o'. auto.
      * intros [o' [[->|Hin] Hh]]; [congruence|]. exists o'. auto.
Qed.

(** C2. [checkCollision(player)] is true exactly when some active obstacle's
    full rectangle overlaps the player's rectangle inset by 2 on each side,
    two boxes overlapping iff each starts strictly before the other ends on
    both axes. *)
Theorem checkCollision_iff_overlap (g : ObstacleGenerator.t) (player : Player.t) :
  Player.getBounds player = insetSquare 2 player /\
  (ObstacleGenerator.checkCollision g player = true <->
   exists o, In o (ObstacleGenerator.obstacles g) /\
             overlap (fullBounds o) (insetSquare 2 player)).
Proof.
  split; [reflexivity|].
  unfold ObstacleGenerator.checkCollision. rewrite getBounds_inset, anyHits_exists.
  split; intros [o [Hin H]]; exists o; (split; [exact Hin|]); now apply hits_overlap.
Qed.

End CollisionFacts.

(** ** Player: the jump from rest (Scenario A) and the velocity law *)
Module JumpFacts.
Import Props PlayerFacts.
Local Open Scope float_scope.

Lemma airborneFor_spec cfg n b :
  airborneFor cfg n b = true ->
  forall k, (1 <= k <= n)%nat ->
    bodyOnGround (Nat.iter k (bodyTick cfg) b) = false /\
    bodyVelocityY (Nat.iter k (bodyTick cfg) b) =
    bodyVelocityY (Nat.iter (k - 1) (bodyTick cfg) b) + GRAVITY cfg.
Proof.
  revert b. induction n as [|n IH]; intros b H k Hk; [lia|].
  cbn [airborneFor] in H.
  apply andb_true_iff in H. destruct H as [H Hrest].
  apply andb_true_iff in H. destruct H as [Hg Hv].
  apply negb_true_iff in Hg. apply Ranges.same_eq in Hv.
  destruct (Nat.eq_dec k 1) as [->|Hk1].
  - change (Nat.iter 1 (bodyTick cfg) b) with (bodyTick cfg b).
    change (Nat.iter (1 - 1) (bodyTick cfg) b) with b. now split.
  - destruct k as [|k]; [lia|]. rewrite Nat.iter_succ_r.
    replace (S k - 1)%nat with (S (k - 1)) by lia. rewrite (Nat.iter_succ_r (k - 1)).
    apply (IH (bodyTick cfg b) Hrest k). lia.
Qed.

(** The canvas width plays no part in the player's physics. *)
Lemma bodyTick_width w h b : bodyTick (CONFIG w h) b = bodyTick (CONFIG 0 h) b.
Proof. reflexivity. Qed.

Lemma flight_width w h n :
  Nat.iter n (bodyTick (CONFIG w h)) (launchedBody (CONFIG w h)) = flightBody (CONFIG 0 h) n.
Proof.
  unfold flightBody. induction n as [|n IH]; [reflexivity|].
  rewrite !Nat.iter_succ, IH. apply bodyTick_width.
Qed.

Lemma body_resting cfg p : body (restingPlayer cfg p) = restingBody cfg.
Proof. unfold restingPlayer. rewrite body_tick. reflexivity. Qed.

Lemma body_launched cfg p : body (launchedPlayer cfg p) = launchedBody cfg.
Proof. unfold launchedPlayer, launchedBody. now rewrite body_jump, body_resting. Qed.

Lemma body_flight w h p n :
  body (ticks (CONFIG w h) n (launchedPlayer (CONFIG w h) p)) = flightBody (CONFIG 0 h) n.
Proof. now rewrite body_ticks, body_launched, flight_width. Qed.

Lemma jumpScenario_heights :
  forallb (jumpScenario 36) (zrange leastHeight heightCount) = true.
Proof. vm_compute. reflexivity. Qed.

(** C4, as the code has it.  [reset()] leaves [onGround] false, so the player
    is at ground rest only after the [update()] that follows.  From there, on
    a canvas 274 to 10000 pixels high (window heights are whole numbers; below
    274 the jump reaches the ceiling): one [jump()] sets the velocity to
    [JUMP_FORCE] and clears [onGround]; each of the next 36 updates leaves the
    player airborne and adds [GRAVITY] to its velocity; the 37th brings its
    bottom edge back to the ground line, sets [onGround] and leaves the
    rotation, and the velocity, at 0. *)
Theorem jump_from_rest_scenario (w : float) (h : Z) (p : Player.t) :
  (274 <= h <= 10000)%Z ->
  Player.onGround (restingPlayer (CONFIG w (JS.float_of_Z h)) p) = true /\
  Player.velocityY (launchedPlayer (CONFIG w (JS.float_of_Z h)) p)
    = JUMP_FORCE (CONFIG w (JS.float_of_Z h)) /\
  Player.onGround (launchedPlayer (CONFIG w (JS.float_of_Z h)) p) = false /\
  (forall k, (1 <= k <= 36)%nat ->
     Player.onGround
       (ticks (CONFIG w (JS.float_of_Z h)) k (launchedPlayer (CONFIG w (JS.float_of_Z h)) p)) = false /\
     Player.velocityY
       (ticks (CONFIG w (JS.float_of_Z h)) k (launchedPlayer (CONFIG w (JS.float_of_Z h)) p))
     = Player.velocityY
         (ticks (CONFIG w (JS.float_of_Z h)) (k - 1) (launchedPlayer (CONFIG w (JS.float_of_Z h)) p))
       + GRAVITY (CONFIG w (JS.float_of_Z h))) /\
  Player.onGround
    (ticks (CONFIG w (JS.float_of_Z h)) 37 (launchedPlayer (CONFIG w (JS.float_of_Z h)) p)) = true /\
  Player.rotation
    (ticks (CONFIG w (JS.float_of_Z h)) 37 (launchedPlayer (CONFIG w (JS.float_of_Z h)) p)) = 0 /\
  Player.velocityY
    (ticks (CONFIG w (JS.float_of_Z h)) 37 (launchedPlayer (CONFIG w (JS.float_of_Z h)) p)) = 0 /\
  Player.y
    (ticks (CONFIG w (JS.float_of_Z h)) 37 (launchedPlayer (CONFIG w (JS.float_of_Z h)) p))
  + Player.height
      (ticks (CONFIG w (JS.float_of_Z h)) 37 (launchedPlayer (CONFIG w (JS.float_of_Z h)) p))
  = CANVAS_HEIGHT (CONFIG w (JS.float_of_Z h)) - GROUND_HEIGHT (CONFIG w (JS.float_of_Z h)).
Proof.
  intros Hh.
  pose proof (Ranges.forallb_zrange _ _ _ jumpScenario_heights h
                ltac:(unfold leastHeight, heightCount; lia)) as H.
  unfold jumpScenario in H. cbv zeta in H.
  set (cfg := CONFIG w (JS.float_of_Z h)).
  set (cfg0 := CONFIG 0 (JS.float_of_Z h)) in H.
  apply andb_true_iff in H. destruct H as [H Hbottom].
  apply andb_true_iff in H. destruct H as [H Hstill].
  apply andb_true_iff in H. destruct H as [H Hlevel].
  apply andb_true_iff in H. destruct H as [H Hlanded].
  apply andb_true_iff in H. destruct H as [H Hair].
  apply andb_true_iff in H. destruct H as [H Hoff].
  apply andb_true_iff in H. destruct H as [Hrest Himpulse].
  apply Ranges.same_eq in Hbottom, Hstill, Hlevel, Himpulse.
  apply negb_true_iff in Hoff.
  pose proof (airborneFor_spec cfg0 36 _ Hair) as Hflight.
  fold (flightBody cfg0) in Hflight. clear Hair.
  assert (B : forall n, body (ticks cfg n (launchedPlayer cfg p)) = flightBody cfg0 n)
    by (intros n; apply body_flight).
  assert (Bo : forall q, Player.onGround q = bodyOnGround (body q)) by reflexivity.
  assert (Bv : forall q, Player.velocityY q = bodyVelocityY (body q)) by reflexivity.
  assert (Br : forall q, Player.rotation q = bodyRotation (body q)) by reflexivity.
  assert (By : forall q, Player.y q = bodyY (body q)) by reflexivity.
  assert (Bh : forall q, Player.height q = bodyHeight (body q)) by reflexivity.
  split; [rewrite Bo, (body_resting cfg p); exact Hrest|].
  split; [rewrite Bv, (body_launched cfg p); exact Himpulse|].
  split; [rewrite Bo, (body_launched cfg p); exact Hoff|].
  split.
  { intros k Hk. rewrite Bo, !Bv, !B. exact (Hflight k Hk). }
  split; [rewrite Bo, B; exact Hlanded|].
  split; [rewrite Br, B; exact Hlevel|].
  split; [rewrite Bv, B; exact Hstill|].
  rewrite By, Bh, B. exact Hbottom.
Qed.

(** The witness of [jump_from_rest_scenario]: a 1280 x 720 window. *)
Lemma jump_from_rest_scenario_witness :
  (274 <= 720 <= 10000)%Z /\
  Player.onGround (restingPlayer (CONFIG 1280 (JS.float_of_Z 720)) (Player.new exampleConfig)) = true.
Proof.
  split; [lia|].
  exact (proj1 (jump_from_rest_scenario 1280 720 (Player.new exampleConfig) ltac:(lia))).
Defined.

(** C4 as stated fails: straight after [reset()] the player's [onGround] is
    false, so [jump()] does nothing and the velocity stays 0. *)
Lemma jump_right_after_reset_does_nothing :
  Player.onGround (Player.reset exampleConfig (Player.new exampleConfig)) = false /\
  Player.velocityY
    (Player.jump exampleConfig (Player.reset exampleConfig (Player.new exampleConfig)))
  <> JUMP_FORCE exampleConfig.
Proof.
  split; [reflexivity|]. apply Ranges.same_neq. vm_compute. reflexivity.
Qed.

(** C5 as stated fails: two unclamped ticks after a launch at -15 the
    velocity is -13.399999999999999, not [-15 + 2 * 0.8 = -13.4]. *)
Lemma velocity_closed_form_fails :
  unclamped exampleConfig (ticks exampleConfig 0 examplePlayer) = true /\
  unclamped exampleConfig (ticks exampleConfig 1 examplePlayer) = true /\
  Player.onGround examplePlayer = false /\
  Player.velocityY (ticks exampleConfig 2 examplePlayer)
  <> closedForm 2 (GRAVITY exampleConfig) (Player.velocityY examplePlayer).
Proof.
  split; [vm_compute; reflexivity|]. split; [vm_compute; reflexivity|].
  split; [vm_compute; reflexivity|]. apply Ranges.same_neq. vm_compute. reflexivity.
Qed.

(** The witness of [velocity_after_unclamped_ticks]: the same two ticks. *)
Lemma velocity_after_unclamped_ticks_witness :
  Player.velocityY (ticks exampleConfig 2 examplePlayer)
  = addTimes 2 (GRAVITY exampleConfig) (Player.velocityY examplePlayer).
Proof.
  apply (velocity_after_unclamped_ticks exampleConfig examplePlayer 2).
  intros k Hk. destruct k as [|[|k]]; [vm_compute; reflexivity|vm_compute; reflexivity|lia].
Defined.

End JumpFacts.

(** ** ObstacleGenerator: spawning *)
Module ObstacleFacts.
Import Binary64 Binary64Facts FloatFacts Props.
Local Open Scope float_scope.

Lemma unit_interval_bounds r :
  JS.unit_interval r -> ffin r = true /\ fle 0 r /\ fle r 1 /\ flt r 1.
Proof.
  intros [H0 H1]. assert (Hle : fle r 1) by now apply flt_fle.
  split; [|now repeat split].
  apply (ffin_between 0 1 r); [reflexivity|reflexivity|exact H0|exact Hle].
Qed.

(** The gap added at a spawn lies in [300, 500]. *)
Lemma spacing_bounds r :
  JS.unit_interval r ->
  fle 300 (spacing r) /\ fle (spacing r) 500 /\ ffin (spacing r) = true.
Proof.
  intros Hr. destruct (unit_interval_bounds r Hr) as [Fr [H0 [H1 _]]].
  unfold spacing. change (500 - 300) with 200.
  assert (F200 : ffin 200 = true) by reflexivity.
  assert (Hp0 : fle 0 (r * 200)).
  { apply (fmul_mono_l 200 0 r F200 ltac:(reflexivity) ltac:(reflexivity) Fr H0). }
  assert (Hp1 : fle (r * 200) 200).
  { apply (fmul_mono_l 200 r 1 F200 ltac:(reflexivity) Fr ltac:(reflexivity) H1). }
  assert (Fp : ffin (r * 200) = true).
  { apply (ffin_between 0 200); [reflexivity|exact F200|exact Hp0|exact Hp1]. }
  assert (Hd0 : fle 300 (300 + r * 200)).
  { apply (fadd_mono_r 300 0 (r * 200) ltac:(reflexivity) ltac:(reflexivity) Fp Hp0). }
  assert (Hd1 : fle (300 + r * 200) 500).
  { apply (fadd_mono_r 300 (r * 200) 200 ltac:(reflexivity) Fp F200 Hp1). }
  split; [exact Hd0|]. split; [exact Hd1|].
  apply (ffin_between 300 500); [reflexivity|reflexivity|exact Hd0|exact Hd1].
Qed.

Lemma catalog_length : JS.array_length ObstacleGenerator.catalog = 13.
Proof. vm_compute. reflexivity. Qed.

Lemma catalog_index z :
  (0 <= z < 13)%Z ->
  exists t, JS.array_get ObstacleGenerator.catalog (JS.float_of_Z z) = Some t.
Proof.
  intros Hz.
  pose proof (Ranges.forallb_zrange
                (fun z => match JS.array_get ObstacleGenerator.catalog (JS.float_of_Z z) with
                          | Some _ => true | None => false end)
                0 13 ltac:(vm_compute; reflexivity) z ltac:(lia)) as H.
  cbv beta in H. destruct (JS.array_get _ _) as [t|]; [now exists t|discriminate].
Qed.

(** A number in [0, 13) floors to an index of the catalog. *)
Lemma catalog_pick v :
  fle 0 v -> flt v 13 ->
  exists t, JS.array_get ObstacleGenerator.catalog (JS.Math_floor v) = Some t.
Proof.
  intros H0 H13. apply fle_iff in H0. destruct H0 as [_ [Nv K0]].
  apply flt_iff in H13. destruct H13 as [_ [_ K13]].
  change (fkey 0) with 0%Z in K0.
  assert (E13 : fkey 13 = (13 * 2 ^ 1074)%Z) by (vm_compute; reflexivity).
  rewrite E13 in K13. clear E13.
  pose proof kmax_lt_kinf as Hkk. pose proof kmax_pos as Hk0.
  pose proof (pow2_pos 1074 ltac:(lia)) as P74.
  assert (P98 : (13 * 2 ^ 1074 < kmax)%Z).
  { unfold kmax. replace 2098%Z with (1024 + 1074)%Z by lia. rewrite Z.pow_add_r by lia.
    assert (13 < 2 ^ 1024)%Z by (apply (Z.lt_le_trans _ (2 ^ 4)); [reflexivity|apply pow2_le; lia]).
    nia. }
  unfold fkey, fnan in *. pose proof (Prim2SF_valid v) as Vv.
  unfold JS.Math_floor, JS.array_get, JS.array_index.
  destruct (Prim2SF v) as [s|s| |s m e] eqn:E.
  - rewrite E. eexists. reflexivity.
  - exfalso. cbn [key] in *. destruct s; cbn [cond_Zopp] in *; lia.
  - discriminate.
  - pose proof (finite_key_bounds _ _ _ Vv) as Bk.
    destruct (valid_finite_bounds _ _ _ Vv) as [He [Hm Hn]].
    cbn [key] in *. destruct s; cbn [cond_Zopp] in *; [exfalso; lia|].
    destruct (Z.leb_spec 0 e) as [Hpos|Hneg].
    + exfalso. specialize (Hn ltac:(lia)).
      pose proof (mul_pow2_le (Zpos m) 52 (e + 1074) Hn ltac:(lia) ltac:(lia)) as Hlow.
      pose proof (pow2_le (52 + 1074) (52 + (e + 1074)) ltac:(lia)) as Hle.
      rewrite (Z.pow_add_r 2 52 1074) in Hle by lia.
      assert (13 < 2 ^ 52)%Z by reflexivity. nia.
    + assert (Hz : (0 <= JS.floorZ false m e < 13)%Z).
      { unfold JS.floorZ. pose proof (pow2_pos (- e) ltac:(lia)) as Pe.
        pose proof (pow2_pos (e + 1074) ltac:(lia)) as Pe'.
        split; [apply Z.div_pos; lia|].
        apply Z.div_lt_upper_bound; [lia|].
        assert (Hsplit : (2 ^ 1074 = 2 ^ (- e) * 2 ^ (e + 1074))%Z).
        { rewrite <- Z.pow_add_r by lia. f_equal. lia. }
        rewrite Hsplit in K13. nia. }
      destruct (catalog_index _ Hz) as [t Ht].
      exists t. exact Ht.
Qed.

(** A random draw scaled by the catalog's length stays in [0, 13). *)
Lemma scaled_draw_bounds r :
  JS.unit_interval r -> fle 0 (r * 13) /\ flt (r * 13) 13.
Proof.
  intros Hr. destruct (unit_interval_bounds r Hr) as [Fr [H0 [_ H1]]].
  assert (F13 : ffin 13 = true) by reflexivity.
  split.
  - apply (fmul_mono_l 13 0 r F13 ltac:(reflexivity) ltac:(reflexivity) Fr H0).
  - apply (fle_flt_trans _ (belowOne * 13)); [|reflexivity].
    apply (fmul_mono_l 13 r belowOne F13 ltac:(reflexivity) Fr ltac:(reflexivity)).
    now apply flt_one_belowOne.
Qed.

Lemma array_last_snoc {A : Type} (l : list A) (a : A) : JS.array_last (l ++ [a]) = Some a.
Proof.
  induction l as [|b l IH]; [reflexivity|].
  cbn [app JS.array_last]. destruct (l ++ [a]) eqn:E; [now destruct l|exact IH].
Qed.

Lemma array_last_In {A : Type} (l : list A) (a : A) : JS.array_last l = Some a -> In a l.
Proof.
  induction l as [|b l IH]; [discriminate|].
  cbn [JS.array_last]. destruct l as [|c l].
  - intros [= ->]. now left.
  - intros H. right. now apply IH.
Qed.

(** An obstacle that survives the cull has a position that is not NaN. *)
Lemma scrolled_position obs gameSpeed l :
  In l (ObstacleGenerator.scrolled obs gameSpeed) -> fnan (Obstacle.x l) = false.
Proof.
  unfold ObstacleGenerator.scrolled. intros H. apply filter_In in H. destruct H as [_ H].
  apply ltb_nonnan in H. destruct H as [_ H].
  destruct (fnan (Obstacle.x l)) eqn:N; [|reflexivity].
  now rewrite (fadd_nan_l _ (Obstacle.width l) N) in H.
Qed.

(** With draws in [0, 1) and the script's catalog, [generateObstacle] never
    throws: it appends one obstacle at [spawnX], a gap of [spacing r] past the
    last one, [r] being the next random draw. *)
Lemma generateObstacle_appends cfg g gameSpeed distance rnd :
  JS.well_formed rnd ->
  ObstacleGenerator.obstacleTypes g = ObstacleGenerator.catalog ->
  exists g' rnd' o,
    ObstacleGenerator.generateObstacle cfg g gameSpeed distance rnd = Some (g', rnd') /\
    ObstacleGenerator.obstacles g' = ObstacleGenerator.obstacles g ++ [o] /\
    Obstacle.x o =
      ObstacleGenerator.spawnX cfg (ObstacleGenerator.obstacles g)
        (spacing (JS.draws rnd (JS.cursor rnd))) /\
    ObstacleGenerator.obstacleTypes g' = ObstacleGenerator.catalog /\
    JS.draws rnd' = JS.draws rnd.
Proof.
  intros Hwf Htypes.
  destruct (scaled_draw_bounds _ (Hwf (S (JS.cursor rnd)))) as [Hlo Hhi].
  destruct (catalog_pick _ Hlo Hhi) as [t Ht].
  unfold ObstacleGenerator.generateObstacle.
  cbv beta iota zeta delta [JS.Math_random JS.draws JS.cursor].
  fold (JS.draws rnd) (JS.cursor rnd).
  rewrite Htypes, catalog_length, Ht.
  destruct (Template.ground t); do 3 eexists;
    (split; [reflexivity|]); cbn [ObstacleGenerator.obstacles ObstacleGenerator.obstacleTypes Obstacle.x JS.draws];
    repeat split; try reflexivity; exact Htypes.
Qed.

(** C1, as the code has it.  With [Math.random()] in [0, 1) and the
    script's catalog, an [update] never throws, and what it does after the
    scroll and the cull is decided by the last obstacle left.  With none
    left it spawns one obstacle at [CANVAS_WIDTH + 200].  With a last
    obstacle left of [CANVAS_WIDTH] it spawns one at the binary64 sum of that
    obstacle's position and the gap [300 + r * 200], [r] the next random
    draw: the gap lies in [300, 500], and the spawn is not below the rounded
    sum of the position and 300.  Otherwise it spawns nothing and draws no
    random number. *)
Theorem spawn_spacing (cfg : Config) (g : ObstacleGenerator.t)
    (gameSpeed distance : float) (rnd : JS.Random) :
  JS.well_formed rnd ->
  ObstacleGenerator.obstacleTypes g = ObstacleGenerator.catalog ->
  exists g' rnd',
    ObstacleGenerator.update cfg g gameSpeed distance rnd = Some (g', rnd') /\
    fle 300 (spacing (JS.draws rnd (JS.cursor rnd))) /\
    fle (spacing (JS.draws rnd (JS.cursor rnd))) 500 /\
    match JS.array_last (ObstacleGenerator.scrolled (ObstacleGenerator.obstacles g) gameSpeed) with
    | None =>
        exists o,
          ObstacleGenerator.obstacles g' = [o] /\
          Obstacle.x o = CANVAS_WIDTH cfg + 200
    | Some l =>
        if Obstacle.x l <? CANVAS_WIDTH cfg then
          exists o,
            ObstacleGenerator.obstacles g'
            = ObstacleGenerator.scrolled (ObstacleGenerator.obstacles g) gameSpeed ++ [o] /\
            Obstacle.x o = Obstacle.x l + spacing (JS.draws rnd (JS.cursor rnd)) /\
            fle (Obstacle.x l + 300) (Obstacle.x o)
        else
          ObstacleGenerator.obstacles g'
          = ObstacleGenerator.scrolled (ObstacleGenerator.obstacles g) gameSpeed /\
          rnd' = rnd
    end.
Proof.
  intros Hwf Htypes. unfold ObstacleGenerator.update, ObstacleGenerator.spawns.
  cbn [ObstacleGenerator.obstacles].
  set (kept := ObstacleGenerator.scrolled (ObstacleGenerator.obstacles g) gameSpeed).
  destruct (spacing_bounds _ (Hwf (JS.cursor rnd))) as [H300 [H500 Fgap]].
  destruct (generateObstacle_appends cfg
              {| ObstacleGenerator.obstacles := kept;
                 ObstacleGenerator.nextObstacleX := ObstacleGenerator.nextObstacleX g;
                 ObstacleGenerator.obstacleTypes := ObstacleGenerator.obstacleTypes g |}
              gameSpeed distance rnd Hwf Htypes)
    as [g' [rnd' [o [Hgen [Hobs [Hx _]]]]]].
  cbn [ObstacleGenerator.obstacles] in Hobs, Hx.
  unfold ObstacleGenerator.spawnX in Hx.
  destruct (JS.array_last kept) as [l|] eqn:Hl.
  - destruct (Obstacle.x l <? CANVAS_WIDTH cfg).
    + exists g', rnd'. split; [exact Hgen|]. split; [exact H300|]. split; [exact H500|].
      exists o. split; [exact Hobs|]. split; [exact Hx|]. rewrite Hx.
      apply fadd_mono_r_any; [|reflexivity|exact Fgap|exact H300].
      apply (scrolled_position (ObstacleGenerator.obstacles g) gameSpeed).
      now apply array_last_In.
    + do 2 eexists. split; [reflexivity|]. split; [exact H300|]. split; [exact H500|].
      now split.
  - exists g', rnd'. split; [exact Hgen|]. split; [exact H300|]. split; [exact H500|].
    exists o. split; [|exact Hx].
    assert (Hk : kept = []).
    { destruct kept as [|a k]; [reflexivity|exfalso].
      clear -Hl. revert a Hl. induction k as [|b k IH]; intros a Hl; [discriminate|].
      now apply (IH b). }
    rewrite Hobs, Hk. reflexivity.
Qed.

(** The witness of [spawn_spacing]: a generator whose only obstacle the
    update moves from 1480 to 1180, left of the right edge at 1280; every
    draw 0.5, so the gap is 400 and the spawn stands at 1580. *)
Lemma spawn_spacing_witness :
  exists g' rnd',
    ObstacleGenerator.update exampleConfig exampleGenerator 300 0
      {| JS.draws := fun _ => 0.5; JS.cursor := 0 |} = Some (g', rnd') /\
    map Obstacle.x (ObstacleGenerator.obstacles g') = [1180; 1580].
Proof.
  destruct (spawn_spacing exampleConfig exampleGenerator 300 0
              {| JS.draws := fun _ => 0.5; JS.cursor := 0 |}
              (fun _ => conj eq_refl eq_refl) eq_refl) as [g' [rnd' [Hu [_ [_ H]]]]].
  exists g', rnd'. split; [exact Hu|].
  assert (Ek : map Obstacle.x
                 (ObstacleGenerator.scrolled (ObstacleGenerator.obstacles exampleGenerator) 300)
               = [1180]) by (vm_compute; reflexivity).
  destruct (JS.array_last
              (ObstacleGenerator.scrolled (ObstacleGenerator.obstacles exampleGenerator) 300))
    as [l|] eqn:El; [|vm_compute in El; discriminate El].
  assert (Exl : Obstacle.x l = 1180) by (vm_compute in El; now injection El as <-).
  rewrite Exl in H. change (1180 <? CANVAS_WIDTH exampleConfig) with true in H.
  destruct H as [o [Ho [Hx _]]].
  rewrite Ho, map_app, Ek. cbn [map app]. rewrite Hx. reflexivity.
Defined.

(** C1 as stated fails: the distance between two consecutive spawns can be
    less than 300.  On an 855 x 600 canvas with every draw 0, the 41st frame
    of a run finds the only obstacle at 854.1376995159859, left of the right
    edge, and spawns the next at the rounded sum with 300,
    1154.1376995159858: the two stand [300 - 2^-43] apart. *)
Lemma spawn_closer_than_300 :
  Game.reachable gapWorld /\
  Game.state (Game.game gapWorld) = PLAYING /\
  List.length (ObstacleGenerator.obstacles (Game.obstacleGenerator (Game.game gapWorld))) = 1%nat /\
  map Obstacle.x
    (ObstacleGenerator.obstacles (Game.obstacleGenerator (Game.game (afterFrame gapWorld))))
  = [854.1376995159859; 1154.1376995159858] /\
  1154.1376995159858 = 854.1376995159859 + spacing 0 /\
  (fkey 1154.1376995159858 - fkey 854.1376995159859 < fkey 300)%Z /\
  flt (1154.1376995159858 - 854.1376995159859) 300.
Proof.
  split.
  { unfold gapWorld, afterFrames. generalize 40%nat. intros n.
    induction n as [|n IH].
    - unfold startedWorld.
      eapply (Game.reachable_dispatch _ Game.ClickStart); [apply Game.reachable_new|reflexivity].
    - rewrite Nat.iter_succ. unfold afterFrame at 1.
      destruct (Game.gameLoop _) as [w'|] eqn:E; [|exact IH].
      exact (Game.reachable_dispatch _ Game.AnimationFrame w' IH E). }
  split; [vm_compute; reflexivity|]. split; [vm_compute; reflexivity|].
  split; [vm_compute; reflexivity|].
  split; [apply Ranges.same_eq; vm_compute; reflexivity|].
  split; vm_compute; reflexivity.
Qed.

End ObstacleFacts.

(** ** Game: distance, speed and score along a run *)
Module TrajectoryFacts.
Import Binary64 Binary64Facts FloatFacts Props.
Local Open Scope float_scope.

(** From distance 2500 on, the speed is the cap. *)
Lemma speedFor_capped d : fle 2500 d -> fle d maxFloat -> Game.speedFor d = 10.
Proof.
  intros Hlo Hhi.
  assert (F500 : ffin 500 = true) by reflexivity.
  assert (Fd : ffin d = true).
  { apply (ffin_between 2500 maxFloat); [reflexivity|reflexivity|exact Hlo|exact Hhi]. }
  assert (Hq : fle 5 (d / 500)).
  { apply (fdiv_mono_l 500 2500 d F500 ltac:(reflexivity) ltac:(reflexivity) Fd Hlo). }
  assert (Hq' : fle (d / 500) (maxFloat / 500)).
  { apply (fdiv_mono_l 500 d maxFloat F500 ltac:(reflexivity) Fd ltac:(reflexivity) Hhi). }
  assert (Fq : ffin (d / 500) = true).
  { apply (ffin_between 5 (maxFloat / 500)); [reflexivity|reflexivity|exact Hq|exact Hq']. }
  assert (Ha : fle 10 (5 + d / 500)).
  { apply (fadd_mono_r 5 5 (d / 500) ltac:(reflexivity) ltac:(reflexivity) Fq Hq). }
  apply fle_iff in Ha. destruct Ha as [_ [Na Ka]].
  assert (K10 : (0 < fkey 10)%Z) by (vm_compute; reflexivity).
  unfold Game.speedFor, JS.Math_min. rewrite !is_nan_fnan, Na.
  change (fnan 10) with false. cbn [orb].
  rewrite (ltb_fkey _ 10 Na eq_refl).
  destruct (Z.ltb_spec (fkey (5 + d / 500)) (fkey 10)); [lia|].
  rewrite (ltb_fkey 10 _ eq_refl Na).
  destruct (Z.ltb_spec (fkey 10) (fkey (5 + d / 500))); [reflexivity|].
  unfold JS.is_neg_zero. rewrite (eqb_fkey _ 0 Na eq_refl). change (fkey 0) with 0%Z.
  destruct (Z.eqb_spec (fkey (5 + d / 500)) 0); [lia|reflexivity].
Qed.

(** At the cap a tick adds exactly 1 to the distance, which never
    decreases and stays finite. *)
Lemma capped_step d :
  fle 2500 d -> fle d maxFloat ->
  fle d (fst (advance (d, 10))) /\
  fle 2500 (fst (advance (d, 10))) /\
  fle (fst (advance (d, 10))) maxFloat /\
  snd (advance (d, 10)) = 10.
Proof.
  intros Hlo Hhi. cbn [advance fst snd]. change (10 * 0.1) with 1.
  assert (Fd : ffin d = true).
  { apply (ffin_between 2500 maxFloat); [reflexivity|reflexivity|exact Hlo|exact Hhi]. }
  assert (H1 : fle d (d + 1)).
  { apply (fadd_nonneg_le d 1 Fd ltac:(reflexivity) ltac:(reflexivity)). }
  assert (H2 : fle (d + 1) maxFloat).
  { apply (fadd_mono_l 1 d maxFloat ltac:(reflexivity) Fd ltac:(reflexivity) Hhi). }
  assert (H3 : fle 2500 (d + 1)) by (eapply fle_trans; eassumption).
  repeat split; auto. now apply speedFor_capped.
Qed.

Lemma capped_run n ds :
  fle 2500 (fst ds) /\ fle (fst ds) maxFloat /\ snd ds = 10 ->
  fle 2500 (fst (Nat.iter n advance ds)) /\
  fle (fst (Nat.iter n advance ds)) maxFloat /\
  snd (Nat.iter n advance ds) = 10.
Proof.
  intros H. induction n as [|n IH]; [exact H|].
  rewrite Nat.iter_succ. destruct (Nat.iter n advance ds) as [d s].
  cbn [fst snd] in IH. destruct IH as [Hlo [Hhi ->]].
  destruct (capped_step d Hlo Hhi) as [_ [H1 [H2 H3]]]. auto.
Qed.

Lemma belowCap_spec n ds :
  belowCap n ds = true ->
  forall k, (k < n)%nat ->
    fle 0 (fst (Nat.iter k advance ds)) /\
    flt (fst (Nat.iter k advance ds)) 2500 /\
    flt (snd (Nat.iter k advance ds)) 10 /\
    fle (fst (Nat.iter k advance ds)) (fst (advance (Nat.iter k advance ds))).
Proof.
  revert ds. induction n as [|n IH]; intros ds H k Hk; [lia|].
  cbn [belowCap] in H.
  apply andb_true_iff in H. destruct H as [H Hrest].
  apply andb_true_iff in H. destruct H as [H Hmono].
  apply andb_true_iff in H. destruct H as [H Hs].
  apply andb_true_iff in H. destruct H as [H0 Hd].
  destruct k as [|k].
  - cbn [Nat.iter nat_rect]. unfold fle, flt. auto.
  - rewrite Nat.iter_succ_r. apply (IH (advance ds) Hrest k). lia.
Qed.

(** The run from a start, checked tick by tick up to the cap. *)
Lemma belowCap_start : belowCap capTick (0, 5) = true.
Proof. vm_compute. reflexivity. Qed.

Lemma trajectory_at_cap :
  fle 2500 (fst (trajectory capTick)) /\
  fle (fst (trajectory capTick)) maxFloat /\
  snd (trajectory capTick) = 10.
Proof.
  split; [vm_compute; reflexivity|]. split; [vm_compute; reflexivity|].
  apply Ranges.same_eq. vm_compute. reflexivity.
Qed.

(** Every point of the trajectory: the distance is non-negative, finite and
    not decreased by the next tick; the speed is under 10 below distance 2500
    and is 10 from 2500 on. *)
Theorem trajectory_facts k d s :
  trajectory k = (d, s) ->
  fle 0 d /\ fle d maxFloat /\ fle d (fst (advance (d, s))) /\
  (flt d 2500 -> flt s 10) /\ (fle 2500 d -> s = 10).
Proof.
  intros E. destruct (Nat.lt_ge_cases k capTick) as [Hlt|Hge].
  - destruct (belowCap_spec capTick (0, 5) belowCap_start k Hlt) as [H0 [Hd [Hs Hm]]].
    fold (trajectory k) in H0, Hd, Hs, Hm. rewrite E in H0, Hd, Hs, Hm.
    cbn [fst snd] in H0, Hd, Hs. repeat split; auto.
    + apply flt_fle. apply (flt_fle_trans _ 2500); [exact Hd|reflexivity].
    + intros H. exfalso. apply flt_iff in Hd. apply fle_iff in H. lia.
  - assert (Ek : trajectory k = Nat.iter (k - capTick) advance (trajectory capTick)).
    { unfold trajectory. rewrite <- Nat.iter_add. f_equal. lia. }
    pose proof (capped_run (k - capTick) (trajectory capTick) trajectory_at_cap) as H.
    rewrite <- Ek, E in H. cbn [fst snd] in H. destruct H as [Hlo [Hhi ->]].
    destruct (capped_step d Hlo Hhi) as [Hm _].
    repeat split; auto.
    + apply (fle_trans _ 2500); [reflexivity|exact Hlo].
    + intros H. exfalso. apply flt_iff in H. apply fle_iff in Hlo. lia.
Qed.

(** No finite double is above the largest one. *)
Lemma ffin_le_max d : ffin d = true -> fle d maxFloat.
Proof.
  intros F. apply fle_iff. split; [now apply ffin_fnan|]. split; [reflexivity|].
  assert (Em : fkey maxFloat = ((2 ^ 53 - 1) * 2 ^ 2045)%Z) by (vm_compute; reflexivity).
  rewrite Em. clear Em.
  pose proof (pow2_pos 2045 ltac:(lia)) as P.
  assert (P53 : (1 < 2 ^ 53)%Z) by reflexivity.
  unfold fkey, ffin in *. pose proof (Prim2SF_valid d) as V.
  assert (Hpos : (0 <= (2 ^ 53 - 1) * 2 ^ 2045)%Z) by (apply Z.mul_nonneg_nonneg; lia).
  destruct (Prim2SF d) as [s|s| |s m e]; [exact Hpos|discriminate|discriminate|].
  cbn [key]. destruct (valid_finite_bounds _ _ _ V) as [He [Hm _]].
  pose proof (pow2_pos (e + 1074) ltac:(lia)) as Pe.
  pose proof (pow2_le (e + 1074) 2045 ltac:(lia)) as Ple.
  assert (Hx : (Zpos m * 2 ^ (e + 1074) <= (2 ^ 53 - 1) * 2 ^ 2045)%Z).
  { apply Z.mul_le_mono_nonneg; lia. }
  assert (Hy : (0 <= Zpos m * 2 ^ (e + 1074))%Z) by (apply Z.mul_nonneg_nonneg; lia).
  destruct s; cbn [cond_Zopp]; lia.
Qed.

(** From distance 2500 on the speed is the cap, whatever the distance. *)
Lemma speedFor_capped_any d : fle 2500 d -> Game.speedFor d = 10.
Proof.
  intros H. destruct (ffin d) eqn:F.
  - apply speedFor_capped; [exact H|now apply ffin_le_max].
  - apply fle_iff in H. destruct H as [_ [N K]].
    assert (K25 : (0 < fkey 2500)%Z) by (vm_compute; reflexivity).
    assert (E : Prim2SF d = S754_infinity false).
    { unfold fkey, fnan, ffin in *. pose proof kmax_pos. pose proof kmax_lt_kinf.
      destruct (Prim2SF d) as [s|s| |s m e]; try discriminate.
      destruct s; [cbn [key cond_Zopp] in K; unfold kinf in *; lia|reflexivity]. }
    rewrite <- (FloatAxioms.SF2Prim_Prim2SF d), E.
    apply Ranges.same_eq. vm_compute. reflexivity.
Qed.

(** Up to the second double below 2500 the speed is under the cap. *)
Lemma speedFor_below_cap d : fle 0 d -> fle d nearCap -> flt (Game.speedFor d) 10.
Proof.
  intros H0 Hn.
  assert (F500 : ffin 500 = true) by reflexivity.
  assert (Fd : ffin d = true).
  { apply (ffin_between 0 nearCap); [reflexivity|reflexivity|exact H0|exact Hn]. }
  assert (Hq : fle 0 (d / 500)).
  { apply (fdiv_mono_l 500 0 d F500 ltac:(reflexivity) ltac:(reflexivity) Fd H0). }
  assert (Hq' : fle (d / 500) (nearCap / 500)).
  { apply (fdiv_mono_l 500 d nearCap F500 ltac:(reflexivity) Fd ltac:(reflexivity) Hn). }
  assert (Fq : ffin (d / 500) = true).
  { apply (ffin_between 0 (nearCap / 500)); [reflexivity|reflexivity|exact Hq|exact Hq']. }
  assert (Ha : fle (5 + d / 500) (5 + nearCap / 500)).
  { apply (fadd_mono_r 5 (d / 500) (nearCap / 500) ltac:(reflexivity) Fq ltac:(reflexivity) Hq'). }
  assert (Hlt : flt (5 + d / 500) 10).
  { apply (fle_flt_trans _ (5 + nearCap / 500)); [exact Ha|reflexivity]. }
  pose proof Hlt as Hlt'. apply flt_iff in Hlt'. destruct Hlt' as [Na [_ K]].
  unfold Game.speedFor, JS.Math_min. rewrite !is_nan_fnan, Na.
  change (fnan 10) with false. cbn [orb].
  rewrite (ltb_fkey _ 10 Na eq_refl).
  destruct (Z.ltb_spec (fkey (5 + d / 500)) (fkey 10)); [exact Hlt|lia].
Qed.


End TrajectoryFacts.

(** ** Game: the orchestrator *)
Module GameFacts.
Import Binary64 FloatFacts Props TrajectoryFacts.
Local Open Scope float_scope.

Lemma invariant_carriesOn w w' : invariant w -> carriesOn w w' -> invariant w'.
Proof.
  unfold invariant, onTrajectory, scoreFollows, carriesOn.
  intros [[k Hk] Hs] [-> [-> ->]]. split; [now exists k|exact Hs].
Qed.

Lemma invariant_restarts w' : restarts w' -> invariant w'.
Proof.
  unfold invariant, onTrajectory, scoreFollows, restarts.
  intros [-> [-> ->]]. split; [now exists 0%nat|reflexivity].
Qed.

Lemma invariant_new iw ih stored rnd : invariant (Game.new iw ih stored rnd).
Proof. apply invariant_restarts. repeat split. Qed.

Lemma invariant_startGame w : invariant (Game.startGame w).
Proof. apply invariant_restarts. repeat split. Qed.

Lemma invariant_pauseGame w : invariant w -> invariant (Game.pauseGame w).
Proof.
  intros H. unfold Game.pauseGame.
  destruct (Game.state (Game.game w)); exact H.
Qed.

Lemma invariant_resumeGame w : invariant w -> invariant (Game.resumeGame w).
Proof.
  intros H. unfold Game.resumeGame.
  destruct (Game.state (Game.game w)); exact H.
Qed.

Lemma invariant_showMenu w : invariant w -> invariant (Game.showMenu w).
Proof. intros H. apply (invariant_carriesOn w); [exact H|repeat split]. Qed.

Lemma invariant_playerJump w : invariant w -> invariant (Game.playerJump w).
Proof. intros H. apply (invariant_carriesOn w); [exact H|repeat split]. Qed.

Lemma invariant_setJumping w b : invariant w -> invariant (Game.setJumping w b).
Proof. intros H. apply (invariant_carriesOn w); [exact H|repeat split]. Qed.

Lemma invariant_setMouseDown w b : invariant w -> invariant (Game.setMouseDown w b).
Proof. intros H. apply (invariant_carriesOn w); [exact H|repeat split]. Qed.

Lemma invariant_resize iw ih w : invariant w -> invariant (Game.resize iw ih w).
Proof. intros H. apply (invariant_carriesOn w); [exact H|repeat split]. Qed.

Lemma gameOver_carriesOn w : carriesOn w (Game.gameOver w).
Proof.
  unfold Game.gameOver. destruct (Game.explosion _ _ _ _ _). repeat split.
Qed.

Lemma gameOver_state w : Game.state (Game.game (Game.gameOver w)) = GAME_OVER.
Proof. unfold Game.gameOver. destruct (Game.explosion _ _ _ _ _). reflexivity. Qed.

Lemma draw_game w : Game.game (Game.draw w) = Game.game w.
Proof.
  unfold Game.draw. destruct (Game.state (Game.game w)); try reflexivity;
    destruct (Camera.getShakeOffset _ _); reflexivity.
Qed.

Create HintDb game.

#[local] Hint Resolve invariant_startGame invariant_pauseGame invariant_resumeGame
  invariant_showMenu invariant_playerJump invariant_setJumping invariant_setMouseDown
  invariant_resize : game.

Lemma invariant_keydown code w : invariant w -> invariant (Game.keydown code w).
Proof.
  intros H. unfold Game.keydown.
  repeat match goal with
         | |- context [if ?b then _ else _] => destruct b
         | |- context [match Game.state ?g with _ => _ end] => destruct (Game.state g)
         end; auto 6 with game.
Qed.

Lemma invariant_keyup code w : invariant w -> invariant (Game.keyup code w).
Proof. intros H. unfold Game.keyup. destruct (String.eqb _ _); auto with game. Qed.

Lemma invariant_handleJump w : invariant w -> invariant (Game.handleJump w).
Proof.
  intros H. unfold Game.handleJump. destruct (Game.state (Game.game w)); auto with game.
Qed.

(** What a Playing-state [update()] that does not throw leaves behind. *)
Lemma update_playing w w' :
  Game.state (Game.game w) = PLAYING -> Game.update w = Some w' ->
  exists generator1 rnd,
    ObstacleGenerator.update (Game.config w) (Game.obstacleGenerator (Game.game w))
      (Game.speedFor (Game.distance (Game.game w) + Game.gameSpeed (Game.game w) * 0.1))
      (Game.distance (Game.game w) + Game.gameSpeed (Game.game w) * 0.1)
      (Game.random w) = Some (generator1, rnd) /\
    Game.distance (Game.game w')
      = Game.distance (Game.game w) + Game.gameSpeed (Game.game w) * 0.1 /\
    Game.gameSpeed (Game.game w') = Game.speedFor (Game.distance (Game.game w')) /\
    Game.score (Game.game w') = JS.Math_floor (Game.distance (Game.game w') / 10) /\
    (Game.state (Game.game w') = GAME_OVER /\
     ObstacleGenerator.checkCollision generator1
       (fst (Player.update (Game.config w) (Game.player (Game.game w)))) = true
     \/
     Game.state (Game.game w') = PLAYING /\
     ObstacleGenerator.checkCollision generator1
       (fst (Player.update (Game.config w) (Game.player (Game.game w)))) = false).
Proof.
  intros Hs. unfold Game.update. rewrite Hs.
  pose proof (PlayerFacts.update_returns_alive (Game.config w) (Game.player (Game.game w))) as Ha.
  destruct (Player.update (Game.config w) (Game.player (Game.game w))) as [player1 playerState].
  cbn [fst snd] in *. subst playerState. cbn [String.eqb Ascii.eqb Bool.eqb].
  destruct (ObstacleGenerator.update _ _ _ _ _) as [[generator1 rnd]|]; [|discriminate].
  destruct (ObstacleGenerator.checkCollision generator1 player1) eqn:Hc.
  - match goal with |- Some (Game.gameOver ?v) = _ -> _ =>
      pose proof (gameOver_carriesOn v) as Hco;
      pose proof (gameOver_state v) as Hst;
      revert Hco Hst; generalize (Game.gameOver v)
    end.
    intros wo [Hd [Hv Hsc]] Hst E.
    assert (Hw : wo = w') by congruence. subst w'.
    exists generator1, rnd. rewrite Hd, Hv, Hsc, Hst.
    cbn [Game.game Game.distance Game.gameSpeed Game.score].
    split; [reflexivity|]. split; [reflexivity|]. split; [reflexivity|].
    split; [reflexivity|]. left. split; [reflexivity|exact Hc].
  - intros E.
    match type of E with Some ?v = _ => assert (Hw : v = w') by congruence end.
    subst w'. exists generator1, rnd.
    cbn [Game.game Game.with_game Game.distance Game.gameSpeed Game.score Game.state].
    split; [reflexivity|]. split; [reflexivity|]. split; [reflexivity|].
    split; [reflexivity|]. right. split; [reflexivity|exact Hc].
Qed.

Lemma update_not_playing w :
  Game.state (Game.game w) <> PLAYING -> Game.update w = Some w.
Proof. unfold Game.update. destruct (Game.state (Game.game w)); congruence. Qed.

Lemma invariant_update w w' : invariant w -> Game.update w = Some w' -> invariant w'.
Proof.
  intros [[k Hk] Hsc] Hu.
  destruct (GameState_eqb (Game.state (Game.game w)) PLAYING) eqn:Hs.
  - assert (Hp : Game.state (Game.game w) = PLAYING)
      by (destruct (Game.state (Game.game w)); try discriminate; reflexivity).
    destruct (update_playing w w' Hp Hu) as [g1 [rnd [_ [Hd [Hv [Hscore _]]]]]].
    split; [|exact Hscore].
    exists (S k). unfold trajectory in *. rewrite Nat.iter_succ, <- Hk.
    cbn [advance]. now rewrite Hv, Hd.
  - rewrite update_not_playing in Hu by (intros E; rewrite E in Hs; discriminate).
    injection Hu as <-. split; [now exists k|exact Hsc].
Qed.

Lemma invariant_draw w : invariant w -> invariant (Game.draw w).
Proof.
  intros H. apply (invariant_carriesOn w); auto.
  unfold carriesOn. rewrite draw_game. repeat split.
Qed.

(** Distance, speed and score of every reachable world: a point of the
    trajectory, with the score the floor of a tenth of the distance. *)
Lemma reachable_invariant w : Game.reachable w -> invariant w.
Proof.
  induction 1 as [iw ih stored rnd|w ev w' _ IH Hd]; [apply invariant_new|].
  destruct ev; cbn [Game.dispatch] in Hd.
  - assert (E : Game.keydown code w = w') by congruence. subst w'.
    now apply invariant_keydown.
  - assert (E : Game.keyup code w = w') by congruence. subst w'.
    now apply invariant_keyup.
  - assert (E : Game.handleJump w = w') by congruence. subst w'.
    now apply invariant_handleJump.
  - assert (E : Game.handleRelease w = w') by congruence. subst w'.
    now apply invariant_setMouseDown.
  - assert (E : Game.startGame w = w') by congruence. subst w'.
    apply invariant_startGame.
  - assert (E : Game.pauseGame w = w') by congruence. subst w'.
    now apply invariant_pauseGame.
  - assert (E : Game.resumeGame w = w') by congruence. subst w'.
    now apply invariant_resumeGame.
  - assert (E : Game.showMenu w = w') by congruence. subst w'.
    now apply invariant_showMenu.
  - unfold Game.gameLoop in Hd. destruct (Game.update w) as [w1|] eqn:Hu; [|discriminate].
    assert (E : Game.draw w1 = w') by congruence. subst w'.
    apply invariant_draw. now apply (invariant_update w).
  - assert (E : Game.resize innerWidth innerHeight w = w') by congruence. subst w'.
    now apply invariant_resize.
  - assert (E : w = w') by congruence. now subst w'.
Qed.

(** C3. In every reachable world the score is the floor of a tenth of the
    distance; an [update()] does not decrease the distance in the Playing
    state, and leaves it as it is in the Menu, Paused and GameOver states. *)
Theorem score_follows_distance (w : Game.World) :
  Game.reachable w ->
  Game.score (Game.game w) = JS.Math_floor (Game.distance (Game.game w) / 10) /\
  forall w', Game.update w = Some w' ->
    (Game.state (Game.game w) = PLAYING ->
     fle (Game.distance (Game.game w)) (Game.distance (Game.game w'))) /\
    (Game.state (Game.game w) <> PLAYING ->
     Game.distance (Game.game w') = Game.distance (Game.game w)).
Proof.
  intros Hr. destruct (reachable_invariant w Hr) as [[k Hk] Hsc].
  split; [exact Hsc|]. intros w' Hu. split.
  - intros Hp. destruct (update_playing w w' Hp Hu) as [_ [_ [_ [Hd _]]]].
    rewrite Hd. symmetry in Hk.
    destruct (trajectory_facts k _ _ Hk) as [_ [_ [Hm _]]]. exact Hm.
  - intros Hn. rewrite (update_not_playing w Hn) in Hu. now injection Hu as <-.
Qed.

(** C8. A Playing-state [update()] that returns adds a tenth of the speed to
    the distance and sets the speed to [min(5 + distance / 500, 10)] of the
    new distance, for every world.  So the speed is exactly 10 once the
    distance is 2500 or more, and under 10 for every distance from 0 to the
    second double below 2500; in a reachable world it is under 10 for every
    distance below 2500. *)
Theorem speed_capped_from_2500 (w w' : Game.World) :
  Game.state (Game.game w) = PLAYING ->
  Game.update w = Some w' ->
  Game.distance (Game.game w')
    = Game.distance (Game.game w) + Game.gameSpeed (Game.game w) * 0.1 /\
  Game.gameSpeed (Game.game w')
    = JS.Math_min (5 + Game.distance (Game.game w') / 500) 10 /\
  (fle 2500 (Game.distance (Game.game w')) -> Game.gameSpeed (Game.game w') = 10) /\
  (fle 0 (Game.distance (Game.game w')) -> fle (Game.distance (Game.game w')) nearCap ->
   flt (Game.gameSpeed (Game.game w')) 10) /\
  (Game.reachable w ->
   flt (Game.distance (Game.game w')) 2500 -> flt (Game.gameSpeed (Game.game w')) 10).
Proof.
  intros Hp Hu.
  destruct (update_playing w w' Hp Hu) as [_ [_ [_ [Hd [Hv _]]]]].
  split; [exact Hd|]. split; [exact Hv|]. split; [|split].
  - intros H. rewrite Hv. now apply speedFor_capped_any.
  - intros H0 Hn. rewrite Hv. now apply speedFor_below_cap.
  - intros Hr Hlt.
    destruct (invariant_update w w' (reachable_invariant w Hr) Hu) as [[k Hk] _].
    symmetry in Hk. destruct (trajectory_facts k _ _ Hk) as [_ [_ [_ [H _]]]].
    now apply H.
Qed.

(** C10. [Player.update] always returns ['alive'], so the orchestrator's
    test for ['death'] never succeeds; when a Playing-state [update()] ends
    in GameOver, the collision check on the frame's obstacles and the updated
    player was true. *)
Theorem death_only_by_collision :
  (forall cfg p, snd (Player.update cfg p) = "alive"%string) /\
  (forall cfg p, String.eqb (snd (Player.update cfg p)) "death" = false) /\
  (forall w w',
     Game.state (Game.game w) = PLAYING -> Game.update w = Some w' ->
     Game.state (Game.game w') = GAME_OVER ->
     exists generator1 rnd,
       ObstacleGenerator.update (Game.config w) (Game.obstacleGenerator (Game.game w))
         (Game.speedFor (Game.distance (Game.game w) + Game.gameSpeed (Game.game w) * 0.1))
         (Game.distance (Game.game w) + Game.gameSpeed (Game.game w) * 0.1)
         (Game.random w) = Some (generator1, rnd) /\
       ObstacleGenerator.checkCollision generator1
         (fst (Player.update (Game.config w) (Game.player (Game.game w)))) = true).
Proof.
  split; [exact PlayerFacts.update_returns_alive|]. split.
  - intros cfg p. now rewrite PlayerFacts.update_returns_alive.
  - intros w w' Hp Hu Hover.
    destruct (update_playing w w' Hp Hu) as [g1 [rnd [Hg [_ [_ [_ [[_ Hc]|[Hs _]]]]]]]].
    + now exists g1, rnd.
    + congruence.
Qed.

(** One frame of the example world, as a reachable Playing-state update. *)
Lemma exampleWorld_reachable : Game.reachable exampleWorld.
Proof.
  unfold exampleWorld.
  eapply (Game.reachable_dispatch _ Game.ClickStart); [apply Game.reachable_new|reflexivity].
Defined.

Lemma exampleWorld_update : Game.update exampleWorld = Some (afterUpdate exampleWorld).
Proof. vm_compute. reflexivity. Defined.

(** The witness of [score_follows_distance]. *)
Lemma score_follows_distance_witness :
  Game.score (Game.game exampleWorld)
  = JS.Math_floor (Game.distance (Game.game exampleWorld) / 10).
Proof. exact (proj1 (score_follows_distance exampleWorld exampleWorld_reachable)). Defined.

Lemma afterFrame_reachable w : Game.reachable w -> Game.reachable (afterFrame w).
Proof.
  intros H. unfold afterFrame. destruct (Game.gameLoop w) as [w'|] eqn:E; [|exact H].
  exact (Game.reachable_dispatch w Game.AnimationFrame w' H E).
Qed.

Lemma afterFrames_reachable n w : Game.reachable w -> Game.reachable (afterFrames n w).
Proof.
  intros H. unfold afterFrames. induction n as [|n IH]; [exact H|].
  rewrite Nat.iter_succ. now apply afterFrame_reachable.
Qed.

Lemma startedWorld_reachable iw ih r : Game.reachable (startedWorld iw ih r).
Proof.
  unfold startedWorld.
  eapply (Game.reachable_dispatch _ Game.ClickStart); [apply Game.reachable_new|reflexivity].
Qed.

Lemma pastCap_spec w :
  pastCap w = true ->
  Game.state (Game.game w) = PLAYING /\
  Game.update w = Some (afterUpdate w) /\
  fle 2500 (Game.distance (Game.game (afterUpdate w))).
Proof.
  unfold pastCap, afterUpdate. intros H.
  destruct (Game.update w) as [w'|]; [|discriminate].
  apply andb_true_iff in H. destruct H as [Hs Hd].
  split; [|split; [reflexivity|exact Hd]].
  destruct (Game.state (Game.game w)); try discriminate Hs. reflexivity.
Qed.

(** The run of [farWorld], evaluated: it is being played after 3466 frames,
    and its next update returns with a distance of at least 2500. *)
Lemma farWorld_check : pastCap farWorld = true.
Proof. vm_compute. reflexivity. Qed.

Lemma farWorld_reachable : Game.reachable farWorld.
Proof. apply afterFrames_reachable, startedWorld_reachable. Qed.

(** The witness of [speed_capped_from_2500]: the frame of a run that takes
    the distance past 2500 and the speed to the cap. *)
Lemma speed_capped_from_2500_witness :
  fle 2500 (Game.distance (Game.game (afterUpdate farWorld))) /\
  Game.gameSpeed (Game.game (afterUpdate farWorld)) = 10 /\
  Game.distance (Game.game (afterUpdate farWorld))
  = Game.distance (Game.game farWorld) + Game.gameSpeed (Game.game farWorld) * 0.1.
Proof.
  destruct (pastCap_spec farWorld farWorld_check) as [Hp [Hu Hd]].
  destruct (speed_capped_from_2500 farWorld (afterUpdate farWorld) Hp Hu) as [H1 [_ [H3 _]]].
  split; [exact Hd|]. split; [exact (H3 Hd)|exact H1].
Defined.

End GameFacts.

(* ================================================================== *)
(** * Part V: the rest of the script                                   *)
(* ================================================================== *)

(** ** More rounded arithmetic: subtraction, products, [min] and [max] *)
Module ArithFacts.
Import Binary64 Binary64Facts FloatFacts.
Local Open Scope Z_scope.

Lemma SFsub_opp x y : SFsub prec emax x y = SFadd prec emax x (SFopp y).
Proof.
  destruct x as [sx|sx| |sx mx ex], y as [sy|sy| |sy my ey]; try reflexivity.
  - now destruct sx, sy.
  - now destruct sx, sy.
  - cbn [SFsub SFadd SFopp]. f_equal. destruct sy; cbn [negb cond_Zopp]; lia.
Qed.

Lemma SFopp_valid y : valid_binary (SFopp y) = valid_binary y.
Proof. now destruct y. Qed.

Lemma SFopp_fin y : is_fin_sf (SFopp y) = is_fin_sf y.
Proof. now destruct y. Qed.

Lemma SFopp_key y : key (SFopp y) = - key y.
Proof.
  destruct y as [s|s| |s m e]; cbn [SFopp key]; try reflexivity;
    destruct s; cbn [negb cond_Zopp]; lia.
Qed.

Theorem fsub_key x y :
  ffin x = true -> ffin y = true ->
  fnan (x - y) = false /\ fkey (x - y) = rkey (fkey x - fkey y).
Proof.
  intros Fx Fy. unfold fnan, fkey, ffin in *. rewrite FloatAxioms.sub_spec.
  unfold FloatAxioms.SF64sub. rewrite SFsub_opp.
  destruct (SFadd_key (Prim2SF x) (SFopp (Prim2SF y))) as [N K].
  - apply Prim2SF_valid.
  - rewrite SFopp_valid. apply Prim2SF_valid.
  - exact Fx.
  - now rewrite SFopp_fin.
  - split; [exact N|]. rewrite K, SFopp_key. reflexivity.
Qed.

Lemma fsub_mono_l c a b :
  ffin c = true -> ffin a = true -> ffin b = true ->
  fle a b -> fle (a - c) (b - c).
Proof.
  intros Fc Fa Fb. rewrite !fle_iff. intros [_ [_ H]].
  destruct (fsub_key a c Fa Fc) as [N1 K1]. destruct (fsub_key b c Fb Fc) as [N2 K2].
  repeat split; auto. rewrite K1, K2. apply rkey_mono. lia.
Qed.

Lemma ltb_irrefl x : (x <? x)%float = false.
Proof.
  destruct (x <? x)%float eqn:E; [|reflexivity].
  destruct (ltb_nonnan x x E) as [N _].
  rewrite (ltb_fkey x x N N) in E. apply Z.ltb_lt in E. lia.
Qed.

Lemma flt_trans x y z : flt x y -> flt y z -> flt x z.
Proof. intros H1 H2. apply (fle_flt_trans x y z); [now apply flt_fle|exact H2]. Qed.

Lemma flt_not_fle x y : flt x y -> (y <=? x)%float = false.
Proof.
  intros H. apply flt_iff in H. destruct H as [Nx [Ny H]].
  rewrite (leb_fkey y x Ny Nx). apply Z.leb_gt. exact H.
Qed.

Lemma leb_false_ltb x : (x <=? 0)%float = false -> (x <? 0)%float = false.
Proof.
  intros H. destruct (x <? 0)%float eqn:E; [|reflexivity].
  apply flt_fle in E. unfold fle in E. congruence.
Qed.

Lemma fmul_mono_r c a b :
  ffin c = true -> fle 0 c -> ffin a = true -> ffin b = true ->
  fle a b -> fle (c * a) (c * b).
Proof.
  intros Fc Hc Fa Fb. rewrite !fle_iff in *. intros [_ [_ H]].
  destruct Hc as [_ [_ Hc]]. change (fkey 0) with 0 in Hc.
  destruct (fmul_key c a Fc Fa) as [N1 K1]. destruct (fmul_key c b Fc Fb) as [N2 K2].
  repeat split; auto. rewrite K1, K2. apply mkey_mono. nia.
Qed.

Lemma mkey_scale k : mkey (k * 2 ^ 1074) = rkey k.
Proof.
  pose proof (pow2_pos 1074 ltac:(lia)) as P.
  assert (E : forall p : positive, Zpos p * 2 ^ 1074 * 2 ^ 52 = Zpos p * 2 ^ 1126).
  { intros p. rewrite <- Z.mul_assoc, <- Z.pow_add_r by lia. reflexivity. }
  destruct k as [|p|p].
  - reflexivity.
  - destruct (Zpos p * 2 ^ 1074) as [|q|q] eqn:Eq; try lia.
    cbn [mkey rkey]. rewrite <- Eq, E. reflexivity.
  - destruct (Zneg p * 2 ^ 1074) as [|q|q] eqn:Eq; try lia.
    cbn [mkey rkey]. assert (Eq' : Zpos q = Zpos p * 2 ^ 1074) by lia.
    rewrite Eq', E. reflexivity.
Qed.

(** Multiplying by one is exact. *)
Lemma fmul_one_key x : ffin x = true -> fnan (x * 1) = false /\ fkey (x * 1) = fkey x.
Proof.
  intros Fx. destruct (fmul_key x 1 Fx eq_refl) as [N K]. split; [exact N|].
  rewrite K. assert (E1 : fkey 1 = 2 ^ 1074) by (vm_compute; reflexivity).
  rewrite E1, mkey_scale. apply rkey_exact; [apply Prim2SF_valid|exact Fx].
Qed.

(** Scaling a non-negative number by a factor in [0, 1] does not enlarge it. *)
Lemma fmul_shrinks s f :
  ffin s = true -> fle 0 s -> fle 0 f -> fle f 1 ->
  fle 0 (s * f) /\ fle (s * f) s.
Proof.
  intros Fs Hs Hf0 Hf1.
  assert (Ff : ffin f = true) by (apply (ffin_between 0 1); auto).
  pose proof (fmul_mono_r s 0 f Fs Hs eq_refl Ff Hf0) as Hlo.
  pose proof (fmul_mono_r s f 1 Fs Hs Ff eq_refl Hf1) as Hhi.
  destruct (fmul_one_key s Fs) as [N1 K1].
  destruct (fmul_key s 0 Fs eq_refl) as [N0 K0].
  change (fkey 0) with 0 in K0. rewrite Z.mul_0_r in K0. change (mkey 0) with 0 in K0.
  rewrite !fle_iff in *. destruct Hlo as [_ [Np Hlo]]. destruct Hhi as [_ [_ Hhi]].
  destruct Hs as [_ [Ns _]]. change (fkey 0) with 0.
  split; (split; [first [reflexivity|assumption]|split; [assumption|lia]]).
Qed.

Section MinMax.
Local Open Scope float_scope.
Variables a b : float.
Hypothesis Na : fnan a = false.
Hypothesis Nb : fnan b = false.

Lemma Math_max_spec :
  (JS.Math_max a b = a \/ JS.Math_max a b = b) /\
  fle a (JS.Math_max a b) /\ fle b (JS.Math_max a b).
Proof.
  unfold JS.Math_max. rewrite !is_nan_fnan, Na, Nb. cbn [orb].
  rewrite (ltb_fkey a b Na Nb), (ltb_fkey b a Nb Na).
  destruct (Z.ltb_spec (fkey a) (fkey b)) as [H|H].
  - split; [now right|]. split; apply fle_iff; repeat split; auto; lia.
  - destruct (Z.ltb_spec (fkey b) (fkey a)) as [H'|H'].
    + split; [now left|]. split; apply fle_iff; repeat split; auto; lia.
    + destruct (JS.is_neg_zero a).
      * split; [now right|]. split; apply fle_iff; repeat split; auto; lia.
      * split; [now left|]. split; apply fle_iff; repeat split; auto; lia.
Qed.

Lemma Math_min_spec :
  (JS.Math_min a b = a \/ JS.Math_min a b = b) /\
  fle (JS.Math_min a b) a /\ fle (JS.Math_min a b) b.
Proof.
  unfold JS.Math_min. rewrite !is_nan_fnan, Na, Nb. cbn [orb].
  rewrite (ltb_fkey a b Na Nb), (ltb_fkey b a Nb Na).
  destruct (Z.ltb_spec (fkey a) (fkey b)) as [H|H].
  - split; [now left|]. split; apply fle_iff; repeat split; auto; lia.
  - destruct (Z.ltb_spec (fkey b) (fkey a)) as [H'|H'].
    + split; [now right|]. split; apply fle_iff; repeat split; auto; lia.
    + destruct (JS.is_neg_zero a).
      * split; [now left|]. split; apply fle_iff; repeat split; auto; lia.
      * split; [now right|]. split; apply fle_iff; repeat split; auto; lia.
Qed.

End MinMax.

(** Taking the maximum with the same number twice changes nothing more. *)
Lemma Math_max_again (a b : float) : JS.Math_max (JS.Math_max a b) b = JS.Math_max a b.
Proof.
  assert (Hbb : forall c, is_nan c = false -> JS.Math_max c c = c).
  { intros c Hc. unfold JS.Math_max. rewrite Hc, ltb_irrefl. cbn [orb].
    now destruct (JS.is_neg_zero c). }
  unfold JS.Math_max at 2 3.
  destruct (is_nan a) eqn:Ea; [reflexivity|].
  destruct (is_nan b) eqn:Eb; [reflexivity|]. cbn [orb].
  assert (Haa : JS.Math_max a b =
                if (a <? b)%float then b else if (b <? a)%float then a
                else if JS.is_neg_zero a then b else a).
  { unfold JS.Math_max. now rewrite Ea, Eb. }
  destruct (a <? b)%float; [now apply Hbb|].
  destruct (b <? a)%float; [exact Haa|].
  destruct (JS.is_neg_zero a); [now apply Hbb|exact Haa].
Qed.

End ArithFacts.

(** ** Camera *)
Module CameraFacts.
Import Binary64 FloatFacts ArithFacts Props.
Local Open Scope float_scope.

(** [addShake] keeps the larger of the current shake and the new intensity:
    the result is one of the two and is below neither; nothing else
    changes. *)
Theorem addShake_keeps_larger (c : Camera.t) (intensity : float) :
  fnan (Camera.shake c) = false -> fnan intensity = false ->
  (Camera.shake (Camera.addShake c intensity) = Camera.shake c \/
   Camera.shake (Camera.addShake c intensity) = intensity) /\
  fle (Camera.shake c) (Camera.shake (Camera.addShake c intensity)) /\
  fle intensity (Camera.shake (Camera.addShake c intensity)) /\
  Camera.x (Camera.addShake c intensity) = Camera.x c /\
  Camera.shakeDecay (Camera.addShake c intensity) = Camera.shakeDecay c.
Proof.
  intros Nc Ni. destruct (Math_max_spec _ _ Nc Ni) as [H1 [H2 H3]].
  cbn [Camera.addShake Camera.shake Camera.x Camera.shakeDecay]. auto.
Qed.

Lemma addShake_keeps_larger_witness :
  Camera.shake (Camera.addShake Camera.new 20) = Camera.shake Camera.new \/
  Camera.shake (Camera.addShake Camera.new 20) = 20.
Proof. exact (proj1 (addShake_keeps_larger Camera.new 20 eq_refl eq_refl)). Defined.

(** Shakes do not add up: a second [addShake] of the same intensity leaves
    the camera as the first one made it, whatever the numbers. *)
Theorem addShake_does_not_accumulate (c : Camera.t) (intensity : float) :
  Camera.addShake (Camera.addShake c intensity) intensity = Camera.addShake c intensity.
Proof.
  unfold Camera.addShake.
  cbn [Camera.shake Camera.x Camera.shakeDecay]. now rewrite Math_max_again.
Qed.

(** With the constructor's decay of 0.9, [update] never enlarges a finite,
    non-negative shake and never makes it negative. *)
Theorem update_shake_decays (c : Camera.t) :
  Camera.shakeDecay c = 0.9 -> ffin (Camera.shake c) = true -> fle 0 (Camera.shake c) ->
  fle 0 (Camera.shake (Camera.update c)) /\
  fle (Camera.shake (Camera.update c)) (Camera.shake c) /\
  Camera.shakeDecay (Camera.update c) = 0.9.
Proof.
  intros Hd Fs Hs. unfold Camera.update.
  destruct (0 <? Camera.shake c).
  - cbn [Camera.shake Camera.shakeDecay]. rewrite Hd.
    destruct (fmul_shrinks (Camera.shake c) 0.9 Fs Hs eq_refl eq_refl) as [H0 H1].
    auto.
  - split; [exact Hs|]. split; [|exact Hd]. apply fle_refl. now apply ffin_fnan.
Qed.

Lemma update_shake_decays_witness :
  fle 0 (Camera.shake (Camera.update shakenCamera)) /\
  fle (Camera.shake (Camera.update shakenCamera)) (Camera.shake shakenCamera) /\
  Camera.shakeDecay (Camera.update shakenCamera) = 0.9.
Proof. exact (update_shake_decays shakenCamera eq_refl eq_refl eq_refl). Defined.

(** [getShakeOffset] on a still camera returns the zero offset and draws no
    random number; on a shaking one it draws exactly two, and each
    coordinate of the offset lies within half the shake of zero. *)
Theorem shakeOffset_within_half_shake (c : Camera.t) (rnd : JS.Random) :
  JS.well_formed rnd -> ffin (Camera.shake c) = true ->
  ((0 <? Camera.shake c) = false ->
   Camera.getShakeOffset c rnd = ({| Vector2.x := 0; Vector2.y := 0 |}, rnd)) /\
  ((0 <? Camera.shake c) = true ->
   JS.cursor (snd (Camera.getShakeOffset c rnd)) = (JS.cursor rnd + 2)%nat /\
   JS.draws (snd (Camera.getShakeOffset c rnd)) = JS.draws rnd /\
   fle (-0.5 * Camera.shake c) (Vector2.x (fst (Camera.getShakeOffset c rnd))) /\
   fle (Vector2.x (fst (Camera.getShakeOffset c rnd))) (0.5 * Camera.shake c) /\
   fle (-0.5 * Camera.shake c) (Vector2.y (fst (Camera.getShakeOffset c rnd))) /\
   fle (Vector2.y (fst (Camera.getShakeOffset c rnd))) (0.5 * Camera.shake c)).
Proof.
  intros Hwf Fs. unfold Camera.getShakeOffset. split; intros Hpos; rewrite Hpos; [reflexivity|].
  cbn [JS.Math_random JS.cursor JS.draws fst snd Vector2.x Vector2.y].
  assert (Hs : fle 0 (Camera.shake c)) by now apply flt_fle.
  assert (Hr : forall r, JS.unit_interval r ->
            fle (-0.5 * Camera.shake c) ((r - 0.5) * Camera.shake c) /\
            fle ((r - 0.5) * Camera.shake c) (0.5 * Camera.shake c)).
  { intros r Ur. destruct (ObstacleFacts.unit_interval_bounds r Ur) as [Fr [H0 [H1 _]]].
    pose proof (fsub_mono_l 0.5 0 r eq_refl eq_refl Fr H0) as Hlo.
    pose proof (fsub_mono_l 0.5 r 1 eq_refl Fr eq_refl H1) as Hhi.
    change (0 - 0.5) with (-0.5) in Hlo. change (1 - 0.5) with 0.5 in Hhi.
    assert (Fd : ffin (r - 0.5) = true).
    { apply (ffin_between (-0.5) 0.5); [reflexivity|reflexivity|exact Hlo|exact Hhi]. }
    split; apply fmul_mono_l; auto. }
  split; [lia|]. split; [reflexivity|].
  destruct (Hr _ (Hwf (JS.cursor rnd))) as [Hx0 Hx1].
  destruct (Hr _ (Hwf (S (JS.cursor rnd)))) as [Hy0 Hy1].
  auto.
Qed.

Lemma shakeOffset_within_half_shake_witness :
  Camera.getShakeOffset Camera.new {| JS.draws := fun _ => 0.5; JS.cursor := 0 |}
  = ({| Vector2.x := 0; Vector2.y := 0 |}, {| JS.draws := fun _ => 0.5; JS.cursor := 0 |}).
Proof.
  exact (proj1 (shakeOffset_within_half_shake Camera.new
                  {| JS.draws := fun _ => 0.5; JS.cursor := 0 |}
                  (fun _ => conj eq_refl eq_refl) eq_refl) eq_refl).
Defined.

End CameraFacts.

(** ** Trail and Player: the trail a player drags along *)
Module PlayerTrailFacts.
Import Binary64 FloatFacts ArithFacts Props.
Local Open Scope float_scope.

Lemma lives_addPoint tr x y :
  (List.length (Trail.points tr) < Trail.maxPoints tr)%nat ->
  lives (Trail.addPoint tr x y) = lives tr ++ [1.0] /\
  Trail.maxPoints (Trail.addPoint tr x y) = Trail.maxPoints tr.
Proof.
  intros H. unfold lives, Trail.addPoint. cbn [Trail.points Trail.maxPoints].
  rewrite length_app. cbn [List.length].
  destruct (Nat.ltb_spec (Trail.maxPoints tr) (List.length (Trail.points tr) + 1)) as [Hlt|_];
    [lia|].
  rewrite map_app. split; reflexivity.
Qed.

Lemma lives_update tr :
  lives (Trail.update tr)
  = filter (fun l => 0 <? l) (map (fun l => l - 0.05) (lives tr)) /\
  Trail.maxPoints (Trail.update tr) = Trail.maxPoints tr.
Proof.
  split; [|reflexivity].
  unfold lives, Trail.update. cbn [Trail.points].
  induction (Trail.points tr) as [|p ps IH]; [reflexivity|].
  cbn [map filter Trail.life]. destruct (0 <? Trail.life p - 0.05).
  - cbn [map Trail.life]. now rewrite IH.
  - exact IH.
Qed.

Lemma agedLives_length m : List.length (agedLives m) = m.
Proof. unfold agedLives. now rewrite length_map, length_rev, length_seq. Qed.

(** A new sample and one more update age the lives by one. *)
Lemma agedLives_step m :
  map (fun l => l - 0.05) (agedLives m ++ [1.0]) = agedLives (S m).
Proof.
  unfold agedLives. rewrite map_app, map_map.
  change (seq 1 (S m)) with (1%nat :: seq 2 m).
  cbn [rev]. rewrite map_app, <- (seq_shift m 1), <- map_rev, map_map.
  reflexivity.
Qed.

(** Samples live through 19 updates: of the lives of ages [m], ..., 1 the
    positive ones are those of ages up to 19. *)
Lemma agedLives_positive m :
  (m <= 20)%nat -> filter (fun l => 0 <? l) (agedLives m) = agedLives (Nat.min m 19).
Proof.
  intros H. do 21 (destruct m as [|m]; [vm_compute; reflexivity|]). lia.
Qed.

Lemma tick_trail cfg p :
  Player.trail (tick cfg p)
  = Trail.update
      (Trail.addPoint (Player.trail p) (Player.x p + Player.width p / 2)
         (Player.y (tick cfg p) + Player.height p / 2)).
Proof.
  unfold tick, Player.update.
  destruct (_ <=? _); destruct (_ <=? _); reflexivity.
Qed.

(** One [update()] of the player on a trail of [m <= 19] samples. *)
Lemma tick_lives cfg p m :
  Trail.maxPoints (Player.trail p) = 20%nat -> (m <= 19)%nat ->
  lives (Player.trail p) = agedLives m ->
  Trail.maxPoints (Player.trail (tick cfg p)) = 20%nat /\
  lives (Player.trail (tick cfg p)) = agedLives (Nat.min (S m) 19).
Proof.
  intros Hmax Hm Hl. rewrite tick_trail.
  set (tr1 := Trail.addPoint _ _ _).
  assert (Hlen : (List.length (Trail.points (Player.trail p)) < Trail.maxPoints (Player.trail p))%nat).
  { rewrite Hmax. unfold lives in Hl.
    rewrite <- (length_map Trail.life), Hl, agedLives_length. lia. }
  destruct (lives_addPoint (Player.trail p) (Player.x p + Player.width p / 2)
              (Player.y (tick cfg p) + Player.height p / 2) Hlen) as [Ha Hma].
  fold tr1 in Ha, Hma.
  destruct (lives_update tr1) as [Hu Hmu].
  split; [now rewrite Hmu, Hma|].
  rewrite Hu, Ha, Hl, agedLives_step. apply agedLives_positive. lia.
Qed.

Lemma agedTrail_new : agedTrail Trail.new.
Proof. split; [reflexivity|]. exists 0%nat. split; [lia|reflexivity]. Qed.

Lemma agedTrail_tick cfg p : agedTrail (Player.trail p) -> agedTrail (Player.trail (tick cfg p)).
Proof.
  intros [Hmax [m [Hm Hl]]]. destruct (tick_lives cfg p m Hmax Hm Hl) as [H1 H2].
  split; [exact H1|]. exists (Nat.min (S m) 19). split; [lia|exact H2].
Qed.

Lemma jump_trail cfg p : Player.trail (Player.jump cfg p) = Player.trail p.
Proof. unfold Player.jump. now destruct (Player.onGround p). Qed.

Lemma run_lives cfg ops : forall p m,
  Trail.maxPoints (Player.trail p) = 20%nat -> (m <= 19)%nat ->
  lives (Player.trail p) = agedLives m ->
  Trail.maxPoints (Player.trail (fold_left (applyPlayerOp cfg) ops p)) = 20%nat /\
  lives (Player.trail (fold_left (applyPlayerOp cfg) ops p))
  = agedLives (Nat.min (m + updatesIn ops) 19).
Proof.
  induction ops as [|op ops IH]; intros p m Hmax Hm Hl.
  - cbn [fold_left]. unfold updatesIn. cbn [filter List.length].
    rewrite Nat.add_0_r, Nat.min_l by lia. now split.
  - cbn [fold_left]. unfold updatesIn in *. destruct op; cbn [applyPlayerOp filter isUpdate].
    + apply (IH (Player.reset cfg p) m); auto.
    + apply (IH (Player.jump cfg p) m); rewrite ?jump_trail; auto.
    + destruct (tick_lives cfg p m Hmax Hm Hl) as [H1 H2].
      destruct (IH (tick cfg p) (Nat.min (S m) 19) H1 ltac:(lia) H2) as [H3 H4].
      split; [exact H3|]. rewrite H4. cbn [List.length]. f_equal. lia.
Qed.

(** A sample lives through exactly 19 updates of its trail: after each of
    the first 19 it is still there, its life 0.05 lower each time; the 20th
    removes it, and the trail stays empty from then on. *)
Theorem sample_lives_19_updates (x y : float) (capacity : nat) :
  (forall k, (k <= 19)%nat ->
     Trail.points (Nat.iter k Trail.update (loneSample x y capacity))
     = [{| Trail.x := x; Trail.y := y; Trail.life := sampleLife k |}]) /\
  (forall k, (20 <= k)%nat ->
     Trail.points (Nat.iter k Trail.update (loneSample x y capacity)) = []).
Proof.
  assert (Hpos : forall k, (k < 19)%nat -> (0 <? sampleLife (S k)) = true).
  { apply (Ranges.forallb_below (fun k => 0 <? sampleLife (S k))). vm_compute. reflexivity. }
  assert (Hneg : (0 <? sampleLife 20) = false) by (vm_compute; reflexivity).
  assert (Hfirst : forall k, (k <= 19)%nat ->
            Trail.points (Nat.iter k Trail.update (loneSample x y capacity))
            = [{| Trail.x := x; Trail.y := y; Trail.life := sampleLife k |}]).
  { induction k as [|k IH]; intros Hk; [reflexivity|].
    rewrite Nat.iter_succ. unfold Trail.update at 1. cbn [Trail.points].
    rewrite IH by lia. cbn [map filter Trail.x Trail.y Trail.life].
    change (sampleLife k - 0.05) with (sampleLife (S k)).
    now rewrite Hpos by lia. }
  split; [exact Hfirst|].
  intros k Hk. replace k with ((k - 20) + 20)%nat by lia.
  induction (k - 20)%nat as [|j IH].
  - change (0 + 20)%nat with (S 19). rewrite Nat.iter_succ.
    unfold Trail.update at 1. cbn [Trail.points].
    rewrite Hfirst by lia. cbn [map filter Trail.x Trail.y Trail.life].
    change (sampleLife 19 - 0.05) with (sampleLife 20).
    now rewrite Hneg.
  - change (S j + 20)%nat with (S (j + 20)). rewrite Nat.iter_succ.
    unfold Trail.update at 1. cbn [Trail.points]. now rewrite IH.
Qed.

(** Whatever is done to a player since its constructor, its trail holds one
    sample per past [update()] up to 19, of ages 1, 2, ... counted from the
    newest; it never holds 20, so [addPoint] never has to evict for it. *)
Theorem player_trail_holds_19 (cfg : Config) (ops : list PlayerOp) :
  List.length (Trail.points (Player.trail (runPlayer cfg ops)))
  = Nat.min (updatesIn ops) 19 /\
  lives (Player.trail (runPlayer cfg ops)) = agedLives (Nat.min (updatesIn ops) 19) /\
  Trail.maxPoints (Player.trail (runPlayer cfg ops)) = 20%nat.
Proof.
  destruct (run_lives cfg ops (Player.new cfg) 0 eq_refl ltac:(lia) eq_refl) as [Hmax Hl].
  cbn [Nat.add] in Hl. fold (runPlayer cfg ops) in Hmax, Hl.
  split; [|now split].
  unfold lives in Hl. now rewrite <- (length_map Trail.life), Hl, agedLives_length.
Qed.

(** What any [update()] of the player leaves alone and what it enforces: the
    horizontal position, the size and the colour stay; the player is never
    left above the top edge ([y < 0]); a player left on the ground has no
    vertical velocity and no rotation, one left in the air has turned by
    0.15. *)
Theorem update_keeps_player_in_frame (cfg : Config) (p : Player.t) :
  Player.x (tick cfg p) = Player.x p /\
  Player.width (tick cfg p) = Player.width p /\
  Player.height (tick cfg p) = Player.height p /\
  Player.color (tick cfg p) = Player.color p /\
  (Player.y (tick cfg p) <? 0) = false /\
  (Player.onGround (tick cfg p) = true ->
   Player.velocityY (tick cfg p) = 0 /\ Player.rotation (tick cfg p) = 0) /\
  (Player.onGround (tick cfg p) = false ->
   Player.rotation (tick cfg p) = Player.rotation p + 0.15).
Proof.
  unfold tick, Player.update. cbv zeta.
  destruct (CANVAS_HEIGHT cfg - GROUND_HEIGHT cfg
            <=? Player.y p + (Player.velocityY p + GRAVITY cfg) + Player.height p) eqn:Hg.
  - destruct (CANVAS_HEIGHT cfg - GROUND_HEIGHT cfg - Player.height p <=? 0) eqn:Hc;
      cbn [fst Player.x Player.y Player.width Player.height Player.color Player.velocityY
           Player.onGround Player.rotation];
      repeat (split; [reflexivity|]);
      try (split; [now apply leb_false_ltb|]);
      (split; [intros _; split; reflexivity|discriminate]).
  - destruct (Player.y p + (Player.velocityY p + GRAVITY cfg) <=? 0) eqn:Hc;
      cbn [fst Player.x Player.y Player.width Player.height Player.color Player.velocityY
           Player.onGround Player.rotation];
      repeat (split; [reflexivity|]);
      try (split; [now apply leb_false_ltb|]);
      (split; [discriminate|reflexivity]).
Qed.

Lemma staysAtRest_heights : forallb staysAtRest restHeights = true.
Proof. vm_compute. reflexivity. Qed.

(** On a window 141 to 10000 pixels high, a player at rest stays at rest:
    it stands on the ground line with no velocity, and another [update()]
    leaves its position, velocity, rotation and [onGround] as they are,
    gravity and roundings notwithstanding. *)
Theorem resting_player_stays_put (w : float) (h : Z) (p : Player.t) :
  (141 <= h <= 10000)%Z ->
  Player.onGround (restingPlayer (CONFIG w (JS.float_of_Z h)) p) = true /\
  Player.y (restingPlayer (CONFIG w (JS.float_of_Z h)) p) = JS.float_of_Z h - 100 - 40 /\
  Player.velocityY (restingPlayer (CONFIG w (JS.float_of_Z h)) p) = 0 /\
  Player.onGround (tick (CONFIG w (JS.float_of_Z h)) (restingPlayer (CONFIG w (JS.float_of_Z h)) p))
    = true /\
  Player.y (tick (CONFIG w (JS.float_of_Z h)) (restingPlayer (CONFIG w (JS.float_of_Z h)) p))
    = Player.y (restingPlayer (CONFIG w (JS.float_of_Z h)) p) /\
  Player.velocityY (tick (CONFIG w (JS.float_of_Z h)) (restingPlayer (CONFIG w (JS.float_of_Z h)) p))
    = 0 /\
  Player.rotation (tick (CONFIG w (JS.float_of_Z h)) (restingPlayer (CONFIG w (JS.float_of_Z h)) p))
    = 0.
Proof.
  intros Hh.
  pose proof (Ranges.forallb_zrange staysAtRest 141 (Z.to_nat 9860) staysAtRest_heights h
                ltac:(lia)) as H.
  unfold staysAtRest in H. cbv zeta in H.
  repeat (apply andb_true_iff in H; let H' := fresh "H" in destruct H as [H H']).
  set (cfg := CONFIG w (JS.float_of_Z h)).
  pose proof (PlayerFacts.body_tick cfg (restingPlayer cfg p)) as Ht.
  pose proof (JumpFacts.body_resting cfg p) as Hr.
  rewrite Hr in Ht.
  change (restingBody cfg) with (restingBody (CONFIG 0 (JS.float_of_Z h))) in Hr, Ht.
  change (bodyTick cfg) with (bodyTick (CONFIG 0 (JS.float_of_Z h))) in Ht.
  set (b := restingBody (CONFIG 0 (JS.float_of_Z h))) in *.
  set (b' := bodyTick (CONFIG 0 (JS.float_of_Z h)) b) in *.
  pose proof (f_equal bodyOnGround Hr) as E1. pose proof (f_equal bodyY Hr) as E2.
  pose proof (f_equal bodyVelocityY Hr) as E3.
  pose proof (f_equal bodyOnGround Ht) as E4. pose proof (f_equal bodyY Ht) as E5.
  pose proof (f_equal bodyVelocityY Ht) as E6. pose proof (f_equal bodyRotation Ht) as E7.
  cbn [body bodyOnGround bodyY bodyVelocityY bodyRotation] in E1, E2, E3, E4, E5, E6, E7.
  repeat match goal with Hs : same _ _ = true |- _ => apply Ranges.same_eq in Hs end.
  rewrite E1, E2, E3, E4, E5, E6, E7.
  repeat split; try assumption; congruence.
Qed.

Lemma resting_player_stays_put_witness :
  Player.onGround (restingPlayer (CONFIG 1280 (JS.float_of_Z 720)) (Player.new exampleConfig))
  = true.
Proof.
  exact (proj1 (resting_player_stays_put 1280 720 (Player.new exampleConfig)
                  ltac:(lia))).
Defined.

End PlayerTrailFacts.

(** ** ObstacleGenerator: the scroll, the cull and what a spawn is made of *)
Module GeneratorFacts.
Import Binary64 FloatFacts ArithFacts Props.
Local Open Scope float_scope.

Lemma array_get_In {A : Type} (a : list A) (v : float) (t : A) :
  JS.array_get a v = Some t -> In t a.
Proof.
  unfold JS.array_get. destruct (JS.array_index v) as [i|]; [|discriminate].
  destruct (i <? Z.of_nat (List.length a))%Z; [|discriminate].
  apply nth_error_In.
Qed.

(** What is left after the scroll and the cull: obstacles of the old set,
    moved left by [gameSpeed], whose right edge is still right of -100. *)
Lemma scrolled_In obs gameSpeed o :
  In o (ObstacleGenerator.scrolled obs gameSpeed) ->
  flt (-100) (Obstacle.x o + Obstacle.width o) /\
  exists o0, In o0 obs /\
    Obstacle.x o = Obstacle.x o0 - gameSpeed /\ Obstacle.y o = Obstacle.y o0 /\
    Obstacle.width o = Obstacle.width o0 /\ Obstacle.height o = Obstacle.height o0 /\
    Obstacle.type o = Obstacle.type o0 /\ Obstacle.color o = Obstacle.color o0 /\
    Obstacle.isAir o = Obstacle.isAir o0.
Proof.
  unfold ObstacleGenerator.scrolled. intros H. apply filter_In in H. destruct H as [H Hk].
  split; [exact Hk|]. apply in_map_iff in H. destruct H as [o0 [<- Hin]].
  exists o0. cbn. repeat split; auto.
Qed.

Lemma scrolled_length obs gameSpeed :
  (List.length (ObstacleGenerator.scrolled obs gameSpeed) <= List.length obs)%nat.
Proof.
  unfold ObstacleGenerator.scrolled.
  eapply Nat.le_trans; [apply filter_length_le|]. now rewrite length_map.
Qed.

(** A spawn that does not throw appends one obstacle, standing at the new
    [nextObstacleX], and leaves the catalog alone. *)
Lemma generateObstacle_shape cfg g gameSpeed distance rnd g' rnd' :
  ObstacleGenerator.generateObstacle cfg g gameSpeed distance rnd = Some (g', rnd') ->
  ObstacleGenerator.obstacleTypes g' = ObstacleGenerator.obstacleTypes g /\
  JS.draws rnd' = JS.draws rnd /\
  exists o, ObstacleGenerator.obstacles g' = ObstacleGenerator.obstacles g ++ [o] /\
            Obstacle.x o = ObstacleGenerator.nextObstacleX g'.
Proof.
  unfold ObstacleGenerator.generateObstacle.
  cbv beta iota zeta delta [JS.Math_random].
  destruct (JS.array_get _ _) as [t|]; [|discriminate].
  destruct (Template.ground t); intros E; injection E as <- <-;
    (split; [reflexivity|]); (split; [reflexivity|]); eexists; split; reflexivity.
Qed.

Lemma update_shape cfg g gameSpeed distance rnd g' rnd' :
  ObstacleGenerator.update cfg g gameSpeed distance rnd = Some (g', rnd') ->
  ObstacleGenerator.obstacleTypes g' = ObstacleGenerator.obstacleTypes g /\
  JS.draws rnd' = JS.draws rnd /\
  (ObstacleGenerator.obstacles g'
   = ObstacleGenerator.scrolled (ObstacleGenerator.obstacles g) gameSpeed \/
   exists o, ObstacleGenerator.obstacles g'
             = ObstacleGenerator.scrolled (ObstacleGenerator.obstacles g) gameSpeed ++ [o] /\
             Obstacle.x o = ObstacleGenerator.nextObstacleX g').
Proof.
  unfold ObstacleGenerator.update.
  destruct (ObstacleGenerator.spawns cfg _).
  - intros H. apply generateObstacle_shape in H.
    cbn [ObstacleGenerator.obstacles ObstacleGenerator.obstacleTypes] in H.
    destruct H as [Ht [Hd Ho]]. auto.
  - intros E. injection E as <- <-. cbn. auto.
Qed.

(** An [update] that returns moves every obstacle it keeps left by
    [gameSpeed], one rounded subtraction, and keeps none whose right edge is
    at or left of -100; the only obstacle it can add is one spawn, placed
    last at [nextObstacleX]. *)
Theorem update_scrolls_and_culls (cfg : Config) (g g' : ObstacleGenerator.t)
    (gameSpeed distance : float) (rnd rnd' : JS.Random) :
  ObstacleGenerator.update cfg g gameSpeed distance rnd = Some (g', rnd') ->
  (List.length (ObstacleGenerator.obstacles g')
   <= S (List.length (ObstacleGenerator.obstacles g)))%nat /\
  forall o, In o (ObstacleGenerator.obstacles g') ->
    (flt (-100) (Obstacle.x o + Obstacle.width o) /\
     exists o0, In o0 (ObstacleGenerator.obstacles g) /\
       Obstacle.x o = Obstacle.x o0 - gameSpeed /\ Obstacle.y o = Obstacle.y o0 /\
       Obstacle.width o = Obstacle.width o0 /\ Obstacle.height o = Obstacle.height o0 /\
       Obstacle.type o = Obstacle.type o0 /\ Obstacle.color o = Obstacle.color o0 /\
       Obstacle.isAir o = Obstacle.isAir o0) \/
    (JS.array_last (ObstacleGenerator.obstacles g') = Some o /\
     Obstacle.x o = ObstacleGenerator.nextObstacleX g').
Proof.
  intros H. destruct (update_shape _ _ _ _ _ _ _ H) as [_ [_ [Ho|[n [Ho Hn]]]]]; rewrite Ho.
  - split.
    + pose proof (scrolled_length (ObstacleGenerator.obstacles g) gameSpeed). lia.
    + intros o Hin. left. now apply scrolled_In.
  - split.
    + rewrite length_app. cbn [List.length].
      pose proof (scrolled_length (ObstacleGenerator.obstacles g) gameSpeed). lia.
    + intros o Hin. apply in_app_or in Hin. destruct Hin as [Hin|[<-|[]]].
      * left. now apply scrolled_In.
      * right. split; [apply ObstacleFacts.array_last_snoc|exact Hn].
Qed.

Lemma update_scrolls_and_culls_witness :
  exists g' rnd',
    ObstacleGenerator.update exampleConfig (ObstacleGenerator.new exampleConfig) 5 0
      {| JS.draws := fun _ => 0.5; JS.cursor := 0 |} = Some (g', rnd') /\
    (List.length (ObstacleGenerator.obstacles g') <= 1)%nat.
Proof.
  destruct (ObstacleGenerator.update exampleConfig (ObstacleGenerator.new exampleConfig) 5 0
              {| JS.draws := fun _ => 0.5; JS.cursor := 0 |}) as [[g' rnd']|] eqn:E.
  - exists g', rnd'. split; [reflexivity|].
    exact (proj1 (update_scrolls_and_culls _ _ _ _ _ _ _ E)).
  - vm_compute in E. discriminate E.
Defined.

(** The height a sky obstacle is given lies in [50, 200]. *)
Lemma sky_height_bounds r :
  JS.unit_interval r -> fle 50 (50 + r * 150) /\ fle (50 + r * 150) 200.
Proof.
  intros Hr. destruct (ObstacleFacts.unit_interval_bounds r Hr) as [Fr [H0 [H1 _]]].
  assert (F150 : ffin 150 = true) by reflexivity.
  assert (Hp0 : fle 0 (r * 150)).
  { apply (fmul_mono_l 150 0 r F150 ltac:(reflexivity) ltac:(reflexivity) Fr H0). }
  assert (Hp1 : fle (r * 150) 150).
  { apply (fmul_mono_l 150 r 1 F150 ltac:(reflexivity) Fr ltac:(reflexivity) H1). }
  assert (Fp : ffin (r * 150) = true).
  { apply (ffin_between 0 150); [reflexivity|exact F150|exact Hp0|exact Hp1]. }
  split.
  - apply (fadd_mono_r 50 0 (r * 150) ltac:(reflexivity) ltac:(reflexivity) Fp Hp0).
  - apply (fadd_mono_r 50 (r * 150) 150 ltac:(reflexivity) Fp F150 Hp1).
Qed.

(** With [Math.random()] in [0, 1) and the script's catalog, a spawn never
    throws, and the obstacle it appends copies the size, type and colour of
    one catalog entry.  A ground entry stands on the ground line and costs
    two random draws; a sky entry floats at a height in [50, 200] and costs
    three. *)
Theorem spawn_copies_a_template (cfg : Config) (g : ObstacleGenerator.t)
    (gameSpeed distance : float) (rnd : JS.Random) :
  JS.well_formed rnd ->
  ObstacleGenerator.obstacleTypes g = ObstacleGenerator.catalog ->
  exists g' rnd' o t,
    ObstacleGenerator.generateObstacle cfg g gameSpeed distance rnd = Some (g', rnd') /\
    ObstacleGenerator.obstacles g' = ObstacleGenerator.obstacles g ++ [o] /\
    In t ObstacleGenerator.catalog /\
    Obstacle.width o = Template.width t /\ Obstacle.height o = Template.height t /\
    Obstacle.type o = Template.type t /\ Obstacle.color o = Template.color t /\
    Obstacle.isAir o = negb (Template.ground t) /\
    JS.draws rnd' = JS.draws rnd /\
    (if Template.ground t
     then Obstacle.y o = CANVAS_HEIGHT cfg - GROUND_HEIGHT cfg - Template.height t /\
          JS.cursor rnd' = (JS.cursor rnd + 2)%nat
     else fle 50 (Obstacle.y o) /\ fle (Obstacle.y o) 200 /\
          JS.cursor rnd' = (JS.cursor rnd + 3)%nat).
Proof.
  intros Hwf Htypes.
  destruct (ObstacleFacts.scaled_draw_bounds _ (Hwf (S (JS.cursor rnd)))) as [Hlo Hhi].
  destruct (ObstacleFacts.catalog_pick _ Hlo Hhi) as [t Ht].
  pose proof (array_get_In _ _ _ Ht) as Hin.
  destruct (sky_height_bounds _ (Hwf (S (S (JS.cursor rnd))))) as [Hy0 Hy1].
  unfold ObstacleGenerator.generateObstacle.
  cbv beta iota zeta delta [JS.Math_random JS.draws JS.cursor].
  fold (JS.draws rnd) (JS.cursor rnd).
  rewrite Htypes, ObstacleFacts.catalog_length, Ht.
  destruct (Template.ground t) eqn:Hg; do 3 eexists; exists t;
    (split; [reflexivity|]);
    cbn [ObstacleGenerator.obstacles Obstacle.x Obstacle.y Obstacle.width Obstacle.height
         Obstacle.type Obstacle.color Obstacle.isAir JS.draws JS.cursor];
    rewrite Hg;
    (split; [reflexivity|]); (split; [exact Hin|]);
    do 6 (split; [reflexivity|]).
  - split; [reflexivity|lia].
  - split; [exact Hy0|]. split; [exact Hy1|lia].
Qed.

Lemma spawn_copies_a_template_witness :
  exists g' rnd',
    ObstacleGenerator.generateObstacle exampleConfig (ObstacleGenerator.new exampleConfig) 5 0
      {| JS.draws := fun _ => 0.5; JS.cursor := 0 |} = Some (g', rnd').
Proof.
  destruct (spawn_copies_a_template exampleConfig (ObstacleGenerator.new exampleConfig) 5 0
              {| JS.draws := fun _ => 0.5; JS.cursor := 0 |}
              (fun _ => conj eq_refl eq_refl) eq_refl) as [g' [rnd' [_ [_ [H _]]]]].
  exists g', rnd'. exact H.
Defined.

(** After a [reset()] nothing can collide, and the next [update] spawns
    exactly one obstacle, at [CANVAS_WIDTH + 200]. *)
Theorem reset_then_first_spawn (cfg : Config) (g : ObstacleGenerator.t)
    (gameSpeed distance : float) (rnd : JS.Random) :
  JS.well_formed rnd ->
  ObstacleGenerator.obstacleTypes g = ObstacleGenerator.catalog ->
  (forall player, ObstacleGenerator.checkCollision (ObstacleGenerator.reset cfg g) player = false) /\
  exists g' rnd' o,
    ObstacleGenerator.update cfg (ObstacleGenerator.reset cfg g) gameSpeed distance rnd
    = Some (g', rnd') /\
    ObstacleGenerator.obstacles g' = [o] /\
    Obstacle.x o = CANVAS_WIDTH cfg + 200.
Proof.
  intros Hwf Htypes. split; [reflexivity|].
  unfold ObstacleGenerator.update, ObstacleGenerator.reset, ObstacleGenerator.scrolled.
  cbn [ObstacleGenerator.obstacles ObstacleGenerator.nextObstacleX
       ObstacleGenerator.obstacleTypes map filter ObstacleGenerator.spawns JS.array_last].
  destruct (ObstacleFacts.generateObstacle_appends cfg
              {| ObstacleGenerator.obstacles := [];
                 ObstacleGenerator.nextObstacleX := CANVAS_WIDTH cfg;
                 ObstacleGenerator.obstacleTypes := ObstacleGenerator.obstacleTypes g |}
              gameSpeed distance rnd Hwf Htypes)
    as [g' [rnd' [o [Hgen [Hobs [Hx _]]]]]].
  exists g', rnd', o. split; [exact Hgen|]. split; [exact Hobs|exact Hx].
Qed.

Lemma reset_then_first_spawn_witness :
  exists g' rnd' o,
    ObstacleGenerator.update exampleConfig
      (ObstacleGenerator.reset exampleConfig (ObstacleGenerator.new exampleConfig)) 5 0
      {| JS.draws := fun _ => 0.5; JS.cursor := 0 |} = Some (g', rnd') /\
    ObstacleGenerator.obstacles g' = [o] /\
    Obstacle.x o = CANVAS_WIDTH exampleConfig + 200.
Proof.
  exact (proj2 (reset_then_first_spawn exampleConfig (ObstacleGenerator.new exampleConfig) 5 0
                  {| JS.draws := fun _ => 0.5; JS.cursor := 0 |}
                  (fun _ => conj eq_refl eq_refl) eq_refl)).
Defined.

End GeneratorFacts.

(** ** Game: the handlers one by one *)
Module HandlerFacts.
Import Binary64 FloatFacts ArithFacts Props.
Local Open Scope float_scope.

(** The six [if]s of the [keydown] listener never fire together: the
    listener acts as one switch on the key code. *)
Lemma keydown_switch code w : Game.keydown code w = keydownSwitch code w.
Proof.
  unfold Game.keydown, keydownSwitch.
  destruct (String.eqb_spec code "Space") as [->|_].
  { cbn [String.eqb Ascii.eqb Bool.eqb andb].
    now destruct (Game.state (Game.game w)). }
  destruct (String.eqb_spec code "KeyP") as [->|_].
  { cbn [String.eqb Ascii.eqb Bool.eqb andb].
    now destruct (Game.state (Game.game w)). }
  destruct (String.eqb_spec code "Escape") as [->|_].
  { cbn [String.eqb Ascii.eqb Bool.eqb andb].
    now destruct (Game.state (Game.game w)). }
  destruct (String.eqb_spec code "KeyR") as [->|_].
  { cbn [String.eqb Ascii.eqb Bool.eqb andb].
    now destruct (Game.state (Game.game w)). }
  destruct (String.eqb_spec code "KeyS") as [->|_].
  { cbn [String.eqb Ascii.eqb Bool.eqb andb].
    now destruct (Game.state (Game.game w)). }
  cbn [andb]. reflexivity.
Qed.

Lemma explosion_spec n px py : forall ps rnd,
  exists qs,
    fst (Game.explosion n px py ps rnd) = ps ++ qs /\
    List.length qs = n /\
    Forall (freshParticle px py) qs /\
    JS.cursor (snd (Game.explosion n px py ps rnd)) = (JS.cursor rnd + 3 * n)%nat /\
    JS.draws (snd (Game.explosion n px py ps rnd)) = JS.draws rnd.
Proof.
  induction n as [|n IH]; intros ps rnd.
  - exists []. cbn [Game.explosion fst snd List.length]. rewrite app_nil_r.
    repeat split; [constructor|lia].
  - cbn [Game.explosion Particle.new JS.Math_random JS.draws JS.cursor].
    match goal with |- context [Game.explosion n px py (ps ++ [?p]) ?r] =>
      destruct (IH (ps ++ [p]) r) as [qs [H1 [H2 [H3 [H4 H5]]]]]; exists (p :: qs)
    end.
    rewrite H1, H4, H5, <- app_assoc. cbn [app List.length JS.cursor JS.draws].
    split; [reflexivity|]. split; [now rewrite H2|].
    split; [|split; [lia|reflexivity]].
    constructor; [|exact H3]. unfold freshParticle. cbn. repeat split.
Qed.

(** What [gameOver] leaves of a world. *)
Lemma gameOver_fields w :
  Game.state (Game.game (Game.gameOver w)) = GAME_OVER /\
  Game.config (Game.gameOver w) = Game.config w /\
  Game.isJumping (Game.gameOver w) = Game.isJumping w /\
  Game.isMouseDown (Game.gameOver w) = Game.isMouseDown w /\
  Game.player (Game.game (Game.gameOver w)) = Game.player (Game.game w) /\
  Game.obstacleGenerator (Game.game (Game.gameOver w)) = Game.obstacleGenerator (Game.game w) /\
  Game.camera (Game.game (Game.gameOver w)) = Camera.addShake (Game.camera (Game.game w)) 20 /\
  Game.highScore (Game.game (Game.gameOver w))
  = (if Game.highScore (Game.game w) <? Game.score (Game.game w)
     then Game.score (Game.game w) else Game.highScore (Game.game w)) /\
  Game.highDistance (Game.game (Game.gameOver w))
  = (if Game.highDistance (Game.game w) <? Game.distance (Game.game w)
     then JS.Math_floor (Game.distance (Game.game w)) else Game.highDistance (Game.game w)) /\
  LocalStorage.highScore (Game.localStorage (Game.gameOver w))
  = (if Game.highScore (Game.game w) <? Game.score (Game.game w)
     then Some (Game.score (Game.game w)) else LocalStorage.highScore (Game.localStorage w)) /\
  LocalStorage.highDistance (Game.localStorage (Game.gameOver w))
  = (if Game.highDistance (Game.game w) <? Game.distance (Game.game w)
     then Some (JS.Math_floor (Game.distance (Game.game w)))
     else LocalStorage.highDistance (Game.localStorage w)) /\
  Game.particles (Game.game (Game.gameOver w))
  = fst (Game.explosion 50 (centreX (Game.player (Game.game w)))
           (centreY (Game.player (Game.game w))) (Game.particles (Game.game w))
           (Game.random w)) /\
  Game.random (Game.gameOver w)
  = snd (Game.explosion 50 (centreX (Game.player (Game.game w)))
           (centreY (Game.player (Game.game w))) (Game.particles (Game.game w))
           (Game.random w)).
Proof.
  unfold Game.gameOver, centreX, centreY. cbv zeta.
  destruct (Game.explosion _ _ _ _ _) as [ps rnd].
  cbn [Game.game Game.state Game.config Game.isJumping Game.isMouseDown Game.player
       Game.obstacleGenerator Game.camera Game.highScore Game.highDistance
       Game.localStorage LocalStorage.highScore LocalStorage.highDistance
       Game.particles Game.random fst snd].
  destruct (Game.highScore (Game.game w) <? Game.score (Game.game w));
    destruct (Game.highDistance (Game.game w) <? Game.distance (Game.game w));
    repeat (split; [reflexivity|]); reflexivity.
Qed.

(** The [keydown] listener is one switch: of its six [if]s at most one
    fires, the one of the key pressed, and it sees the state the event
    found; any other key leaves the world as it is. *)
Theorem keydown_acts_as_one_switch (code : string) (w : Game.World) :
  Game.keydown code w = keydownSwitch code w /\
  (In code ["Space"; "KeyP"; "Escape"; "KeyR"; "KeyS"; "KeyM"]%string \/
   Game.keydown code w = w).
Proof.
  split; [exact (keydown_switch code w)|].
  rewrite keydown_switch. unfold keydownSwitch.
  destruct (String.eqb_spec code "Space") as [->|_]; [left; cbn; auto|].
  destruct (String.eqb_spec code "KeyP") as [->|_]; [left; cbn; auto|].
  destruct (String.eqb_spec code "Escape") as [->|_]; [left; cbn; auto|].
  destruct (String.eqb_spec code "KeyR") as [->|_]; [left; cbn; auto|].
  destruct (String.eqb_spec code "KeyS") as [->|_]; [left; cbn; auto 6|].
  destruct (String.eqb_spec code "KeyM") as [->|_]; [left; cbn; auto 7|].
  now right.
Qed.

(** Pausing and resuming undo each other, by the buttons and by the Escape
    key alike: from a game being played, pause then resume gives back the
    very same world, and so does resume then pause from a paused one. *)
Theorem pause_and_resume_round_trip (w : Game.World) :
  (Game.state (Game.game w) = PLAYING ->
   Game.resumeGame (Game.pauseGame w) = w /\
   Game.keydown "Escape" (Game.keydown "Escape" w) = w) /\
  (Game.state (Game.game w) = PAUSED ->
   Game.pauseGame (Game.resumeGame w) = w /\
   Game.keydown "Escape" (Game.keydown "Escape" w) = w) /\
  (Game.state (Game.game w) <> PLAYING -> Game.pauseGame w = w) /\
  (Game.state (Game.game w) <> PAUSED -> Game.resumeGame w = w).
Proof.
  rewrite !keydown_switch. unfold keydownSwitch.
  cbn [String.eqb Ascii.eqb Bool.eqb].
  destruct w as [g cfg rnd stored j m]. destruct g as [s sc hs hd sp d pl cam gen ps bo].
  unfold Game.pauseGame, Game.resumeGame, Game.with_game, Game.with_state.
  cbn [Game.game Game.state Game.config Game.random Game.localStorage Game.isJumping
       Game.isMouseDown Game.score Game.highScore Game.highDistance Game.gameSpeed
       Game.distance Game.player Game.camera Game.obstacleGenerator Game.particles
       Game.backgroundOffset].
  split; [intros H; subst s; split; reflexivity|].
  split; [intros H; subst s; split; reflexivity|].
  split; intros H; destruct s; try reflexivity; now elim H.
Qed.

(** A held Space key jumps once: while the game is played, a repeated
    [keydown] changes nothing more until a [keyup] clears the flag. *)
Theorem held_space_jumps_once (w : Game.World) :
  Game.state (Game.game w) = PLAYING ->
  Game.keydown "Space" (Game.keydown "Space" w) = Game.keydown "Space" w /\
  Game.isJumping (Game.keydown "Space" w) = true /\
  Game.isJumping (Game.keyup "Space" (Game.keydown "Space" w)) = false /\
  Game.player (Game.game (Game.keydown "Space" w))
  = (if Game.isJumping w then Game.player (Game.game w)
     else Player.jump (Game.config w) (Game.player (Game.game w))).
Proof.
  intros Hs. rewrite !keydown_switch. unfold keydownSwitch, Game.keyup.
  cbn [String.eqb Ascii.eqb Bool.eqb]. rewrite Hs.
  destruct (Game.isJumping w) eqn:Hj.
  - rewrite Hs, Hj. repeat split; reflexivity.
  - cbn [Game.setJumping Game.playerJump Game.with_game Game.with_player Game.game
         Game.state Game.isJumping].
    rewrite Hs. repeat split; reflexivity.
Qed.

Lemma held_space_jumps_once_witness :
  Game.keydown "Space" (Game.keydown "Space" exampleWorld) = Game.keydown "Space" exampleWorld.
Proof. exact (proj1 (held_space_jumps_once exampleWorld eq_refl)). Defined.

(** [startGame] is a full restart and restarting twice is restarting once:
    score and distance at 0, speed at 5, no obstacle, no particle, a still
    camera, nothing to collide with; the high scores, the stored records and
    the player's trail are kept. *)
Theorem startGame_restarts_once (w : Game.World) :
  Game.startGame (Game.startGame w) = Game.startGame w /\
  Game.state (Game.game (Game.startGame w)) = PLAYING /\
  restarts (Game.startGame w) /\
  ObstacleGenerator.checkCollision
    (Game.obstacleGenerator (Game.game (Game.startGame w)))
    (Game.player (Game.game (Game.startGame w))) = false /\
  Game.particles (Game.game (Game.startGame w)) = [] /\
  Game.camera (Game.game (Game.startGame w)) = Camera.new /\
  Game.highScore (Game.game (Game.startGame w)) = Game.highScore (Game.game w) /\
  Game.highDistance (Game.game (Game.startGame w)) = Game.highDistance (Game.game w) /\
  Game.localStorage (Game.startGame w) = Game.localStorage w /\
  Player.trail (Game.player (Game.game (Game.startGame w)))
  = Player.trail (Game.player (Game.game w)).
Proof. repeat split. Qed.

(** The explosion of a game over: 50 particles are appended, all at the
    centre of the player's square, red, with a full life; the state is
    GameOver, and 150 random numbers were drawn. *)
Theorem gameOver_explodes (w : Game.World) :
  Game.state (Game.game (Game.gameOver w)) = GAME_OVER /\
  exists burst,
    Game.particles (Game.game (Game.gameOver w)) = Game.particles (Game.game w) ++ burst /\
    List.length burst = 50%nat /\
    Forall (freshParticle (centreX (Game.player (Game.game w)))
              (centreY (Game.player (Game.game w)))) burst /\
    JS.cursor (Game.random (Game.gameOver w)) = (JS.cursor (Game.random w) + 150)%nat /\
    JS.draws (Game.random (Game.gameOver w)) = JS.draws (Game.random w).
Proof.
  destruct (gameOver_fields w) as [Hs [_ [_ [_ [_ [_ [_ [_ [_ [_ [_ [Hp Hr]]]]]]]]]]]].
  split; [exact Hs|]. rewrite Hp, Hr.
  destruct (explosion_spec 50 (centreX (Game.player (Game.game w)))
              (centreY (Game.player (Game.game w))) (Game.particles (Game.game w))
              (Game.random w)) as [qs [H1 [H2 [H3 [H4 H5]]]]].
  exists qs. rewrite H1, H4, H5. repeat split; auto.
Qed.

(** The records at a game over: the high score is replaced, and written to
    the store, exactly when the score is strictly above it; likewise the
    high distance, which takes the floor of the distance. *)
Theorem gameOver_keeps_records (w : Game.World) :
  ((Game.highScore (Game.game w) <? Game.score (Game.game w)) = true /\
   Game.highScore (Game.game (Game.gameOver w)) = Game.score (Game.game w) /\
   LocalStorage.highScore (Game.localStorage (Game.gameOver w))
   = Some (Game.score (Game.game w))
   \/
   (Game.highScore (Game.game w) <? Game.score (Game.game w)) = false /\
   Game.highScore (Game.game (Game.gameOver w)) = Game.highScore (Game.game w) /\
   LocalStorage.highScore (Game.localStorage (Game.gameOver w))
   = LocalStorage.highScore (Game.localStorage w)) /\
  ((Game.highDistance (Game.game w) <? Game.distance (Game.game w)) = true /\
   Game.highDistance (Game.game (Game.gameOver w)) = JS.Math_floor (Game.distance (Game.game w)) /\
   LocalStorage.highDistance (Game.localStorage (Game.gameOver w))
   = Some (JS.Math_floor (Game.distance (Game.game w)))
   \/
   (Game.highDistance (Game.game w) <? Game.distance (Game.game w)) = false /\
   Game.highDistance (Game.game (Game.gameOver w)) = Game.highDistance (Game.game w) /\
   LocalStorage.highDistance (Game.localStorage (Game.gameOver w))
   = LocalStorage.highDistance (Game.localStorage w)).
Proof.
  destruct (gameOver_fields w) as [_ [_ [_ [_ [_ [_ [_ [H1 [H2 [H3 [H4 _]]]]]]]]]]].
  rewrite H1, H2, H3, H4.
  destruct (Game.highScore (Game.game w) <? Game.score (Game.game w));
    destruct (Game.highDistance (Game.game w) <? Game.distance (Game.game w));
    split; auto.
Qed.

End HandlerFacts.

(** ** Game: what every run keeps true *)
Module SessionFacts.
Import Binary64 FloatFacts ArithFacts Props HandlerFacts.
Local Open Scope float_scope.

(** A property kept by each handler is kept by every event, hence true of
    every reachable world once the constructor establishes it. *)
Section Handlers.
Variable P : Game.World -> Prop.
Hypothesis P_startGame : forall w, P w -> P (Game.startGame w).
Hypothesis P_pauseGame : forall w, P w -> P (Game.pauseGame w).
Hypothesis P_resumeGame : forall w, P w -> P (Game.resumeGame w).
Hypothesis P_showMenu : forall w, P w -> P (Game.showMenu w).
Hypothesis P_playerJump : forall w, P w -> P (Game.playerJump w).
Hypothesis P_setJumping : forall w b, P w -> P (Game.setJumping w b).
Hypothesis P_setMouseDown : forall w b, P w -> P (Game.setMouseDown w b).
Hypothesis P_resize : forall iw ih w, P w -> P (Game.resize iw ih w).

Lemma keydown_preserves code w : P w -> P (Game.keydown code w).
Proof.
  intros H. rewrite keydown_switch. unfold keydownSwitch.
  destruct (String.eqb code "Space").
  { destruct (Game.state (Game.game w)); auto. destruct (Game.isJumping w); auto. }
  destruct (String.eqb code "KeyP"); [destruct (Game.state (Game.game w)); auto|].
  destruct (String.eqb code "Escape"); [destruct (Game.state (Game.game w)); auto|].
  destruct (String.eqb code "KeyR"); [destruct (Game.state (Game.game w)); auto|].
  destruct (String.eqb code "KeyS"); [destruct (Game.state (Game.game w)); auto|].
  destruct (String.eqb code "KeyM"); auto.
Qed.

Lemma handler_preserves w ev w' :
  isFrame ev = false -> P w -> Game.dispatch w ev = Some w' -> P w'.
Proof.
  intros Hf H Hd. destruct ev; cbn [Game.dispatch isFrame] in Hd, Hf; try discriminate Hf;
    match type of Hd with Some ?v = Some _ => assert (E : v = w') by congruence end;
    subst w'; clear Hd.
  - now apply keydown_preserves.
  - unfold Game.keyup. destruct (String.eqb code "Space"); auto.
  - unfold Game.handleJump. destruct (Game.state (Game.game w)); auto.
  - unfold Game.handleRelease. auto.
  - auto.
  - auto.
  - auto.
  - auto.
  - auto.
  - exact H.
Qed.

Hypothesis P_update : forall w w', P w -> Game.update w = Some w' -> P w'.
Hypothesis P_draw : forall w, P w -> P (Game.draw w).

Lemma dispatch_preserves w ev w' : P w -> Game.dispatch w ev = Some w' -> P w'.
Proof.
  intros H Hd. destruct (isFrame ev) eqn:Hf.
  - destruct ev; try discriminate Hf. cbn [Game.dispatch] in Hd. unfold Game.gameLoop in Hd.
    destruct (Game.update w) as [w1|] eqn:Hu; [|discriminate].
    assert (E : Game.draw w1 = w') by congruence. subst w'.
    apply P_draw. now apply (P_update w).
  - now apply (handler_preserves w ev).
Qed.

Hypothesis P_new : forall iw ih stored rnd, P (Game.new iw ih stored rnd).

Lemma reachable_preserves w : Game.reachable w -> P w.
Proof.
  induction 1 as [iw ih stored rnd|w ev w' _ IH Hd]; [apply P_new|].
  now apply (dispatch_preserves w ev).
Qed.

End Handlers.

(** *** One frame *)

Lemma tick_shape cfg p :
  Player.x (tick cfg p) = Player.x p /\ Player.width (tick cfg p) = Player.width p /\
  Player.height (tick cfg p) = Player.height p.
Proof.
  unfold tick, Player.update.
  destruct (_ <=? _); destruct (_ <=? _); repeat split.
Qed.

Lemma jump_shape cfg p :
  Player.x (Player.jump cfg p) = Player.x p /\ Player.y (Player.jump cfg p) = Player.y p /\
  Player.width (Player.jump cfg p) = Player.width p /\
  Player.height (Player.jump cfg p) = Player.height p /\
  Player.trail (Player.jump cfg p) = Player.trail p.
Proof. unfold Player.jump. destruct (Player.onGround p); repeat split. Qed.

(** With draws in [0, 1) and the script's catalog the generator's [update]
    returns. *)
Lemma generator_update_total cfg g gameSpeed distance rnd :
  JS.well_formed rnd ->
  ObstacleGenerator.obstacleTypes g = ObstacleGenerator.catalog ->
  exists g' rnd', ObstacleGenerator.update cfg g gameSpeed distance rnd = Some (g', rnd').
Proof.
  intros Hwf Ht. unfold ObstacleGenerator.update.
  destruct (ObstacleGenerator.spawns cfg _).
  - destruct (ObstacleFacts.generateObstacle_appends cfg
                {| ObstacleGenerator.obstacles :=
                     ObstacleGenerator.scrolled (ObstacleGenerator.obstacles g) gameSpeed;
                   ObstacleGenerator.nextObstacleX := ObstacleGenerator.nextObstacleX g;
                   ObstacleGenerator.obstacleTypes := ObstacleGenerator.obstacleTypes g |}
                gameSpeed distance rnd Hwf Ht) as [g' [rnd' [_ [H _]]]].
    now exists g', rnd'.
  - now do 2 eexists.
Qed.

(** A Playing-state [update()] that returns: the world [w1] it has built
    when it reaches the collision check, and what it returns. *)
Lemma update_playing_world w w' :
  Game.state (Game.game w) = PLAYING -> Game.update w = Some w' ->
  exists generator1 rnd w1,
    ObstacleGenerator.update (Game.config w) (Game.obstacleGenerator (Game.game w))
      (Game.speedFor (Game.distance (Game.game w) + Game.gameSpeed (Game.game w) * 0.1))
      (Game.distance (Game.game w) + Game.gameSpeed (Game.game w) * 0.1)
      (Game.random w) = Some (generator1, rnd) /\
    (Game.config w1 = Game.config w /\
     Game.localStorage w1 = Game.localStorage w /\
     Game.random w1 = rnd /\
     Game.state (Game.game w1) = PLAYING /\
     Game.highScore (Game.game w1) = Game.highScore (Game.game w) /\
     Game.player (Game.game w1) = tick (Game.config w) (Game.player (Game.game w)) /\
     Game.camera (Game.game w1) = Camera.update (Game.camera (Game.game w)) /\
     Game.obstacleGenerator (Game.game w1) = generator1 /\
     Game.particles (Game.game w1) = Game.particles (Game.game w)) /\
    (w' = Game.gameOver w1 \/
     Game.config w' = Game.config w /\
     Game.localStorage w' = Game.localStorage w /\
     Game.random w' = rnd /\
     Game.state (Game.game w') = PLAYING /\
     Game.highScore (Game.game w') = Game.highScore (Game.game w) /\
     Game.player (Game.game w') = tick (Game.config w) (Game.player (Game.game w)) /\
     Game.camera (Game.game w') = Camera.update (Game.camera (Game.game w)) /\
     Game.obstacleGenerator (Game.game w') = generator1 /\
     Game.particles (Game.game w')
     = filter (fun p => negb (Particle.isDead p))
         (map Particle.update (Game.particles (Game.game w)))).
Proof.
  intros Hs. unfold Game.update. rewrite Hs. unfold tick.
  pose proof (PlayerFacts.update_returns_alive (Game.config w) (Game.player (Game.game w))) as Ha.
  destruct (Player.update (Game.config w) (Game.player (Game.game w))) as [player1 playerState].
  cbn [fst snd] in *. subst playerState. cbn [String.eqb Ascii.eqb Bool.eqb].
  destruct (ObstacleGenerator.update _ _ _ _ _) as [[generator1 rnd]|]; [|discriminate].
  destruct (ObstacleGenerator.checkCollision generator1 player1).
  - match goal with |- Some (Game.gameOver ?v) = _ -> _ => set (w1 := v) end.
    intros E. assert (Hw : w' = Game.gameOver w1) by congruence. clear E.
    exists generator1, rnd, w1. split; [reflexivity|]. split; [|now left].
    subst w1. cbn [Game.game Game.config Game.localStorage Game.random Game.state
                   Game.highScore Game.player Game.camera Game.obstacleGenerator
                   Game.particles].
    repeat (split; [reflexivity|]). reflexivity.
  - match goal with |- Some (Game.with_game ?v _) = _ -> _ => set (w1 := v) end.
    intros E.
    match type of E with Some ?v = _ => assert (Hw : w' = v) by congruence end. clear E.
    exists generator1, rnd, w1. split; [reflexivity|]. subst w' w1.
    cbn [Game.with_game Game.game Game.config Game.localStorage Game.random Game.state
         Game.highScore Game.player Game.camera Game.obstacleGenerator Game.particles].
    split; [|right]; repeat (split; [reflexivity|]); reflexivity.
Qed.

Lemma draw_fields w :
  Game.game (Game.draw w) = Game.game w /\ Game.config (Game.draw w) = Game.config w /\
  Game.localStorage (Game.draw w) = Game.localStorage w /\
  JS.draws (Game.random (Game.draw w)) = JS.draws (Game.random w) /\
  (Game.state (Game.game w) = MENU -> Game.draw w = w).
Proof.
  unfold Game.draw, Camera.getShakeOffset.
  destruct (Game.state (Game.game w)); try (repeat split; discriminate);
    try (destruct (0 <? Camera.shake (Game.camera (Game.game w)));
         cbn [JS.Math_random fst snd Game.game Game.config Game.localStorage Game.random JS.draws];
         repeat split; discriminate).
Qed.

(** *** The steady part of a world *)

Lemma scriptConfig_constants cfg :
  scriptConfig cfg ->
  GRAVITY cfg = 0.8 /\ JUMP_FORCE cfg = -15 /\ GROUND_HEIGHT cfg = 100 /\ PLAYER_SIZE cfg = 40.
Proof. unfold scriptConfig. intros ->. repeat split. Qed.

Lemma steady_new iw ih stored rnd : steady (Game.new iw ih stored rnd).
Proof.
  unfold steady, underWay. cbn.
  split; [reflexivity|]. split; [reflexivity|]. split; [repeat split|].
  split; [apply PlayerTrailFacts.agedTrail_new|].
  split; [intros [H|H]; discriminate H|]. split; now left.
Qed.

Lemma steady_startGame w : steady w -> steady (Game.startGame w).
Proof.
  unfold steady, underWay. intros [Hc [Ht [_ [Hl _]]]].
  destruct (scriptConfig_constants _ Hc) as [_ [_ [_ Hp]]].
  cbn [Game.startGame Game.with_game Game.game Game.config Game.state Game.player
       Game.obstacleGenerator Game.particles Game.camera ObstacleGenerator.reset
       ObstacleGenerator.obstacleTypes Player.reset Player.x Player.width Player.height
       Player.trail].
  split; [exact Hc|]. split; [exact Ht|]. split; [now rewrite Hp|].
  split; [exact Hl|]. split; [now split|]. split; now left.
Qed.

(** A handler that only moves the state within a run, or leaves the game
    object alone, keeps the world steady. *)
Lemma steady_same_game w w' :
  Game.config w' = Game.config w ->
  Game.obstacleGenerator (Game.game w') = Game.obstacleGenerator (Game.game w) ->
  Game.player (Game.game w') = Game.player (Game.game w) ->
  Game.particles (Game.game w') = Game.particles (Game.game w) ->
  Game.camera (Game.game w') = Game.camera (Game.game w) ->
  (underWay w' -> underWay w) ->
  steady w -> steady w'.
Proof.
  unfold steady. intros -> -> -> -> -> Hu [Hc [Ht [Hp [Hl [Hr [Hps Hcam]]]]]].
  repeat (split; [assumption|]). split; [auto|]. now split.
Qed.

Lemma steady_pauseGame w : steady w -> steady (Game.pauseGame w).
Proof.
  unfold Game.pauseGame. destruct (Game.state (Game.game w)) eqn:Hs; auto.
  apply steady_same_game; try reflexivity. intros _. now left.
Qed.

Lemma steady_resumeGame w : steady w -> steady (Game.resumeGame w).
Proof.
  unfold Game.resumeGame. destruct (Game.state (Game.game w)) eqn:Hs; auto.
  apply steady_same_game; try reflexivity. intros _. now right.
Qed.

Lemma steady_showMenu w : steady w -> steady (Game.showMenu w).
Proof.
  apply steady_same_game; try reflexivity. intros [H|H]; discriminate H.
Qed.

Lemma steady_setJumping w b : steady w -> steady (Game.setJumping w b).
Proof. apply steady_same_game; try reflexivity. auto. Qed.

Lemma steady_setMouseDown w b : steady w -> steady (Game.setMouseDown w b).
Proof. apply steady_same_game; try reflexivity. auto. Qed.

Lemma steady_draw w : steady w -> steady (Game.draw w).
Proof.
  destruct (draw_fields w) as [Hg [Hc _]].
  apply steady_same_game; rewrite ?Hg; auto. unfold underWay. now rewrite Hg.
Qed.

Lemma steady_resize iw ih w : steady w -> steady (Game.resize iw ih w).
Proof.
  unfold steady, underWay. intros [Hc H].
  destruct (scriptConfig_constants _ Hc) as [H1 [H2 [H3 H4]]].
  cbn [Game.resize Game.game Game.config].
  split; [|exact H].
  unfold scriptConfig in *. rewrite Hc. reflexivity.
Qed.

Lemma steady_playerJump w : steady w -> steady (Game.playerJump w).
Proof.
  unfold steady, underWay, centreX, centreY. intros [Hc [Ht [Hp [Hl [Hr [Hps Hcam]]]]]].
  destruct (jump_shape (Game.config w) (Game.player (Game.game w))) as [Jx [Jy [Jw [Jh Jt]]]].
  cbn [Game.playerJump Game.with_game Game.with_player Game.game Game.config Game.state
       Game.player Game.obstacleGenerator Game.particles Game.camera].
  rewrite Jx, Jy, Jw, Jh, Jt. auto 10.
Qed.

Lemma steady_update w w' : steady w -> Game.update w = Some w' -> steady w'.
Proof.
  intros Hst Hu.
  destruct (GameState_eqb (Game.state (Game.game w)) PLAYING) eqn:Hs.
  - assert (Hp : Game.state (Game.game w) = PLAYING)
      by (destruct (Game.state (Game.game w)); try discriminate; reflexivity).
    destruct (update_playing_world w w' Hp Hu)
      as [generator1 [rnd [w1 [Hg [[F1 [F2 [F3 [F4 [F5 [F6 [F7 [F8 F9]]]]]]]] Hw]]]]].
    destruct Hst as [Hc [Ht [[Px [Pw Ph]] [Hl [Hr _]]]]].
    destruct (Hr (or_introl Hp)) as [Hps Hcam].
    destruct (GeneratorFacts.update_shape _ _ _ _ _ _ _ Hg) as [Hty _].
    destruct (tick_shape (Game.config w) (Game.player (Game.game w))) as [Tx [Tw Th]].
    pose proof (PlayerTrailFacts.agedTrail_tick (Game.config w) (Game.player (Game.game w)) Hl)
      as Hl'.
    assert (Hcam' : Camera.update (Game.camera (Game.game w)) = Camera.new)
      by (rewrite Hcam; reflexivity).
    destruct Hw as [->|[G1 [G2 [G3 [G4 [G5 [G6 [G7 [G8 G9]]]]]]]]].
    + destruct (gameOver_fields w1)
        as [Os [Oc [_ [_ [Op [Og [Ocam [_ [_ [_ [_ [Ops _]]]]]]]]]]]].
      destruct (explosion_spec 50 (centreX (Game.player (Game.game w1)))
                  (centreY (Game.player (Game.game w1))) (Game.particles (Game.game w1))
                  (Game.random w1)) as [qs [E1 [E2 [E3 _]]]].
      unfold steady, underWay. rewrite Os, Oc, Op, Og, Ocam, Ops, E1, F1, F6, F7, F8, F9.
      rewrite Hps, Hcam', Tx, Tw, Th, Hty. cbn [app].
      split; [exact Hc|]. split; [exact Ht|]. split; [auto|]. split; [exact Hl'|].
      split; [intros [H|H]; discriminate H|].
      split; [right; split; [exact E2|]|now right].
      rewrite F6 in E3. exact E3.
    + unfold steady, underWay. rewrite G1, G4, G6, G7, G8, G9, Hps, Hcam', Tx, Tw, Th, Hty.
      cbn [map filter].
      split; [exact Hc|]. split; [exact Ht|]. split; [auto|]. split; [exact Hl'|].
      split; [now split|]. split; now left.
  - rewrite GameFacts.update_not_playing in Hu by (intros E; rewrite E in Hs; discriminate).
    assert (E : w = w') by congruence. now subst w'.
Qed.

(** Every reachable world is steady. *)
Lemma reachable_steady w : Game.reachable w -> steady w.
Proof.
  apply (reachable_preserves steady).
  - exact steady_startGame.
  - exact steady_pauseGame.
  - exact steady_resumeGame.
  - exact steady_showMenu.
  - exact steady_playerJump.
  - exact steady_setJumping.
  - exact steady_setMouseDown.
  - exact steady_resize.
  - exact steady_update.
  - exact steady_draw.
  - exact steady_new.
Qed.

End SessionFacts.

(** ** Game: runs *)
Module RunFacts.
Import Binary64 FloatFacts ArithFacts Props HandlerFacts SessionFacts.
Local Open Scope float_scope.

(** *** Frames always complete *)

Lemma update_total w :
  steady w -> JS.well_formed (Game.random w) ->
  exists w', Game.update w = Some w' /\
             JS.draws (Game.random w') = JS.draws (Game.random w).
Proof.
  intros Hst Hwf.
  destruct (GameState_eqb (Game.state (Game.game w)) PLAYING) eqn:Hs.
  - assert (Hp : Game.state (Game.game w) = PLAYING)
      by (destruct (Game.state (Game.game w)); try discriminate; reflexivity).
    destruct Hst as [_ [Ht _]].
    destruct (generator_update_total (Game.config w) (Game.obstacleGenerator (Game.game w))
                (Game.speedFor (Game.distance (Game.game w) + Game.gameSpeed (Game.game w) * 0.1))
                (Game.distance (Game.game w) + Game.gameSpeed (Game.game w) * 0.1)
                (Game.random w) Hwf Ht) as [g' [rnd' Hg]].
    destruct (GeneratorFacts.update_shape _ _ _ _ _ _ _ Hg) as [_ [Hd _]].
    unfold Game.update. rewrite Hp.
    pose proof (PlayerFacts.update_returns_alive (Game.config w) (Game.player (Game.game w))) as Ha.
    destruct (Player.update (Game.config w) (Game.player (Game.game w))) as [player1 playerState].
    cbn [fst snd] in *. subst playerState. cbn [String.eqb Ascii.eqb Bool.eqb].
    rewrite Hg. destruct (ObstacleGenerator.checkCollision g' player1).
    + eexists. split; [reflexivity|].
      match goal with |- context [Game.gameOver ?v] =>
        destruct (gameOver_fields v) as [_ [_ [_ [_ [_ [_ [_ [_ [_ [_ [_ [_ Hr]]]]]]]]]]]];
        rewrite Hr
      end.
      match goal with |- context [Game.explosion ?n ?a ?b ?c ?d] =>
        destruct (explosion_spec n a b c d) as [_ [_ [_ [_ [_ He]]]]]; rewrite He
      end.
      exact Hd.
    + eexists. split; [reflexivity|]. exact Hd.
  - exists w. split; [|reflexivity].
    apply GameFacts.update_not_playing. intros E. rewrite E in Hs. discriminate.
Qed.

Lemma speedFor_bounds d :
  fle 0 d -> fle d maxFloat -> fle 5 (Game.speedFor d) /\ fle (Game.speedFor d) 10.
Proof.
  intros H0 Hm.
  assert (F500 : ffin 500 = true) by reflexivity.
  assert (Fd : ffin d = true).
  { apply (ffin_between 0 maxFloat); [reflexivity|reflexivity|exact H0|exact Hm]. }
  assert (Hq : fle 0 (d / 500)).
  { apply (fdiv_mono_l 500 0 d F500 ltac:(reflexivity) ltac:(reflexivity) Fd H0). }
  assert (Hq' : fle (d / 500) (maxFloat / 500)).
  { apply (fdiv_mono_l 500 d maxFloat F500 ltac:(reflexivity) Fd ltac:(reflexivity) Hm). }
  assert (Fq : ffin (d / 500) = true).
  { apply (ffin_between 0 (maxFloat / 500)); [reflexivity|reflexivity|exact Hq|exact Hq']. }
  assert (Ha : fle 5 (5 + d / 500)).
  { apply (fadd_mono_r 5 0 (d / 500) ltac:(reflexivity) ltac:(reflexivity) Fq Hq). }
  assert (Na : fnan (5 + d / 500) = false) by (apply fle_iff in Ha; tauto).
  destruct (Math_min_spec (5 + d / 500) 10 Na eq_refl) as [[E|E] [_ H10]];
    unfold Game.speedFor; rewrite E in *; split; auto; reflexivity.
Qed.

(** *** The state machine *)

Lemma keydown_state code w :
  Game.state (Game.game (Game.keydown code w)) = keyState code (Game.state (Game.game w)).
Proof.
  rewrite keydown_switch. unfold keydownSwitch, keyState, Game.pauseGame, Game.resumeGame.
  repeat match goal with
         | |- context [String.eqb code ?k] => destruct (String.eqb code k)
         end;
    destruct (Game.state (Game.game w)) eqn:Hs; try reflexivity; try exact Hs;
    destruct (Game.isJumping w); try reflexivity; exact Hs.
Qed.

Lemma update_state w w' :
  Game.update w = Some w' ->
  Game.state (Game.game w') = Game.state (Game.game w) \/
  (Game.state (Game.game w) = PLAYING /\ Game.state (Game.game w') = GAME_OVER).
Proof.
  intros Hu.
  destruct (GameState_eqb (Game.state (Game.game w)) PLAYING) eqn:Hs.
  - assert (Hp : Game.state (Game.game w) = PLAYING)
      by (destruct (Game.state (Game.game w)); try discriminate; reflexivity).
    destruct (GameFacts.update_playing w w' Hp Hu) as [_ [_ [_ [_ [_ [_ [[H _]|[H _]]]]]]]].
    + right. now split.
    + left. congruence.
  - rewrite GameFacts.update_not_playing in Hu by (intros E; rewrite E in Hs; discriminate).
    left. congruence.
Qed.

(** The state after an event that is not a frame is read off the state
    before it and the event; a frame keeps the state or ends a game being
    played. *)
Lemma dispatch_state w ev w' :
  Game.dispatch w ev = Some w' ->
  (isFrame ev = false ->
   Game.state (Game.game w') = transition (Game.state (Game.game w)) ev) /\
  (isFrame ev = true ->
   Game.state (Game.game w') = Game.state (Game.game w) \/
   (Game.state (Game.game w) = PLAYING /\ Game.state (Game.game w') = GAME_OVER)).
Proof.
  intros Hd. destruct ev; cbn [Game.dispatch isFrame transition] in *;
    try (match type of Hd with Some ?v = Some _ => assert (E : v = w') by congruence end;
         subst w'; clear Hd; split; [intros _|discriminate]).
  - apply keydown_state.
  - unfold Game.keyup. now destruct (String.eqb code "Space").
  - unfold Game.handleJump.
    destruct (Game.state (Game.game w)) eqn:Hs; try reflexivity; exact Hs.
  - reflexivity.
  - reflexivity.
  - unfold Game.pauseGame.
    destruct (Game.state (Game.game w)) eqn:Hs; try reflexivity; exact Hs.
  - unfold Game.resumeGame.
    destruct (Game.state (Game.game w)) eqn:Hs; try reflexivity; exact Hs.
  - reflexivity.
  - split; [discriminate|intros _]. unfold Game.gameLoop in Hd.
    destruct (Game.update w) as [w1|] eqn:Hu; [|discriminate].
    assert (E : Game.draw w1 = w') by congruence. subst w'.
    rewrite GameFacts.draw_game. now apply update_state.
  - reflexivity.
  - reflexivity.
Qed.

Lemma transition_origin s ev :
  (transition s ev = GAME_OVER -> s = GAME_OVER) /\
  (transition s ev = PAUSED -> s = PAUSED \/ s = PLAYING).
Proof.
  destruct ev; cbn [transition]; unfold keyState;
    repeat match goal with
           | |- context [String.eqb ?c ?k] => destruct (String.eqb c k)
           end;
    destruct s; split; intros H; try discriminate H; auto.
Qed.

(** *** The high score *)

Lemma raisedFrom_same h w w' :
  Game.highScore (Game.game w') = Game.highScore (Game.game w) ->
  raisedFrom h w -> raisedFrom h w'.
Proof. unfold raisedFrom. now intros ->. Qed.

Lemma raisedFrom_update h w w' :
  raisedFrom h w -> Game.update w = Some w' -> raisedFrom h w'.
Proof.
  intros H Hu.
  destruct (GameState_eqb (Game.state (Game.game w)) PLAYING) eqn:Hs.
  - assert (Hp : Game.state (Game.game w) = PLAYING)
      by (destruct (Game.state (Game.game w)); try discriminate; reflexivity).
    destruct (update_playing_world w w' Hp Hu)
      as [generator1 [rnd [w1 [_ [[_ [_ [_ [_ [F5 _]]]]] Hw]]]]].
    destruct Hw as [->|[_ [_ [_ [_ [G5 _]]]]]].
    + destruct (gameOver_fields w1) as [_ [_ [_ [_ [_ [_ [_ [Hh _]]]]]]]].
      unfold raisedFrom in *. rewrite Hh, F5.
      destruct (Game.highScore (Game.game w) <? Game.score (Game.game w1)) eqn:Hl; [|exact H].
      right. destruct H as [<-|H]; [exact Hl|]. now apply (flt_trans _ _ _ H).
    + now apply (raisedFrom_same h w).
  - rewrite GameFacts.update_not_playing in Hu by (intros E; rewrite E in Hs; discriminate).
    assert (E : w = w') by congruence. now subst w'.
Qed.

Lemma raisedFrom_dispatch h w ev w' :
  raisedFrom h w -> Game.dispatch w ev = Some w' -> raisedFrom h w'.
Proof.
  apply (dispatch_preserves (raisedFrom h)).
  - intros v. now apply raisedFrom_same.
  - intros v. apply raisedFrom_same. unfold Game.pauseGame.
    now destruct (Game.state (Game.game v)).
  - intros v. apply raisedFrom_same. unfold Game.resumeGame.
    now destruct (Game.state (Game.game v)).
  - intros v. now apply raisedFrom_same.
  - intros v. now apply raisedFrom_same.
  - intros v b. now apply raisedFrom_same.
  - intros v b. now apply raisedFrom_same.
  - intros iw ih v. now apply raisedFrom_same.
  - intros v v'. apply raisedFrom_update.
  - intros v. apply raisedFrom_same. now rewrite GameFacts.draw_game.
Qed.

(** *** Properties of every run *)

(** While a run is under way (Playing or Paused) the particle list is
    empty, so the particle pass of [update()] never has a particle to move
    or to drop.  The particles of an explosion are never updated: a
    reachable world holds none, or the 50 of the last game over, each with
    its full life at the place the player died. *)
Theorem explosion_particles_never_move (w : Game.World) :
  Game.reachable w ->
  (underWay w -> Game.particles (Game.game w) = []) /\
  (Game.particles (Game.game w) = [] \/
   (List.length (Game.particles (Game.game w)) = 50%nat /\
    Forall (freshParticle (centreX (Game.player (Game.game w)))
              (centreY (Game.player (Game.game w))))
      (Game.particles (Game.game w)))).
Proof.
  intros Hr. destruct (reachable_steady w Hr) as [_ [_ [_ [_ [Hu [Hp _]]]]]].
  split; [|exact Hp]. intros H. now destruct (Hu H).
Qed.

Lemma explosion_particles_never_move_witness :
  (underWay exampleWorld -> Game.particles (Game.game exampleWorld) = []) /\
  (Game.particles (Game.game exampleWorld) = [] \/
   (List.length (Game.particles (Game.game exampleWorld)) = 50%nat /\
    Forall (freshParticle (centreX (Game.player (Game.game exampleWorld)))
              (centreY (Game.player (Game.game exampleWorld))))
      (Game.particles (Game.game exampleWorld)))).
Proof. exact (explosion_particles_never_move exampleWorld GameFacts.exampleWorld_reachable). Defined.

(** The camera of a reachable world is either still or carries the shake of
    20 a game over gave it: while a run is under way it is still, so the
    decay of [Camera.update] never meets a positive shake, and the shake of
    a game over lasts until the next start. *)
Theorem shake_is_never_decayed (w : Game.World) :
  Game.reachable w ->
  (underWay w -> Game.camera (Game.game w) = Camera.new) /\
  (Game.camera (Game.game w) = Camera.new \/ Game.camera (Game.game w) = shakenCamera) /\
  (underWay w -> Camera.update (Game.camera (Game.game w)) = Game.camera (Game.game w)).
Proof.
  intros Hr. destruct (reachable_steady w Hr) as [_ [_ [_ [_ [Hu [_ Hc]]]]]].
  split; [intros H; now destruct (Hu H)|]. split; [exact Hc|].
  intros H. destruct (Hu H) as [_ ->]. reflexivity.
Qed.

Lemma shake_is_never_decayed_witness :
  (underWay exampleWorld -> Game.camera (Game.game exampleWorld) = Camera.new) /\
  (Game.camera (Game.game exampleWorld) = Camera.new \/
   Game.camera (Game.game exampleWorld) = shakenCamera) /\
  (underWay exampleWorld ->
   Camera.update (Game.camera (Game.game exampleWorld)) = Game.camera (Game.game exampleWorld)).
Proof. exact (shake_is_never_decayed exampleWorld GameFacts.exampleWorld_reachable). Defined.

(** In every reachable world the player stands in its column, [x = 100],
    with its 40 by 40 square; its trail holds at most 19 samples; and the
    configuration still has the script's constants, only the canvas size
    having possibly changed. *)
Theorem player_keeps_its_column (w : Game.World) :
  Game.reachable w ->
  Player.x (Game.player (Game.game w)) = 100 /\
  Player.width (Game.player (Game.game w)) = 40 /\
  Player.height (Game.player (Game.game w)) = 40 /\
  (List.length (Trail.points (Player.trail (Game.player (Game.game w)))) <= 19)%nat /\
  Game.config w = CONFIG (CANVAS_WIDTH (Game.config w)) (CANVAS_HEIGHT (Game.config w)) /\
  ObstacleGenerator.obstacleTypes (Game.obstacleGenerator (Game.game w))
  = ObstacleGenerator.catalog.
Proof.
  intros Hr. destruct (reachable_steady w Hr) as [Hc [Ht [[Px [Pw Ph]] [[_ [m [Hm Hl]]] _]]]].
  repeat (split; [assumption|]). split; [|split; assumption].
  unfold lives in Hl.
  now rewrite <- (length_map Trail.life), Hl, PlayerTrailFacts.agedLives_length.
Qed.

Lemma player_keeps_its_column_witness :
  Player.x (Game.player (Game.game exampleWorld)) = 100 /\
  Player.width (Game.player (Game.game exampleWorld)) = 40 /\
  Player.height (Game.player (Game.game exampleWorld)) = 40 /\
  (List.length (Trail.points (Player.trail (Game.player (Game.game exampleWorld)))) <= 19)%nat /\
  Game.config exampleWorld
  = CONFIG (CANVAS_WIDTH (Game.config exampleWorld)) (CANVAS_HEIGHT (Game.config exampleWorld)) /\
  ObstacleGenerator.obstacleTypes (Game.obstacleGenerator (Game.game exampleWorld))
  = ObstacleGenerator.catalog.
Proof. exact (player_keeps_its_column exampleWorld GameFacts.exampleWorld_reachable). Defined.

(** With [Math.random()] in [0, 1), no frame of a run throws: from every
    reachable world [gameLoop] returns a world, itself reachable and with
    the same random source, so the next frame returns as well. *)
Theorem frames_never_throw (w : Game.World) :
  Game.reachable w -> JS.well_formed (Game.random w) ->
  exists w', Game.gameLoop w = Some w' /\ Game.reachable w' /\
             JS.well_formed (Game.random w').
Proof.
  intros Hr Hwf. destruct (update_total w (reachable_steady w Hr) Hwf) as [w1 [Hu Hd]].
  exists (Game.draw w1). unfold Game.gameLoop. rewrite Hu. split; [reflexivity|]. split.
  - apply (Game.reachable_dispatch w Game.AnimationFrame); [exact Hr|].
    cbn [Game.dispatch]. unfold Game.gameLoop. now rewrite Hu.
  - destruct (draw_fields w1) as [_ [_ [_ [Hdd _]]]].
    intros i. unfold JS.well_formed in Hwf. rewrite Hdd, Hd. apply Hwf.
Qed.

Lemma frames_never_throw_witness :
  exists w', Game.gameLoop exampleWorld = Some w' /\ Game.reachable w' /\
             JS.well_formed (Game.random w').
Proof.
  exact (frames_never_throw exampleWorld GameFacts.exampleWorld_reachable
           (fun _ => conj eq_refl eq_refl)).
Defined.

(** No event lowers the high score: after any event it is what it was, or
    strictly higher. *)
Theorem high_score_never_lowered (w w' : Game.World) (ev : Game.Event) :
  Game.dispatch w ev = Some w' ->
  Game.highScore (Game.game w') = Game.highScore (Game.game w) \/
  flt (Game.highScore (Game.game w)) (Game.highScore (Game.game w')).
Proof.
  intros Hd.
  exact (raisedFrom_dispatch (Game.highScore (Game.game w)) w ev w' (or_introl eq_refl) Hd).
Qed.

Lemma high_score_never_lowered_witness :
  Game.highScore (Game.game (Game.pauseGame exampleWorld))
  = Game.highScore (Game.game exampleWorld) \/
  flt (Game.highScore (Game.game exampleWorld))
      (Game.highScore (Game.game (Game.pauseGame exampleWorld))).
Proof.
  exact (high_score_never_lowered exampleWorld (Game.pauseGame exampleWorld) Game.ClickPause
           eq_refl).
Defined.

(** The four screens form a state machine: the state after any event but
    an animation frame is a function of the state before and of the event
    alone, and a frame either keeps the state or ends a game being played. *)
Theorem events_drive_the_state (w w' : Game.World) (ev : Game.Event) :
  Game.dispatch w ev = Some w' ->
  (isFrame ev = false ->
   Game.state (Game.game w') = transition (Game.state (Game.game w)) ev) /\
  (isFrame ev = true ->
   Game.state (Game.game w') = Game.state (Game.game w) \/
   (Game.state (Game.game w) = PLAYING /\ Game.state (Game.game w') = GAME_OVER)).
Proof. exact (dispatch_state w ev w'). Qed.

Lemma events_drive_the_state_witness :
  (isFrame Game.ClickPause = false ->
   Game.state (Game.game (Game.pauseGame exampleWorld))
   = transition (Game.state (Game.game exampleWorld)) Game.ClickPause) /\
  (isFrame Game.ClickPause = true ->
   Game.state (Game.game (Game.pauseGame exampleWorld)) = Game.state (Game.game exampleWorld) \/
   (Game.state (Game.game exampleWorld) = PLAYING /\
    Game.state (Game.game (Game.pauseGame exampleWorld)) = GAME_OVER)).
Proof.
  exact (events_drive_the_state exampleWorld (Game.pauseGame exampleWorld) Game.ClickPause
           eq_refl).
Defined.

(** GameOver is entered only by an animation frame of a game being played,
    and Paused only from Playing: no key, click or touch ends a game, and
    nothing pauses a menu or a finished game. *)
Theorem game_over_and_pause_come_from_play (w w' : Game.World) (ev : Game.Event) :
  Game.dispatch w ev = Some w' ->
  (Game.state (Game.game w') = GAME_OVER ->
   Game.state (Game.game w) = GAME_OVER \/
   (ev = Game.AnimationFrame /\ Game.state (Game.game w) = PLAYING)) /\
  (Game.state (Game.game w') = PAUSED ->
   Game.state (Game.game w) = PAUSED \/ Game.state (Game.game w) = PLAYING).
Proof.
  intros Hd. destruct (dispatch_state w ev w' Hd) as [Hh Hf].
  destruct (isFrame ev) eqn:Ef.
  - assert (Eev : ev = Game.AnimationFrame) by (destruct ev; try discriminate Ef; reflexivity).
    destruct (Hf eq_refl) as [E|[Hp Hg]].
    + rewrite E. split; intros H; auto.
    + rewrite Hg, Hp. split; intros H; [now right|discriminate H].
  - rewrite (Hh eq_refl).
    destruct (transition_origin (Game.state (Game.game w)) ev) as [H1 H2].
    split; intros H; auto.
Qed.

Lemma game_over_and_pause_come_from_play_witness :
  (Game.state (Game.game (Game.pauseGame exampleWorld)) = GAME_OVER ->
   Game.state (Game.game exampleWorld) = GAME_OVER \/
   (Game.ClickPause = Game.AnimationFrame /\ Game.state (Game.game exampleWorld) = PLAYING)) /\
  (Game.state (Game.game (Game.pauseGame exampleWorld)) = PAUSED ->
   Game.state (Game.game exampleWorld) = PAUSED \/
   Game.state (Game.game exampleWorld) = PLAYING).
Proof.
  exact (game_over_and_pause_come_from_play exampleWorld (Game.pauseGame exampleWorld)
           Game.ClickPause eq_refl).
Defined.

(** Outside the Playing state a frame changes nothing of the game: the game
    object, the configuration and the stored records are as before; in the
    Menu state the whole world is. *)
Theorem idle_frames_change_nothing (w : Game.World) :
  Game.state (Game.game w) <> PLAYING ->
  exists w', Game.gameLoop w = Some w' /\
    Game.game w' = Game.game w /\ Game.config w' = Game.config w /\
    Game.localStorage w' = Game.localStorage w /\
    JS.draws (Game.random w') = JS.draws (Game.random w) /\
    (Game.state (Game.game w) = MENU -> w' = w).
Proof.
  intros Hn. exists (Game.draw w). unfold Game.gameLoop.
  rewrite (GameFacts.update_not_playing w Hn).
  destruct (draw_fields w) as [H1 [H2 [H3 [H4 H5]]]]. auto 10.
Qed.

Lemma idle_frames_change_nothing_witness :
  exists w', Game.gameLoop (Game.showMenu exampleWorld) = Some w' /\
    Game.game w' = Game.game (Game.showMenu exampleWorld) /\
    Game.config w' = Game.config (Game.showMenu exampleWorld) /\
    Game.localStorage w' = Game.localStorage (Game.showMenu exampleWorld) /\
    JS.draws (Game.random w') = JS.draws (Game.random (Game.showMenu exampleWorld)) /\
    (Game.state (Game.game (Game.showMenu exampleWorld)) = MENU ->
     w' = Game.showMenu exampleWorld).
Proof.
  refine (idle_frames_change_nothing (Game.showMenu exampleWorld) _). discriminate.
Defined.

(** In every reachable world the speed is between 5 and 10 and the distance
    is a finite number, zero or more. *)
Theorem speed_stays_between_5_and_10 (w : Game.World) :
  Game.reachable w ->
  fle 5 (Game.gameSpeed (Game.game w)) /\ fle (Game.gameSpeed (Game.game w)) 10 /\
  fle 0 (Game.distance (Game.game w)) /\ ffin (Game.distance (Game.game w)) = true.
Proof.
  intros Hr. destruct (GameFacts.reachable_invariant w Hr) as [[k Hk] _].
  symmetry in Hk.
  destruct (TrajectoryFacts.trajectory_facts k _ _ Hk) as [H0 [Hm _]].
  assert (Hs : fle 5 (Game.gameSpeed (Game.game w)) /\ fle (Game.gameSpeed (Game.game w)) 10).
  { destruct k as [|k].
    - assert (E : Game.gameSpeed (Game.game w) = 5) by (unfold trajectory in Hk; cbn in Hk; congruence).
      rewrite E. split; reflexivity.
    - unfold trajectory in Hk. rewrite Nat.iter_succ in Hk.
      destruct (Nat.iter k advance (0, 5)) as [d0 s0]. cbn [advance] in Hk.
      assert (Ed : Game.distance (Game.game w) = d0 + s0 * 0.1) by congruence.
      assert (Es : Game.gameSpeed (Game.game w) = Game.speedFor (d0 + s0 * 0.1)) by congruence.
      rewrite Es, <- Ed. now apply speedFor_bounds. }
  destruct Hs as [H5 H10]. repeat (split; [assumption|]).
  apply (ffin_between 0 maxFloat); [reflexivity|reflexivity|exact H0|exact Hm].
Qed.

Lemma speed_stays_between_5_and_10_witness :
  fle 5 (Game.gameSpeed (Game.game exampleWorld)) /\
  fle (Game.gameSpeed (Game.game exampleWorld)) 10 /\
  fle 0 (Game.distance (Game.game exampleWorld)) /\
  ffin (Game.distance (Game.game exampleWorld)) = true.
Proof. exact (speed_stays_between_5_and_10 exampleWorld GameFacts.exampleWorld_reachable). Defined.

End RunFacts.
